(** * HTMLDOMDiff: a shallow embedding of [src/language/HTMLDOMDiff.js]

    The JavaScript module exports one function, [domdiff], which compares two
    SimpleDOM snapshots and returns the list of edit objects that a browser-side
    applier replays.  The embedding keeps the shape of the source: the closure
    variables of [domdiff] and of [generateChildEdits] become the fields of one
    [state] record that is threaded through the helpers, the three [while]
    loops and the driver's [do ... while] loop are iterated with an explicit
    bound, and a property read through [null] or [undefined] (a JavaScript
    [TypeError]) is an explicit outcome. *)

From Stdlib Require Import ZArith String List Lia Bool.
From stdpp Require Import base option list gmap strings.

Open Scope Z_scope.
Open Scope string_scope.
Open Scope list_scope.

(** ** JavaScript values used as identities *)

(** Tag identities are numbers; a missing property reads as [undefined], and
    [getParentID] may yield [null].  Strict equality [===] on these values is
    Leibniz equality on [jsid]. *)
Inductive jsid :=
| undefined
| null
| num (z : Z).

#[global] Instance jsid_eq_dec : EqDecision jsid.
Proof. solve_decision. Defined.

(** Truthiness of an identity: [undefined], [null] and [0] are falsy. *)
Definition truthy (v : jsid) : bool :=
  match v with
  | num z => negb (z =? 0)%Z
  | _ => false
  end.

(** ** Outcomes *)

Inductive result (A : Type) :=
| Ok (a : A)
| TypeError
| OutOfFuel.
Arguments Ok {A} a.
Arguments TypeError {A}.
Arguments OutOfFuel {A}.

#[global] Instance result_bind : MBind result := fun A B k r =>
  match r with
  | Ok a => k a
  | TypeError => TypeError
  | OutOfFuel => OutOfFuel
  end.

(** Reading a property of a value that may be [null]/[undefined]. *)
Definition deref {A} (o : option A) : result A :=
  match o with
  | Some a => Ok a
  | None => TypeError
  end.

(** ** SimpleDOM nodes *)

(** Attribute objects: own properties in insertion order. *)
Definition attrs := list (string * string).

Definition keys (o : attrs) : list string := map fst o.

Fixpoint attr_get (k : string) (o : attrs) : option string :=
  match o with
  | [] => None
  | (k', v) :: o' => if String.eqb k k' then Some v else attr_get k o'
  end.

(** [o.hasOwnProperty(k)].  The method is looked up on [o] itself before
    [Object.prototype]: when [o] has an own property named [hasOwnProperty],
    its value, a string, is what gets called, and the call throws. *)
Definition hasOwnProperty (o : attrs) (k : string) : result bool :=
  match attr_get "hasOwnProperty" o with
  | Some _ => TypeError
  | None => Ok (match attr_get k o with Some _ => true | None => false end)
  end.

Fixpoint attr_delete (k : string) (o : attrs) : attrs :=
  match o with
  | [] => []
  | (k', v) :: o' =>
      if String.eqb k k' then attr_delete k o' else (k', v) :: attr_delete k o'
  end.

(** The [parent] back-reference of a node, represented by the two properties
    of the parent object that the differ reads through it:
    [parent.tagID] and [parent.children.length]. *)
Record parentRef := mkParent {
  p_tagID : Z;
  p_children_length : nat
}.

(** An element has a [children] array (possibly empty); a text node has none. *)
#[warnings="-register-all"]
Inductive node :=
| Element (e_tagID : Z) (e_tag : string) (e_attributes : attrs)
          (e_parent : option parentRef)
          (e_attributeSignature e_childSignature e_subtreeSignature : Z)
          (e_children : list node)
| Text (t_content : string) (t_textSignature : Z) (t_parent : option parentRef).

Definition children (n : node) : option (list node) :=
  match n with
  | Element _ _ _ _ _ _ _ c => Some c
  | Text _ _ _ => None
  end.

(** [node.children] used as a condition. *)
Definition isElement (n : node) : bool :=
  match n with
  | Element _ _ _ _ _ _ _ _ => true
  | Text _ _ _ => false
  end.

Definition tagID (n : node) : jsid :=
  match n with
  | Element i _ _ _ _ _ _ _ => num i
  | Text _ _ _ => undefined
  end.

Definition tag (n : node) : option string :=
  match n with
  | Element _ t _ _ _ _ _ _ => Some t
  | Text _ _ _ => None
  end.

Definition attributes (n : node) : option attrs :=
  match n with
  | Element _ _ a _ _ _ _ _ => Some a
  | Text _ _ _ => None
  end.

Definition parent (n : node) : option parentRef :=
  match n with
  | Element _ _ _ p _ _ _ _ => p
  | Text _ _ p => p
  end.

Definition content (n : node) : option string :=
  match n with
  | Element _ _ _ _ _ _ _ _ => None
  | Text c _ _ => Some c
  end.

Definition attributeSignature (n : node) : option Z :=
  match n with
  | Element _ _ _ _ s _ _ _ => Some s
  | Text _ _ _ => None
  end.

Definition childSignature (n : node) : option Z :=
  match n with
  | Element _ _ _ _ _ s _ _ => Some s
  | Text _ _ _ => None
  end.

Definition subtreeSignature (n : node) : option Z :=
  match n with
  | Element _ _ _ _ _ _ s _ => Some s
  | Text _ _ _ => None
  end.

Definition textSignature (n : node) : option Z :=
  match n with
  | Element _ _ _ _ _ _ _ _ => None
  | Text _ s _ => Some s
  end.

(** A snapshot: the root node object together with its [nodeMap]. *)
Record dom := mkDom {
  root : node;
  nodeMap : gmap Z node
}.

(** [map[id]]: only numeric identities are keys of a [nodeMap]. *)
Definition lookupID (m : gmap Z node) (id : jsid) : option node :=
  match id with
  | num z => m !! z
  | _ => None
  end.

(** [node.parent && node.parent.tagID] *)
Definition getParentID (n : node) : jsid :=
  match parent n with
  | Some p => num (p_tagID p)
  | None => null
  end.

(** ** Edit objects *)

Inductive editType :=
| elementInsert | elementDelete | elementMove
| textInsert | textDelete | textReplace
| attrDelete | attrChange | attrAdd
| rememberNodes.

#[global] Instance editType_eq_dec : EqDecision editType.
Proof. solve_decision. Defined.

(** One record for the dynamically shaped edit objects.  An absent property is
    [None] (or [undefined] for identities, [false] for the flags, which are
    only ever set to [true] or deleted). *)
Record edit := mkEdit {
  type : editType;
  ed_tag : option string;
  ed_tagID : jsid;
  parentID : jsid;
  ed_attributes : option attrs;
  attribute : option string;
  value : option string;
  ed_content : option string;
  beforeID : jsid;
  afterID : jsid;
  firstChild : bool;
  lastChild : bool;
  beforeText : bool;
  tagIDs : option (list jsid)
}.

(** The object literal [{ type: t }]. *)
Definition newEditOf (t : editType) : edit :=
  {| type := t; ed_tag := None; ed_tagID := undefined; parentID := undefined;
     ed_attributes := None; attribute := None; value := None;
     ed_content := None; beforeID := undefined; afterID := undefined;
     firstChild := false; lastChild := false; beforeText := false;
     tagIDs := None |}.

Definition set_beforeID (v : jsid) (e : edit) : edit :=
  {| type := type e; ed_tag := ed_tag e; ed_tagID := ed_tagID e;
     parentID := parentID e; ed_attributes := ed_attributes e;
     attribute := attribute e; value := value e; ed_content := ed_content e;
     beforeID := v; afterID := afterID e; firstChild := firstChild e;
     lastChild := lastChild e; beforeText := beforeText e;
     tagIDs := tagIDs e |}.

Definition set_afterID (v : jsid) (e : edit) : edit :=
  {| type := type e; ed_tag := ed_tag e; ed_tagID := ed_tagID e;
     parentID := parentID e; ed_attributes := ed_attributes e;
     attribute := attribute e; value := value e; ed_content := ed_content e;
     beforeID := beforeID e; afterID := v; firstChild := firstChild e;
     lastChild := lastChild e; beforeText := beforeText e;
     tagIDs := tagIDs e |}.

Definition set_parentID (v : jsid) (e : edit) : edit :=
  {| type := type e; ed_tag := ed_tag e; ed_tagID := ed_tagID e;
     parentID := v; ed_attributes := ed_attributes e;
     attribute := attribute e; value := value e; ed_content := ed_content e;
     beforeID := beforeID e; afterID := afterID e; firstChild := firstChild e;
     lastChild := lastChild e; beforeText := beforeText e;
     tagIDs := tagIDs e |}.

Definition set_firstChild (v : bool) (e : edit) : edit :=
  {| type := type e; ed_tag := ed_tag e; ed_tagID := ed_tagID e;
     parentID := parentID e; ed_attributes := ed_attributes e;
     attribute := attribute e; value := value e; ed_content := ed_content e;
     beforeID := beforeID e; afterID := afterID e; firstChild := v;
     lastChild := lastChild e; beforeText := beforeText e;
     tagIDs := tagIDs e |}.

Definition set_beforeText (v : bool) (e : edit) : edit :=
  {| type := type e; ed_tag := ed_tag e; ed_tagID := ed_tagID e;
     parentID := parentID e; ed_attributes := ed_attributes e;
     attribute := attribute e; value := value e; ed_content := ed_content e;
     beforeID := beforeID e; afterID := afterID e; firstChild := firstChild e;
     lastChild := lastChild e; beforeText := v;
     tagIDs := tagIDs e |}.

(** [edit.lastChild = true; delete edit.firstChild; delete edit.afterID] *)
Definition markLastChild (e : edit) : edit :=
  {| type := type e; ed_tag := ed_tag e; ed_tagID := ed_tagID e;
     parentID := parentID e; ed_attributes := ed_attributes e;
     attribute := attribute e; value := value e; ed_content := ed_content e;
     beforeID := beforeID e; afterID := undefined; firstChild := false;
     lastChild := true; beforeText := beforeText e;
     tagIDs := tagIDs e |}.

(** The object literals of the child aligner. *)
Definition elementInsertEdit (currentChild : node) (parentID : jsid) : edit :=
  {| type := elementInsert; ed_tag := tag currentChild;
     ed_tagID := tagID currentChild; parentID := parentID;
     ed_attributes := attributes currentChild;
     attribute := None; value := None; ed_content := None;
     beforeID := undefined; afterID := undefined;
     firstChild := false; lastChild := false; beforeText := false;
     tagIDs := None |}.

Definition elementDeleteEdit (oldChild : node) : edit :=
  {| type := elementDelete; ed_tag := None;
     ed_tagID := tagID oldChild; parentID := undefined;
     ed_attributes := None;
     attribute := None; value := None; ed_content := None;
     beforeID := undefined; afterID := undefined;
     firstChild := false; lastChild := false; beforeText := false;
     tagIDs := None |}.

Definition elementMoveEdit (currentChild : node) (parentID : jsid) : edit :=
  {| type := elementMove; ed_tag := None;
     ed_tagID := tagID currentChild; parentID := parentID;
     ed_attributes := None;
     attribute := None; value := None; ed_content := None;
     beforeID := undefined; afterID := undefined;
     firstChild := false; lastChild := false;
     beforeText := false; tagIDs := None |}.

(** [{ type: t, content: c, parentID: p }] *)
Definition textEdit (t : editType) (c : option string) (parentID : jsid)
    : edit :=
  {| type := t; ed_tag := None; ed_tagID := undefined;
     parentID := parentID; ed_attributes := None;
     attribute := None; value := None; ed_content := c;
     beforeID := undefined; afterID := undefined;
     firstChild := false; lastChild := false; beforeText := false;
     tagIDs := None |}.

(** [if (textAfterID) { newEdit.afterID = textAfterID; }] *)
Definition withAfterID (textAfterID : jsid) (newEdit : edit) : edit :=
  if truthy textAfterID then set_afterID textAfterID newEdit else newEdit.

(** [if (textAfterID) { newEdit.afterID = textAfterID; }
     else { newEdit.firstChild = true; }] *)
Definition withAfterIDOrFirstChild (textAfterID : jsid) (newEdit : edit)
    : edit :=
  if truthy textAfterID then set_afterID textAfterID newEdit
  else set_firstChild true newEdit.

(** The edit [addTextDelete] starts from: a [textReplace] that keeps the
    content of the previous new child when that is a text node, a
    [textDelete] otherwise. *)
Definition textDeleteStart (prev : option node) : edit :=
  match prev with
  | Some p =>
      if negb (isElement p)
      then textEdit textReplace (content p) undefined
      else newEditOf textDelete
  | None => newEditOf textDelete
  end.

(** ... and the positioning it gets unless the old parent had one child. *)
Definition textDeleteAnchored (p : parentRef) (textAfterID : jsid)
    (newEdit : edit) : edit :=
  if (p_children_length p =? 1)%nat then newEdit
  else withAfterID textAfterID newEdit.

(** ** generateAttributeEdits *)

(** The three attribute objects the function touches: the two owned by the
    input nodes and the local shallow copy [oldAttributes]. *)
Record attrStore := mkAttrStore {
  oldNode_attributes : attrs;
  newNode_attributes : attrs;
  oldAttributes : attrs
}.

Definition attrEdit (t : editType) (id : jsid) (name : string)
    (v : option string) : edit :=
  {| type := t; ed_tag := None; ed_tagID := id; parentID := undefined;
     ed_attributes := None; attribute := Some name; value := v;
     ed_content := None; beforeID := undefined; afterID := undefined;
     firstChild := false; lastChild := false; beforeText := false;
     tagIDs := None |}.

(** [Array.prototype.forEach] with a callback that may throw. *)
Fixpoint forEach {A S : Type} (f : S -> A -> result S) (l : list A) (s : S)
    : result S :=
  match l with
  | [] => Ok s
  | x :: l' => s' ← f s x; forEach f l' s'
  end.

(** Body of the first [forEach], over [Object.keys(newAttributes)]. *)
Definition attrNewStep (oldID : jsid) (acc : list edit * attrStore)
    (attributeName : string) : result (list edit * attrStore) :=
  let '(edits, s) := acc in
  let newAttributes := newNode_attributes s in
  edits' ← (if bool_decide (attr_get attributeName (oldAttributes s)
                            <> attr_get attributeName newAttributes)
            then
              has ← hasOwnProperty (oldAttributes s) attributeName;
              let t := if (has : bool) then attrChange else attrAdd in
              Ok (edits ++ [attrEdit t oldID attributeName
                              (attr_get attributeName newAttributes)])
            else Ok edits);
  Ok (edits',
      {| oldNode_attributes := oldNode_attributes s;
         newNode_attributes := newNode_attributes s;
         oldAttributes := attr_delete attributeName (oldAttributes s) |}).

(** Body of the second [forEach], over what is left of the copy. *)
Definition attrOldStep (oldID : jsid) (edits : list edit)
    (attributeName : string) : list edit :=
  edits ++ [attrEdit attrDelete oldID attributeName None].

(** The function on the store; [$.extend({}, oldNode.attributes)] is the
    initial value of [oldAttributes]. *)
Definition generateAttributeEdits_store (edits : list edit) (oldID : jsid)
    (oldNodeAttrs newNodeAttrs : attrs) : result (list edit * attrStore) :=
  let s0 := {| oldNode_attributes := oldNodeAttrs;
               newNode_attributes := newNodeAttrs;
               oldAttributes := oldNodeAttrs |} in
  '(edits1, s1) ←
    forEach (attrNewStep oldID) (keys (newNode_attributes s0)) (edits, s0);
  Ok (fold_left (attrOldStep oldID) (keys (oldAttributes s1)) edits1, s1).

Definition generateAttributeEdits (edits : list edit) (oldNode newNode : node)
    : result (list edit) :=
  newAttributes ← deref (attributes newNode);
  r ← generateAttributeEdits_store edits (tagID oldNode)
        (default [] (attributes oldNode)) newAttributes;
  Ok (fst r).

(** ** The closure state of [domdiff] *)

(** [queue], [edits], [moves] are the locals of [domdiff] that its inner
    functions update; [console] collects the calls of [console.error];
    [currentIndex], [oldIndex], [newEdits] and [textAfterID] are the locals of
    [generateChildEdits], re-initialised on each call. *)
Record state := mkState {
  queue : list node;
  edits : list edit;
  moves : list jsid;
  console : list string;
  currentIndex : nat;
  oldIndex : nat;
  newEdits : list edit;
  textAfterID : jsid
}.

Definition set_queue (v : list node) (st : state) : state :=
  mkState v (edits st) (moves st) (console st) (currentIndex st) (oldIndex st)
          (newEdits st) (textAfterID st).
Definition set_edits (v : list edit) (st : state) : state :=
  mkState (queue st) v (moves st) (console st) (currentIndex st) (oldIndex st)
          (newEdits st) (textAfterID st).
Definition set_moves (v : list jsid) (st : state) : state :=
  mkState (queue st) (edits st) v (console st) (currentIndex st) (oldIndex st)
          (newEdits st) (textAfterID st).
Definition set_console (v : list string) (st : state) : state :=
  mkState (queue st) (edits st) (moves st) v (currentIndex st) (oldIndex st)
          (newEdits st) (textAfterID st).
Definition set_currentIndex (v : nat) (st : state) : state :=
  mkState (queue st) (edits st) (moves st) (console st) v (oldIndex st)
          (newEdits st) (textAfterID st).
Definition set_oldIndex (v : nat) (st : state) : state :=
  mkState (queue st) (edits st) (moves st) (console st) (currentIndex st) v
          (newEdits st) (textAfterID st).
Definition set_newEdits (v : list edit) (st : state) : state :=
  mkState (queue st) (edits st) (moves st) (console st) (currentIndex st)
          (oldIndex st) v (textAfterID st).
Definition set_textAfterID (v : jsid) (st : state) : state :=
  mkState (queue st) (edits st) (moves st) (console st) (currentIndex st)
          (oldIndex st) (newEdits st) v.

(** [currentIndex++] and [oldIndex++] *)
Definition incr_currentIndex (st : state) : state :=
  set_currentIndex (S (currentIndex st)) st.
Definition incr_oldIndex (st : state) : state :=
  set_oldIndex (S (oldIndex st)) st.

(** [while (cond) { body }], iterated at most [fuel] times. *)
Fixpoint while (fuel : nat) (cond : state -> bool)
    (body : state -> result state) (st : state) : result state :=
  if cond st then
    match fuel with
    | O => OutOfFuel
    | S fuel' => st' ← body st; while fuel' cond body st'
    end
  else Ok st.

(** [do { body } while (cond)], iterated at most [fuel] times. *)
Fixpoint do_while (fuel : nat) (body : state -> result state)
    (cond : state -> bool) (st : state) : result state :=
  match fuel with
  | O => OutOfFuel
  | S fuel' =>
      st' ← body st;
      if cond st' then do_while fuel' body cond st' else Ok st'
  end.

(** [queue.pop()]: the last element and the remaining array. *)
Definition pop (q : list node) : option (node * list node) :=
  match last q with
  | Some x => Some (x, removelast q)
  | None => None
  end.

(** The three messages passed to [console.error]. *)
Definition msg_reordering : string :=
  "HTML Instrumentation: This should not happen. Two elements have different tag IDs and there was no insert/delete. This generally means there was a reordering of elements.".
Definition msg_failed_delete : string :=
  "HTML Instrumentation: failed to add elementDelete for remaining element in the original DOM. This should not happen.".
Definition msg_failed_insert : string :=
  "HTML Instrumentation: failed to add elementInsert for remaining element in the updated DOM. This should not happen.".

(** The size of a subtree, used to bound the driver loop. *)
Fixpoint node_size (n : node) : nat :=
  match n with
  | Element _ _ _ _ _ _ _ c => S (list_sum (map node_size c))
  | Text _ _ _ => 1
  end.

Section Domdiff.

(** [oldNode ? oldNode.nodeMap : {}] and [newNode.nodeMap]. *)
Variable oldNodeMap : gmap Z node.
Variable newNodeMap : gmap Z node.

Section GenerateChildEdits.

Variable currentParent : node.
Variable currentChildren : list node.
Variable oldChildren : list node.

Definition finalizeNewEdits (beforeID : jsid) (st : state) : state :=
  let fixed :=
    map (fun edit =>
           if bool_decide (type edit <> elementDelete)
           then set_beforeID beforeID edit else edit) (newEdits st) in
  set_textAfterID beforeID
    (set_newEdits [] (set_edits (edits st ++ fixed) st)).

Definition addElementInsert (currentChild : node) (st : state)
    : result (bool * state) :=
  if negb (bool_decide (is_Some (lookupID oldNodeMap (tagID currentChild))))
  then
    p ← deref (parent currentChild);
    let newEdit := elementInsertEdit currentChild (num (p_tagID p)) in
    Ok (true,
        incr_currentIndex
          (set_textAfterID (tagID currentChild)
             (set_queue (queue st ++ [currentChild])
                (set_newEdits (newEdits st ++ [newEdit]) st))))
  else Ok (false, st).

Definition addElementDelete (oldChild : node) (st : state)
    : bool * state :=
  if negb (bool_decide (is_Some (lookupID newNodeMap (tagID oldChild))))
  then
    let newEdit := elementDeleteEdit oldChild in
    (true, incr_oldIndex (set_newEdits (newEdits st ++ [newEdit]) st))
  else (false, st).

Definition addTextInsert (currentChild : node) (st : state)
    : result state :=
  p ← deref (parent currentChild);
  let newEdit :=
    textEdit textInsert (content currentChild) (num (p_tagID p)) in
  let newEdit := withAfterIDOrFirstChild (textAfterID st) newEdit in
  Ok (incr_currentIndex (set_newEdits (newEdits st ++ [newEdit]) st)).

Definition prevNode (st : state) : option node :=
  if (0 <? currentIndex st)%nat
  then currentChildren !! (currentIndex st - 1)%nat
  else None.

Definition addTextDelete (oldChild : node) (st : state) : result state :=
  let prev := prevNode st in
  let newEdit := textDeleteStart prev in
  let previousEdit := last (newEdits st) in
  if match previousEdit with
     | Some pe => bool_decide (type pe = textReplace)
                  && bool_decide (afterID pe = textAfterID st)
     | None => false
     end
  then Ok (incr_oldIndex st)
  else
    p ← deref (parent oldChild);
    let newEdit := set_parentID (num (p_tagID p)) newEdit in
    let newEdit := textDeleteAnchored p (textAfterID st) newEdit in
    Ok (incr_oldIndex (set_newEdits (newEdits st ++ [newEdit]) st)).

Definition addElementMove (currentChild : node) (st : state)
    : result (bool * state) :=
  match lookupID oldNodeMap (tagID currentChild) with
  | Some possiblyMovedElement =>
      if bool_decide (tagID currentParent
                      <> getParentID possiblyMovedElement)
      then
        p ← deref (parent currentChild);
        let newEdit := elementMoveEdit currentChild (num (p_tagID p)) in
        Ok (true,
            incr_currentIndex
              (set_newEdits (newEdits st ++ [newEdit])
                 (set_moves (moves st ++ [ed_tagID newEdit]) st)))
      else Ok (false, st)
  | None => Ok (false, st)
  end.

Definition fixupElementInsert (st : state) : state :=
  set_newEdits
    (map (fun edit =>
            if bool_decide (type edit = elementInsert)
            then set_beforeText true edit else edit) (newEdits st)) st.

Definition hasMoved (oldChild : node) : bool :=
  let oldChildInNewTree := lookupID newNodeMap (tagID oldChild) in
  isElement oldChild &&
  match oldChildInNewTree with
  | Some n => bool_decide (getParentID oldChild <> getParentID n)
  | None => false
  end.

(** Condition and body of the first loop. *)
Definition bothRemain (st : state) : bool :=
  (currentIndex st <? length currentChildren)%nat
  && (oldIndex st <? length oldChildren)%nat.

Definition compareStep (st : state) : result state :=
  currentChild ← deref (currentChildren !! currentIndex st);
  '(moved, st) ← (if isElement currentChild
                  then addElementMove currentChild st
                  else Ok (false, st));
  if (moved : bool) then Ok st else
  oldChild ← deref (oldChildren !! oldIndex st);
  if hasMoved oldChild then Ok (incr_oldIndex st) else
  if isElement currentChild || isElement oldChild then
    if isElement currentChild && negb (isElement oldChild) then
      st ← addTextDelete oldChild st;
      '(_, st) ← addElementInsert currentChild st;
      Ok st
    else if isElement oldChild && negb (isElement currentChild) then
      let '(deleted, st) := addElementDelete oldChild st in
      if (deleted : bool) then Ok st else addTextInsert currentChild st
    else
      if bool_decide (tagID currentChild <> tagID oldChild) then
        '(inserted, st) ← addElementInsert currentChild st;
        if (inserted : bool) then Ok st else
        let '(deleted, st) := addElementDelete oldChild st in
        if (deleted : bool) then Ok st else
        Ok (incr_oldIndex
              (incr_currentIndex
                 (set_console (console st ++ [msg_reordering]) st)))
      else
        Ok (incr_oldIndex
              (incr_currentIndex
                 (finalizeNewEdits (tagID oldChild) st)))
  else
    st ← (if bool_decide (textSignature currentChild
                          <> textSignature oldChild)
          then
            p ← deref (parent currentChild);
            let newEdit :=
              textEdit textReplace (content currentChild)
                (num (p_tagID p)) in
            let newEdit := withAfterID (textAfterID st) newEdit in
            Ok (set_newEdits (newEdits st ++ [newEdit]) st)
          else Ok (fixupElementInsert st));
    Ok (incr_oldIndex (incr_currentIndex st)).

(** Condition and body of the second loop (remaining old children). *)
Definition oldRemain (st : state) : bool :=
  (oldIndex st <? length oldChildren)%nat.

Definition drainOldStep (st : state) : result state :=
  oldChild ← deref (oldChildren !! oldIndex st);
  if hasMoved oldChild then Ok (incr_oldIndex st)
  else if isElement oldChild then
    let '(deleted, st) := addElementDelete oldChild st in
    if (deleted : bool) then Ok st
    else Ok (incr_oldIndex
               (set_console (console st ++ [msg_failed_delete]) st))
  else addTextDelete oldChild st.

(** Condition and body of the third loop (remaining new children). *)
Definition currentRemain (st : state) : bool :=
  (currentIndex st <? length currentChildren)%nat.

Definition drainCurrentStep (st : state) : result state :=
  currentChild ← deref (currentChildren !! currentIndex st);
  if isElement currentChild then
    '(moved, st) ← addElementMove currentChild st;
    if (moved : bool) then Ok st else
    '(inserted, st) ← addElementInsert currentChild st;
    if (inserted : bool) then Ok st
    else Ok (incr_currentIndex
               (set_console (console st ++ [msg_failed_insert]) st))
  else addTextInsert currentChild st.

(** The closing [forEach] and [edits.push.apply(edits, newEdits)]. *)
Definition finalizeRemaining (st : state) : state :=
  let fixed :=
    map (fun edit =>
           if bool_decide (type edit = textInsert)
              || bool_decide (type edit = elementInsert)
              || bool_decide (type edit = elementMove)
           then markLastChild edit else edit) (newEdits st) in
  set_edits (edits st ++ fixed) st.

Definition childLoops (st : state) : result state :=
  let fuel := S (length currentChildren + length oldChildren) in
  st ← while fuel bothRemain compareStep st;
  st ← while fuel oldRemain drainOldStep st;
  st ← while fuel currentRemain drainCurrentStep st;
  Ok (finalizeRemaining st).

End GenerateChildEdits.

(** [generateChildEdits(currentParent, oldParent)]; reading [.length] of a
    missing [children] array throws. *)
Definition generateChildEdits (currentParent : node)
    (oldParent : option node) (st : state) : result state :=
  currentChildren ← deref (children currentParent);
  oldChildren ← (match oldParent with
                 | Some o => deref (children o)
                 | None => Ok []
                 end);
  childLoops currentParent currentChildren oldChildren
    (set_textAfterID undefined
       (set_newEdits [] (set_oldIndex 0%nat (set_currentIndex 0%nat st)))).

Definition queuePush (st : state) (n : node) : state :=
  if isElement n && bool_decide (is_Some (lookupID oldNodeMap (tagID n)))
  then set_queue (queue st ++ [n]) st
  else st.

(** Body of the driver's [do ... while (queue.length)] loop. *)
Definition driverStep (st : state) : result state :=
  '(currentElement, rest) ← deref (pop (queue st));
  let st := set_queue rest st in
  match lookupID oldNodeMap (tagID currentElement) with
  | Some oldElement =>
      st ← (if bool_decide (attributeSignature currentElement
                            <> attributeSignature oldElement)
            then
              es ← generateAttributeEdits (edits st) oldElement
                     currentElement;
              Ok (set_edits es st)
            else Ok st);
      st ← (if bool_decide (childSignature currentElement
                            <> childSignature oldElement)
            then generateChildEdits currentElement (Some oldElement) st
            else Ok st);
      if bool_decide (subtreeSignature currentElement
                      <> subtreeSignature oldElement)
      then
        cs ← deref (children currentElement);
        Ok (fold_left queuePush cs st)
      else Ok st
  | None =>
      let st :=
        match parent currentElement with
        | None =>
            set_edits
              (edits st ++
               [elementInsertEdit currentElement null]) st
        | Some _ => st
        end in
      generateChildEdits currentElement None st
  end.

Definition queueNonEmpty (st : state) : bool :=
  (0 <? length (queue st))%nat.

End Domdiff.

Definition initialState (newRoot : node) : state :=
  {| queue := [newRoot]; edits := []; moves := []; console := [];
     currentIndex := 0; oldIndex := 0; newEdits := [];
     textAfterID := undefined |}.

Definition oldNodeMapOf (oldNode : option dom) : gmap Z node :=
  match oldNode with
  | Some o => nodeMap o
  | None => ∅
  end.

(** The run of the driver loop: the final closure state. *)
Definition domdiff_run (oldNode : option dom) (newNode : dom) : result state :=
  do_while (node_size (root newNode))
    (driverStep (oldNodeMapOf oldNode) (nodeMap newNode))
    queueNonEmpty
    (initialState (root newNode)).

Definition rememberNodesEdit (moves : list jsid) : edit :=
  {| type := rememberNodes; ed_tag := None; ed_tagID := undefined;
     parentID := undefined; ed_attributes := None; attribute := None;
     value := None; ed_content := None; beforeID := undefined;
     afterID := undefined; firstChild := false; lastChild := false;
     beforeText := false; tagIDs := Some moves |}.

(** [edits.unshift({type: "rememberNodes", ...})] when there were moves. *)
Definition withRememberNodes (st : state) : list edit :=
  if (0 <? length (moves st))%nat
  then rememberNodesEdit (moves st) :: edits st
  else edits st.

Definition domdiff (oldNode : option dom) (newNode : dom)
    : result (list edit) :=
  st ← domdiff_run oldNode newNode;
  Ok (withRememberNodes st).

(** ** Well-shaped inputs *)

(** Every node below [n] carries its [parent] back-reference. *)
Fixpoint parentsSet (n : node) : bool :=
  match n with
  | Element _ _ _ _ _ _ _ cs =>
      forallb (fun c => bool_decide (is_Some (parent c)) && parentsSet c) cs
  | Text _ _ _ => true
  end.

(** A node as the queue of the driver holds them. *)
Definition elementNode (n : node) : Prop :=
  isElement n = true /\ parentsSet n = true.

#[global] Instance elementNode_dec (n : node) : Decision (elementNode n).
Proof. unfold elementNode. apply _. Defined.

(** The inputs [domdiff] is written for: the new root is an element, the old
    [nodeMap] holds elements, and children point back to a parent.  Nothing is
    asked of the identities. *)
Definition wellShaped (oldNode : option dom) (newNode : dom) : Prop :=
  elementNode (root newNode)
  /\ map_Forall (fun _ n => elementNode n) (oldNodeMapOf oldNode).

(** Attributes on whose copy [hasOwnProperty] can be called: no attribute of
    the node has that name. *)
Definition plainAttributes (n : node) : Prop :=
  attr_get "hasOwnProperty" (default [] (attributes n)) = None.

#[global] Instance plainAttributes_dec (n : node) :
  Decision (plainAttributes n).
Proof. unfold plainAttributes. apply _. Defined.

(** An old snapshot all of whose nodes are such. *)
Definition plainSnapshot (oldNode : option dom) : Prop :=
  map_Forall (fun _ n => plainAttributes n) (oldNodeMapOf oldNode).

#[global] Instance plainSnapshot_dec (oldNode : option dom) :
  Decision (plainSnapshot oldNode).
Proof. unfold plainSnapshot. apply _. Defined.

(** * Properties *)

(** ** The attribute differ *)

(** The attribute differ as the specification words it: for every name of the
    new attributes, an [attrAdd] if the old attributes lack it, an
    [attrChange] if they hold another value, nothing if the values agree;
    then an [attrDelete] for every old name that the new attributes lack. *)
Definition spec_newNameEdits (id : jsid) (oldAttrs : attrs)
    (kv : string * string) : list edit :=
  match attr_get (fst kv) oldAttrs with
  | None => [attrEdit attrAdd id (fst kv) (Some (snd kv))]
  | Some v' =>
      if bool_decide (v' = snd kv) then []
      else [attrEdit attrChange id (fst kv) (Some (snd kv))]
  end.

Definition spec_attributeEdits (id : jsid) (oldAttrs newAttrs : attrs)
    : list edit :=
  flat_map (spec_newNameEdits id oldAttrs) newAttrs
  ++ map (fun k => attrEdit attrDelete id k None)
         (filter (fun k => attr_get k newAttrs = None) (keys oldAttrs)).

Lemma string_eqb_decide (a b : string) : String.eqb a b = bool_decide (a = b).
Proof.
  destruct (String.eqb_spec a b); symmetry;
    [by apply bool_decide_eq_true | by apply bool_decide_eq_false].
Qed.

Lemma attr_get_delete_ne (k k' : string) (o : attrs) :
  k <> k' -> attr_get k (attr_delete k' o) = attr_get k o.
Proof.
  intros Hne. induction o as [|[k0 v0] o IH]; simpl; [done|].
  destruct (String.eqb_spec k' k0) as [->|Hk0]; simpl.
  - destruct (String.eqb_spec k k0); [done | exact IH].
  - destruct (String.eqb_spec k k0); [done | exact IH].
Qed.

Lemma attr_get_Some_elem (k v : string) (o : attrs) :
  attr_get k o = Some v -> (k, v) ∈ o.
Proof.
  induction o as [|[k0 v0] o IH]; simpl; [done|].
  destruct (String.eqb_spec k k0) as [->|Hne].
  - intros [= ->]. left.
  - intros H. right. by apply IH.
Qed.

Lemma attr_get_None_keys (k : string) (o : attrs) :
  attr_get k o = None <-> k ∉ keys o.
Proof.
  unfold keys. induction o as [|[k0 v0] o IH]; simpl.
  - split; [intros _; apply not_elem_of_nil | done].
  - rewrite not_elem_of_cons. destruct (String.eqb_spec k k0) as [->|Hne].
    + split; [done | intros [? _]; done].
    + rewrite IH. tauto.
Qed.

Lemma attr_get_NoDup (k v : string) (o : attrs) :
  NoDup (keys o) -> (k, v) ∈ o -> attr_get k o = Some v.
Proof.
  unfold keys. induction o as [|[k0 v0] o IH]; simpl; intros Hnd Hin.
  - by apply elem_of_nil in Hin.
  - apply NoDup_cons in Hnd as [Hk0 Hnd].
    apply elem_of_cons in Hin as [[= -> ->]|Hin].
    + by rewrite String.eqb_refl.
    + destruct (String.eqb_spec k k0) as [->|Hne]; [|by apply IH].
      exfalso. apply Hk0. apply list_elem_of_fmap. by exists (k0, v).
Qed.

Lemma keys_attr_delete (k : string) (o : attrs) :
  keys (attr_delete k o) = filter (fun k' => k' <> k) (keys o).
Proof.
  unfold keys. induction o as [|[k0 v0] o IH]; simpl; [done|].
  destruct (String.eqb_spec k k0) as [->|Hne].
  - rewrite filter_cons_False by (simpl; tauto). exact IH.
  - rewrite filter_cons_True by (simpl; congruence). simpl. by rewrite IH.
Qed.

Lemma attr_get_delete_eq (k : string) (o : attrs) :
  attr_get k (attr_delete k o) = None.
Proof.
  induction o as [|[k0 v0] o IH]; simpl; [done|].
  destruct (String.eqb_spec k k0) as [->|Hne]; [exact IH|].
  simpl. by destruct (String.eqb_spec k k0).
Qed.

Lemma attr_get_delete_None (k k' : string) (o : attrs) :
  attr_get k o = None -> attr_get k (attr_delete k' o) = None.
Proof.
  intros H. destruct (decide (k = k')) as [->|Hne].
  - apply attr_get_delete_eq.
  - by rewrite attr_get_delete_ne.
Qed.

(** What the first [forEach] emits for one name, in terms of the two input
    objects. *)
Definition newKeyEdits (id : jsid) (oldAttrs newAttrs : attrs) (k : string)
    : list edit :=
  if bool_decide (attr_get k oldAttrs <> attr_get k newAttrs)
  then [attrEdit (match attr_get k oldAttrs with
                  | Some _ => attrChange
                  | None => attrAdd
                  end) id k (attr_get k newAttrs)]
  else [].

(** A first [forEach] that runs to its end has emitted these edits ... *)
Lemma forEach_attrNewStep_Ok (id : jsid) (oldAttrs newAttrs : attrs) :
  forall (l : list string) (es : list edit) (c : attrs) r,
    NoDup l ->
    (forall k, k ∈ l -> attr_get k c = attr_get k oldAttrs) ->
    forEach (attrNewStep id) l (es, mkAttrStore oldAttrs newAttrs c) = Ok r ->
    r = (es ++ flat_map (newKeyEdits id oldAttrs newAttrs) l,
         mkAttrStore oldAttrs newAttrs
           (fold_left (fun c k => attr_delete k c) l c)).
Proof.
  induction l as [|k l IH]; intros es c r Hnd Hc; simpl.
  - intros [= <-]. by rewrite app_nil_r.
  - apply NoDup_cons in Hnd as [Hk Hnd].
    assert (Hkc : attr_get k c = attr_get k oldAttrs) by (apply Hc; left).
    assert (Hc' : forall k', k' ∈ l ->
              attr_get k' (attr_delete k c) = attr_get k' oldAttrs).
    { intros k' Hk'. rewrite attr_get_delete_ne; [apply Hc; by right|].
      by intros ->. }
    unfold newKeyEdits at 1. rewrite Hkc.
    destruct (bool_decide _); simpl.
    + unfold hasOwnProperty. rewrite Hkc.
      destruct (attr_get "hasOwnProperty" c); simpl; [done|].
      intros Hrun. apply IH in Hrun; [|done..]. rewrite Hrun.
      rewrite <- app_assoc. by destruct (attr_get k oldAttrs).
    + intros Hrun. by apply IH in Hrun.
Qed.

(** ... and it does run to its end when the copy has no own property named
    [hasOwnProperty], or when no value differs. *)
Lemma forEach_attrNewStep_plain (id : jsid) (oldAttrs newAttrs : attrs) :
  forall (l : list string) (es : list edit) (c : attrs),
    attr_get "hasOwnProperty" c = None ->
    exists r,
      forEach (attrNewStep id) l (es, mkAttrStore oldAttrs newAttrs c) = Ok r.
Proof.
  induction l as [|k l IH]; intros es c Hc; simpl; [by eexists|].
  unfold hasOwnProperty. rewrite Hc.
  destruct (bool_decide _); simpl; apply IH; by apply attr_get_delete_None.
Qed.

Lemma forEach_attrNewStep_same (id : jsid) (oldAttrs newAttrs : attrs) :
  forall (l : list string) (es : list edit) (c : attrs),
    NoDup l ->
    (forall k, k ∈ l -> attr_get k c = attr_get k newAttrs) ->
    exists r,
      forEach (attrNewStep id) l (es, mkAttrStore oldAttrs newAttrs c) = Ok r.
Proof.
  induction l as [|k l IH]; intros es c Hnd Hc; simpl; [by eexists|].
  apply NoDup_cons in Hnd as [Hk Hnd].
  rewrite bool_decide_eq_false_2
    by (intros H; apply H; apply Hc; left).
  simpl. apply IH; [done|]. intros k' Hk'.
  rewrite attr_get_delete_ne; [apply Hc; by right|]. by intros ->.
Qed.

Lemma filter_all {A} (P : A -> Prop) `{forall x, Decision (P x)}
    (l : list A) :
  (forall x, x ∈ l -> P x) -> filter P l = l.
Proof.
  induction l as [|x l IH]; intros HP; [done|].
  rewrite filter_cons_True by (apply HP; left).
  f_equal. apply IH. intros y Hy. apply HP. by right.
Qed.

Lemma keys_fold_attr_delete (l : list string) (c : attrs) :
  keys (fold_left (fun c k => attr_delete k c) l c)
  = filter (fun k => k ∉ l) (keys c).
Proof.
  revert c. induction l as [|k l IH]; intros c; simpl.
  - symmetry. apply filter_all. intros k _. apply not_elem_of_nil.
  - rewrite IH, keys_attr_delete, list_filter_filter.
    apply list_filter_iff. intros k'. rewrite not_elem_of_cons. tauto.
Qed.

Lemma fold_attrOldStep (id : jsid) (l : list string) (es : list edit) :
  fold_left (attrOldStep id) l es
  = es ++ map (fun k => attrEdit attrDelete id k None) l.
Proof.
  revert es. induction l as [|k l IH]; intros es; simpl.
  - by rewrite app_nil_r.
  - rewrite IH. unfold attrOldStep. by rewrite <- app_assoc.
Qed.

Lemma newKeyEdits_spec (id : jsid) (oldAttrs newAttrs : attrs) :
  NoDup (keys newAttrs) ->
  flat_map (newKeyEdits id oldAttrs newAttrs) (keys newAttrs)
  = flat_map (spec_newNameEdits id oldAttrs) newAttrs.
Proof.
  intros Hnd. unfold keys. rewrite flat_map_concat_map, map_map.
  rewrite (flat_map_concat_map (spec_newNameEdits id oldAttrs)). f_equal.
  apply map_ext_in. intros [k v] Hin. simpl.
  apply list_elem_of_In in Hin.
  unfold newKeyEdits, spec_newNameEdits. simpl.
  rewrite (attr_get_NoDup k v newAttrs Hnd Hin).
  destruct (attr_get k oldAttrs) as [v'|] eqn:Hold.
  - destruct (decide (v' = v)) as [->|Hne].
    + rewrite bool_decide_eq_false_2 by (intros H; by apply H).
      by rewrite bool_decide_eq_true_2.
    + rewrite bool_decide_eq_true_2 by congruence.
      by rewrite bool_decide_eq_false_2.
  - by rewrite bool_decide_eq_true_2.
Qed.

(** A call that returns has computed the specification's edit list and left
    the attribute objects of both nodes as they were. *)
Lemma generateAttributeEdits_store_Ok (edits : list edit) (id : jsid)
    (oldAttrs newAttrs : attrs) r :
  NoDup (keys newAttrs) ->
  generateAttributeEdits_store edits id oldAttrs newAttrs = Ok r ->
  r = (edits ++ spec_attributeEdits id oldAttrs newAttrs,
       mkAttrStore oldAttrs newAttrs
         (fold_left (fun c k => attr_delete k c) (keys newAttrs) oldAttrs)).
Proof.
  intros Hnd. unfold generateAttributeEdits_store. simpl.
  destruct (forEach _ _ _) as [[edits1 s1]| |] eqn:E; simpl; try discriminate.
  apply forEach_attrNewStep_Ok in E; [|done..]. injection E as -> ->.
  intros [= <-]. simpl.
  rewrite fold_attrOldStep, keys_fold_attr_delete, newKeyEdits_spec by done.
  unfold spec_attributeEdits. rewrite <- app_assoc.
  apply (f_equal (fun x => (edits ++ _ ++ map _ x, _))).
  apply list_filter_iff. intros k. symmetry. apply attr_get_None_keys.
Qed.

(** The call returns when the old attributes have no name [hasOwnProperty]. *)
Lemma generateAttributeEdits_store_plain (edits : list edit) (id : jsid)
    (oldAttrs newAttrs : attrs) :
  attr_get "hasOwnProperty" oldAttrs = None ->
  exists r, generateAttributeEdits_store edits id oldAttrs newAttrs = Ok r.
Proof.
  intros Hplain. unfold generateAttributeEdits_store. simpl.
  destruct (forEach_attrNewStep_plain id oldAttrs newAttrs (keys newAttrs)
              edits oldAttrs Hplain) as [[edits1 s1] ->].
  simpl. by eexists.
Qed.

Lemma generateAttributeEdits_store_spec (edits : list edit) (id : jsid)
    (oldAttrs newAttrs : attrs) :
  NoDup (keys newAttrs) ->
  attr_get "hasOwnProperty" oldAttrs = None ->
  generateAttributeEdits_store edits id oldAttrs newAttrs
  = Ok (edits ++ spec_attributeEdits id oldAttrs newAttrs,
        mkAttrStore oldAttrs newAttrs
          (fold_left (fun c k => attr_delete k c) (keys newAttrs) oldAttrs)).
Proof.
  intros Hnd Hplain.
  destruct (generateAttributeEdits_store_plain edits id oldAttrs newAttrs
              Hplain) as [r Hr].
  rewrite Hr. f_equal. by eapply generateAttributeEdits_store_Ok.
Qed.

Lemma elem_of_spec_newNameEdits (id : jsid) (oldAttrs : attrs)
    (kv : string * string) (e : edit) :
  e ∈ spec_newNameEdits id oldAttrs kv <->
    (e = attrEdit attrAdd id (fst kv) (Some (snd kv))
     /\ attr_get (fst kv) oldAttrs = None)
    \/ (exists v', e = attrEdit attrChange id (fst kv) (Some (snd kv))
                   /\ attr_get (fst kv) oldAttrs = Some v' /\ v' <> snd kv).
Proof.
  unfold spec_newNameEdits. destruct (attr_get (fst kv) oldAttrs) as [v'|].
  - case_bool_decide as Hv.
    + split; [intros H; by apply elem_of_nil in H|].
      intros [[_ [=]]|(v & _ & [= ->] & Hne)]. done.
    + rewrite list_elem_of_singleton. split.
      * intros ->. right. by exists v'.
      * intros [[_ [=]]|(v & -> & _ & _)]. done.
  - rewrite list_elem_of_singleton. split.
    + intros ->. by left.
    + intros [[-> _]|(v & _ & [=] & _)]. done.
Qed.

Lemma elem_of_flat_map {A B} (f : A -> list B) (l : list A) (y : B) :
  y ∈ flat_map f l <-> exists x, x ∈ l /\ y ∈ f x.
Proof.
  rewrite list_elem_of_In, in_flat_map. split; intros (x & H1 & H2); exists x.
  - by rewrite !list_elem_of_In.
  - by rewrite <- !list_elem_of_In.
Qed.

Lemma NoDup_spec_newNameEdits (id : jsid) (oldAttrs : attrs) (l : attrs) :
  NoDup (keys l) -> NoDup (flat_map (spec_newNameEdits id oldAttrs) l).
Proof.
  unfold keys. induction l as [|[k v] l IH]; simpl; intros Hnd.
  - constructor.
  - apply NoDup_cons in Hnd as [Hk Hnd]. apply NoDup_app. split; [|split].
    + unfold spec_newNameEdits. simpl. destruct (attr_get k oldAttrs).
      * case_bool_decide; [constructor | apply NoDup_singleton].
      * apply NoDup_singleton.
    + intros e He Hin. apply elem_of_flat_map in Hin as ([k' v'] & Hin & He').
      assert (Hattr : attribute e = Some k /\ attribute e = Some k').
      { apply elem_of_spec_newNameEdits in He, He'. simpl in *.
        destruct He as [[-> _]|(? & -> & _)], He' as [[He' _]|(? & He' & _)];
          inversion He'; subst; done. }
      destruct Hattr as [H1 H2]. rewrite H1 in H2. injection H2 as <-.
      apply Hk. apply list_elem_of_fmap. by exists (k, v').
    + by apply IH.
Qed.

Lemma generateAttributeEdits_Ok (edits : list edit) (oldNode newNode : node)
    (oldAttrs newAttrs : attrs) (es : list edit) :
  attributes oldNode = Some oldAttrs ->
  attributes newNode = Some newAttrs ->
  NoDup (keys newAttrs) ->
  generateAttributeEdits edits oldNode newNode = Ok es ->
  es = edits ++ spec_attributeEdits (tagID oldNode) oldAttrs newAttrs.
Proof.
  intros Hold Hnew Hnd. unfold generateAttributeEdits.
  rewrite Hold, Hnew. simpl.
  destruct (generateAttributeEdits_store _ _ _ _) as [r| |] eqn:E; simpl;
    try discriminate.
  apply generateAttributeEdits_store_Ok in E; [|done]. subst r.
  by intros [= <-].
Qed.

Lemma generateAttributeEdits_same (edits : list edit) (oldNode newNode : node)
    (oldAttrs newAttrs : attrs) :
  attributes oldNode = Some oldAttrs ->
  attributes newNode = Some newAttrs ->
  NoDup (keys newAttrs) ->
  (forall k, attr_get k oldAttrs = attr_get k newAttrs) ->
  exists es, generateAttributeEdits edits oldNode newNode = Ok es.
Proof.
  intros Hold Hnew Hnd Hsame. unfold generateAttributeEdits.
  rewrite Hold, Hnew. simpl. unfold generateAttributeEdits_store. simpl.
  destruct (forEach_attrNewStep_same (tagID oldNode) oldAttrs newAttrs
              (keys newAttrs) edits oldAttrs Hnd) as [[edits1 s1] ->].
  - intros k _. apply Hsame.
  - simpl. by eexists.
Qed.

(** The characterisation of the specification's edits: each occurs once and
    is an [attrAdd] for a name the old attributes lack, an [attrChange] for a
    name both hold with different values, or an [attrDelete] for an old name
    the new attributes lack. *)
Lemma spec_attributeEdits_exact (id : jsid) (oldAttrs newAttrs : attrs) :
  NoDup (keys oldAttrs) ->
  NoDup (keys newAttrs) ->
  NoDup (spec_attributeEdits id oldAttrs newAttrs)
  /\ (forall e, e ∈ spec_attributeEdits id oldAttrs newAttrs <->
        (exists k v, e = attrEdit attrAdd id k (Some v)
                     /\ attr_get k newAttrs = Some v
                     /\ attr_get k oldAttrs = None)
        \/ (exists k v v',
               e = attrEdit attrChange id k (Some v)
               /\ attr_get k newAttrs = Some v
               /\ attr_get k oldAttrs = Some v' /\ v' <> v)
        \/ (exists k, e = attrEdit attrDelete id k None
                      /\ is_Some (attr_get k oldAttrs)
                      /\ attr_get k newAttrs = None)).
Proof.
  intros Hndo Hndn. split.
  - unfold spec_attributeEdits. apply NoDup_app. split; [|split].
    + by apply NoDup_spec_newNameEdits.
    + intros e He Hin. apply elem_of_flat_map in He as (kv & _ & He).
      apply list_elem_of_fmap in Hin as (k & -> & _).
      apply elem_of_spec_newNameEdits in He.
      destruct He as [[[=] _]|(? & [=] & _)].
    + apply NoDup_fmap_2; [|by apply NoDup_filter].
      intros k1 k2 [=]. done.
  - intros e. unfold spec_attributeEdits.
    rewrite elem_of_app, elem_of_flat_map, list_elem_of_fmap. split.
    + intros [([k v] & Hin & He)|(k & -> & Hk)].
      * apply elem_of_spec_newNameEdits in He. simpl in He.
        pose proof (attr_get_NoDup k v newAttrs Hndn Hin) as Hget.
        destruct He as [[-> Ho]|(v' & -> & Ho & Hne)].
        -- left. by exists k, v.
        -- right. left. by exists k, v, v'.
      * apply list_elem_of_filter in Hk as [Hn Hk].
        right. right. exists k. split; [done|]. split; [|done].
        destruct (attr_get k oldAttrs) eqn:E; [by eexists|].
        by apply attr_get_None_keys in E.
    + intros [(k & v & -> & Hn & Ho)|[(k & v & v' & -> & Hn & Ho & Hne)|
                                       (k & -> & Ho & Hn)]].
      * left. exists (k, v). split; [by apply attr_get_Some_elem|].
        apply elem_of_spec_newNameEdits. left. by simpl.
      * left. exists (k, v). split; [by apply attr_get_Some_elem|].
        apply elem_of_spec_newNameEdits. right. by exists v'.
      * right. exists k. split; [done|]. apply list_elem_of_filter.
        split; [done|]. destruct Ho as [v Ho].
        apply attr_get_Some_elem in Ho. apply list_elem_of_fmap.
        by exists (k, v).
Qed.

(** The first [forEach] throws at the first name whose values differ, if the
    copy still has its own [hasOwnProperty] then. *)
Lemma forEach_attrNewStep_throws (id : jsid) (oldAttrs newAttrs : attrs) :
  forall (l : list string) (es : list edit) (c : attrs),
    NoDup l ->
    (forall k, k ∈ l -> attr_get k c = attr_get k oldAttrs) ->
    is_Some (attr_get "hasOwnProperty" c) ->
    forEach (attrNewStep id) l (es, mkAttrStore oldAttrs newAttrs c)
    = TypeError
    <-> exists pre k post,
          l = pre ++ k :: post /\ ("hasOwnProperty" ∉ pre)
          /\ attr_get k oldAttrs <> attr_get k newAttrs.
Proof.
  induction l as [|k l IH]; intros es c Hnd Hc [w Hw]; simpl.
  - split; [done|]. intros (pre & k & post & H & _). by destruct pre.
  - apply NoDup_cons in Hnd as [Hk Hnd].
    assert (Hkc : attr_get k c = attr_get k oldAttrs) by (apply Hc; left).
    assert (Hc' : forall k', k' ∈ l ->
              attr_get k' (attr_delete k c) = attr_get k' oldAttrs).
    { intros k' Hk'. rewrite attr_get_delete_ne; [apply Hc; by right|].
      by intros ->. }
    rewrite Hkc. case_bool_decide as Hd; simpl.
    + unfold hasOwnProperty. rewrite Hw. simpl. split; [|done].
      intros _. exists [], k, l. split; [done|].
      split; [apply not_elem_of_nil | done].
    + destruct (decide (k = "hasOwnProperty")) as [->|Hne].
      * destruct (forEach_attrNewStep_plain id oldAttrs newAttrs l es
                    (attr_delete "hasOwnProperty" c)
                    (attr_get_delete_eq _ _)) as [r ->].
        split; [done|]. intros (pre & k & post & H & Hpre & Hdiff).
        destruct pre as [|k0 pre]; simplify_eq/=.
        exfalso. apply Hpre. left.
      * rewrite IH; [|done..|].
        -- split.
           ++ intros (pre & k' & post & -> & Hpre & Hdiff).
              exists (k :: pre), k', post. split; [done|].
              split; [|done]. rewrite not_elem_of_cons. by split.
           ++ intros (pre & k' & post & H & Hpre & Hdiff).
              destruct pre as [|k0 pre]; simplify_eq/=.
              exists pre, k', post. split; [done|].
                 split; [|done]. rewrite not_elem_of_cons in Hpre. tauto.
        -- exists w. by rewrite attr_get_delete_ne.
Qed.

(** C8 (where the code departs from the claim).  For a matched element pair
    whose attribute objects have distinct names, [generateAttributeEdits]
    throws a [TypeError] - and appends nothing that a caller could see -
    exactly when the old attributes have a name [hasOwnProperty] and some
    name of the new attributes, not preceded among them by [hasOwnProperty],
    has another value in the old attributes or none: line 38 then calls
    [oldAttributes.hasOwnProperty], which is that attribute's string. *)
Theorem generateAttributeEdits_shadowed (edits : list edit)
    (oldNode newNode : node) (oldAttrs newAttrs : attrs) :
  attributes oldNode = Some oldAttrs ->
  attributes newNode = Some newAttrs ->
  NoDup (keys newAttrs) ->
  generateAttributeEdits edits oldNode newNode = TypeError
  <-> is_Some (attr_get "hasOwnProperty" oldAttrs)
      /\ exists pre k post,
           keys newAttrs = pre ++ k :: post /\ ("hasOwnProperty" ∉ pre)
           /\ attr_get k oldAttrs <> attr_get k newAttrs.
Proof.
  intros Hold Hnew Hnd.
  unfold generateAttributeEdits. rewrite Hold, Hnew. simpl.
  destruct (attr_get "hasOwnProperty" oldAttrs) as [w|] eqn:Hw.
  - rewrite <- (forEach_attrNewStep_throws (tagID oldNode) oldAttrs newAttrs
                 (keys newAttrs) edits oldAttrs Hnd (fun _ _ => eq_refl)
                 ltac:(by eexists)).
    unfold generateAttributeEdits_store. simpl.
    destruct (forEach _ _ _) as [[edits1 s1]| |]; simpl.
    + split; [done|]. intros [_ H]. done.
    + split; [|done]. intros _. split; [by eexists|done].
    + split; [done|]. intros [_ H]. done.
  - destruct (generateAttributeEdits_store_plain edits (tagID oldNode)
                oldAttrs newAttrs Hw) as [r ->].
    simpl. split; [done|]. intros [[? [=]] _].
Qed.

(** [<div id=5 hasOwnProperty="x" class="a">] against [<div id=5 class="b">]:
    the claim's [attrChange] for [class] is not produced, the call throws. *)
Lemma generateAttributeEdits_shadowed_witness :
  generateAttributeEdits []
    (Element 5 "div" [("hasOwnProperty", "x"); ("class", "a")] None 1 0 0 [])
    (Element 5 "div" [("class", "b")] None 2 0 0 [])
  = TypeError.
Proof.
  apply (generateAttributeEdits_shadowed []
           (Element 5 "div" [("hasOwnProperty", "x"); ("class", "a")]
              None 1 0 0 [])
           (Element 5 "div" [("class", "b")] None 2 0 0 [])
           [("hasOwnProperty", "x"); ("class", "a")] [("class", "b")]).
  - reflexivity.
  - reflexivity.
  - apply NoDup_singleton.
  - split; [by eexists|]. exists [], "class", []. split; [reflexivity|].
    split; [apply not_elem_of_nil | discriminate].
Defined.

(** ** Diffing a snapshot against itself *)

(** C4. When the same snapshot is passed as the old and the new tree (its
    [nodeMap] mapping the root's identity to the root, as the [nodeMap] of
    every snapshot does), [domdiff] returns the empty edit list. *)
Theorem domdiff_same_snapshot (T : dom) :
  lookupID (nodeMap T) (tagID (root T)) = Some (root T) ->
  domdiff (Some T) T = Ok [].
Proof.
  intros Hroot. unfold domdiff, domdiff_run.
  destruct (root T) as [i t a p s1 s2 s3 cs|] eqn:Er; [|discriminate Hroot].
  simpl in Hroot. simpl. unfold driverStep, pop. simpl. rewrite Hroot. simpl.
  rewrite !bool_decide_eq_false_2 by (intros H; by apply H).
  reflexivity.
Qed.

Lemma domdiff_same_snapshot_witness :
  let n := Element 1 "html" [("lang", "en")] None 11 12 13
             [Text "hello" 14 (Some (mkParent 1 1))] in
  domdiff (Some (mkDom n {[ 1%Z := n ]})) (mkDom n {[ 1%Z := n ]}) = Ok [].
Proof.
  intros n. apply (domdiff_same_snapshot (mkDom n {[ 1%Z := n ]})).
  reflexivity.
Defined.

(** ** Loop rules *)

(** Partial correctness: an invariant of the body holds when the loop ends,
    together with the negated condition. *)
Lemma while_inv (I : state -> Prop) (cond : state -> bool)
    (body : state -> result state) :
  (forall s s', I s -> cond s = true -> body s = Ok s' -> I s') ->
  forall fuel st st',
    I st -> while fuel cond body st = Ok st' -> I st' /\ cond st' = false.
Proof.
  intros Hstep fuel.
  induction fuel as [|fuel IH]; intros st st' HI Hrun; simpl in Hrun.
  - destruct (cond st) eqn:Hc; [discriminate|]. by simplify_eq.
  - destruct (cond st) eqn:Hc; [|by simplify_eq].
    destruct (body st) as [s1| |] eqn:Hb; simpl in Hrun; try discriminate.
    eapply IH; [|exact Hrun]. eauto.
Qed.

(** Total correctness: a body that keeps the invariant and decreases a
    measure runs to completion within [fuel] iterations. *)
Lemma while_total (I : state -> Prop) (m : state -> nat)
    (cond : state -> bool) (body : state -> result state) :
  (forall s, I s -> cond s = true ->
     exists s', body s = Ok s' /\ I s' /\ (m s' < m s)%nat) ->
  forall fuel st,
    I st -> (m st <= fuel)%nat ->
    exists st', while fuel cond body st = Ok st' /\ I st'
                /\ cond st' = false /\ (m st' <= m st)%nat.
Proof.
  intros Hstep fuel.
  induction fuel as [|fuel IH]; intros st HI Hm; simpl.
  - destruct (cond st) eqn:Hc; [|by exists st].
    destruct (Hstep st HI Hc) as (s' & _ & _ & Hlt). lia.
  - destruct (cond st) eqn:Hc; [|by exists st].
    destruct (Hstep st HI Hc) as (s' & -> & HI' & Hlt). simpl.
    destruct (IH s' HI' ltac:(lia)) as (st' & Hrun & ? & ? & ?).
    exists st'. repeat split; [done..|lia].
Qed.

Lemma do_while_inv (I : state -> Prop) (body : state -> result state)
    (cond : state -> bool) :
  (forall s s', I s -> body s = Ok s' -> I s') ->
  forall fuel st st',
    I st -> do_while fuel body cond st = Ok st' -> I st' /\ cond st' = false.
Proof.
  intros Hstep fuel.
  induction fuel as [|fuel IH]; intros st st' HI Hrun; simpl in Hrun;
    [discriminate|].
  destruct (body st) as [s1| |] eqn:Hb; simpl in Hrun; try discriminate.
  destruct (cond s1) eqn:Hc.
  - eapply IH; [|exact Hrun]. eauto.
  - simplify_eq. eauto.
Qed.

(** ** Case analysis of the loop bodies *)

Ltac unfold_helpers :=
  unfold addElementMove, addElementInsert, addElementDelete, addTextInsert,
    addTextDelete, mbind, result_bind, deref in *.

Ltac unfold_steps :=
  unfold compareStep, drainOldStep, drainCurrentStep in *; unfold_helpers.

(** Follows the evaluation order of a body whose run is described by a
    hypothesis [body st = Ok st']. *)
Ltac crunch1 :=
  match goal with
  | H : Ok _ = Ok _ |- _ => injection H as H; try subst
  | H : (_, _) = (_, _) |- _ => injection H as ??; try subst
  | H : TypeError = Ok _ |- _ => discriminate H
  | H : OutOfFuel = Ok _ |- _ => discriminate H
  | H : Ok _ = TypeError |- _ => discriminate H
  | H : OutOfFuel = TypeError |- _ => discriminate H
  | H : Ok _ = OutOfFuel |- _ => discriminate H
  | H : TypeError = OutOfFuel |- _ => discriminate H
  | H : true = false |- _ => discriminate H
  | H : false = true |- _ => discriminate H
  | H : ?x = Ok _ |- _ => is_var x; subst x
  | H : (match ?x with _ => _ end) = Ok _ |- _ =>
      tryif is_var x then fail else (destruct x eqn:?; cbv beta iota in H)
  | H : (match ?x with _ => _ end) = TypeError |- _ =>
      tryif is_var x then fail else (destruct x eqn:?; cbv beta iota in H)
  | H : (match ?x with _ => _ end) = OutOfFuel |- _ =>
      tryif is_var x then fail else (destruct x eqn:?; cbv beta iota in H)
  | H : (match ?x with _ => _ end) = (_, _) |- _ =>
      tryif is_var x then fail else (destruct x eqn:?; cbv beta iota in H)
  | H : (match ?x with _ => _ end) = Ok _ |- _ =>
      destruct x eqn:?; cbv beta iota in H
  | H : (match ?x with _ => _ end) = TypeError |- _ =>
      destruct x eqn:?; cbv beta iota in H
  | H : (match ?x with _ => _ end) = OutOfFuel |- _ =>
      destruct x eqn:?; cbv beta iota in H
  | H : (match ?x with _ => _ end) = (_, _) |- _ =>
      destruct x eqn:?; cbv beta iota in H
  end.
Ltac crunch := repeat crunch1.

(** Settles which of the nodes at hand are elements. *)
Ltac decide_elements :=
  repeat match goal with
  | H : context [isElement ?x] |- _ =>
      lazymatch goal with
      | _ : isElement x = _ |- _ => fail
      | _ => destruct (isElement x) eqn:?; simpl in *; try discriminate
      end
  end.

(** The bulk updates of the pending edits are kept folded. *)
Arguments finalizeNewEdits : simpl never.
Arguments fixupElementInsert : simpl never.
Arguments finalizeRemaining : simpl never.
Arguments withAfterID : simpl never.
Arguments withAfterIDOrFirstChild : simpl never.
Arguments textDeleteStart : simpl never.
Arguments textDeleteAnchored : simpl never.

(** The positioning helpers leave the type and the identity of an edit. *)
Lemma type_withAfterID a e : type (withAfterID a e) = type e.
Proof. unfold withAfterID. by destruct (truthy a). Qed.
Lemma type_withAfterIDOrFirstChild a e :
  type (withAfterIDOrFirstChild a e) = type e.
Proof. unfold withAfterIDOrFirstChild. by destruct (truthy a). Qed.
Lemma type_textDeleteAnchored p a e : type (textDeleteAnchored p a e) = type e.
Proof.
  unfold textDeleteAnchored. destruct (_ =? _)%nat; [done|].
  apply type_withAfterID.
Qed.
Lemma type_textDeleteStart prev :
  type (textDeleteStart prev) = textReplace
  \/ type (textDeleteStart prev) = textDelete.
Proof.
  unfold textDeleteStart. destruct prev as [p|]; [|by right].
  destruct (negb (isElement p)); [by left | by right].
Qed.

(** Decides the type of an edit built by the helpers. *)
Ltac solve_type :=
  rewrite ?type_textDeleteAnchored, ?type_withAfterID,
    ?type_withAfterIDOrFirstChild;
  simpl;
  try match goal with
      | |- context [textDeleteStart ?prev] =>
          destruct (type_textDeleteStart prev) as [-> | ->]
      end;
  try done; try discriminate.

(** ** Moves and the closing [rememberNodes] *)

Definition isMove (e : edit) : bool := bool_decide (type e = elementMove).

(** The identities of the [elementMove] edits of a list, in order. *)
Definition move_ids (es : list edit) : list jsid :=
  map ed_tagID (List.filter isMove es).

Lemma move_ids_app (a b : list edit) :
  move_ids (a ++ b) = move_ids a ++ move_ids b.
Proof. unfold move_ids. by rewrite List.filter_app, map_app. Qed.

Lemma move_ids_map (f : edit -> edit) (l : list edit) :
  (forall e, type (f e) = type e /\ ed_tagID (f e) = ed_tagID e) ->
  move_ids (map f l) = move_ids l.
Proof.
  intros Hf. unfold move_ids, isMove. induction l as [|e l IH]; simpl; [done|].
  destruct (Hf e) as [-> Hid]. destruct (bool_decide _); simpl; [|done].
  by rewrite Hid, IH.
Qed.

Lemma move_ids_singleton_move (e : edit) :
  type e = elementMove -> move_ids [e] = [ed_tagID e].
Proof. intros H. unfold move_ids, isMove. simpl. by rewrite bool_decide_eq_true_2. Qed.

Lemma move_ids_singleton_other (e : edit) :
  type e <> elementMove -> move_ids [e] = [].
Proof. intros H. unfold move_ids, isMove. simpl. by rewrite bool_decide_eq_false_2. Qed.

Section Invariants.

Variable oldNodeMap : gmap Z node.
Variable newNodeMap : gmap Z node.

Lemma move_ids_finalizeNewEdits (b : jsid) (st : state) :
  move_ids (edits (finalizeNewEdits b st))
  = move_ids (edits st ++ newEdits st).
Proof.
  unfold finalizeNewEdits. simpl. rewrite !move_ids_app. f_equal.
  apply move_ids_map. intros e. by destruct (bool_decide _).
Qed.

Lemma move_ids_fixupElementInsert (st : state) :
  move_ids (newEdits (fixupElementInsert st)) = move_ids (newEdits st).
Proof.
  unfold fixupElementInsert. simpl.
  apply move_ids_map. intros e. by destruct (bool_decide _).
Qed.

Lemma move_ids_finalizeRemaining (st : state) :
  move_ids (edits (finalizeRemaining st))
  = move_ids (edits st ++ newEdits st).
Proof.
  unfold finalizeRemaining. simpl. rewrite !move_ids_app. f_equal.
  apply move_ids_map. intros e. by destruct (_ || _).
Qed.

(** Inside [generateChildEdits]: [moves] lists the moves emitted so far. *)
Definition movesRecorded (st : state) : Prop :=
  moves st = move_ids (edits st ++ newEdits st).

Ltac solve_moves :=
  unfold movesRecorded in *; simpl in *;
  repeat (rewrite ?move_ids_app in *; simpl in *);
  rewrite ?move_ids_map
    by (intros ?; repeat (destruct (bool_decide _); simpl); done);
  rewrite ?move_ids_singleton_move by solve_type;
  rewrite ?move_ids_singleton_other by solve_type;
  simpl; rewrite ?app_nil_r, ?app_assoc in *;
  try congruence.

(** The edits waiting in [newEdits], as the helpers build them. *)
Inductive pendingEdit : edit -> Prop :=
| pending_move c p :
    isElement c = true -> is_Some (lookupID oldNodeMap (tagID c)) ->
    pendingEdit (elementMoveEdit c (num p))
| pending_insert c p bt :
    isElement c = true -> lookupID oldNodeMap (tagID c) = None ->
    pendingEdit (set_beforeText bt (elementInsertEdit c (num p)))
| pending_delete o :
    lookupID newNodeMap (tagID o) = None ->
    pendingEdit (elementDeleteEdit o)
| pending_textInsert c p a :
    isElement c = false ->
    pendingEdit
      (withAfterIDOrFirstChild a (textEdit textInsert (content c) (num p)))
| pending_textDelete prev p a :
    pendingEdit
      (textDeleteAnchored p a
         (set_parentID (num (p_tagID p)) (textDeleteStart prev)))
| pending_textReplace c p a :
    isElement c = false ->
    pendingEdit (withAfterID a (textEdit textReplace (content c) (num p))).

Definition isTrailingKind (e : edit) : bool :=
  bool_decide (type e = textInsert)
  || bool_decide (type e = elementInsert)
  || bool_decide (type e = elementMove).

(** The edits of the output list: pending edits after their fix-up, the
    attribute edits and the manufactured insert of a new root. *)
Inductive finalEdit : edit -> Prop :=
| final_before e b :
    pendingEdit e -> type e <> elementDelete ->
    finalEdit (set_beforeID (num b) e)
| final_delete e :
    pendingEdit e -> type e = elementDelete -> finalEdit e
| final_last e :
    pendingEdit e -> isTrailingKind e = true -> finalEdit (markLastChild e)
| final_trailing e :
    pendingEdit e -> isTrailingKind e = false -> finalEdit e
| final_attr t id k v :
    t = attrAdd \/ t = attrChange \/ t = attrDelete ->
    finalEdit (attrEdit t id k v)
| final_root r :
    lookupID oldNodeMap (tagID r) = None ->
    finalEdit (elementInsertEdit r null).

Lemma pendingEdit_fixup (l : list edit) :
  Forall pendingEdit l ->
  Forall pendingEdit
    (map (fun edit => if bool_decide (type edit = elementInsert)
                      then set_beforeText true edit else edit) l).
Proof.
  intros H. apply Forall_map. eapply Forall_impl; [exact H|].
  intros e He. simpl. case_bool_decide as Ht; [|done].
  destruct He; revert Ht; try solve [solve_type].
  intros _. by apply (pending_insert c p true).
Qed.

Lemma finalEdit_finalize (b : Z) (l : list edit) :
  Forall pendingEdit l ->
  Forall finalEdit
    (map (fun edit => if bool_decide (type edit <> elementDelete)
                      then set_beforeID (num b) edit else edit) l).
Proof.
  intros H. apply Forall_map. eapply Forall_impl; [exact H|].
  intros e He. simpl. case_bool_decide as Ht.
  - by apply final_before.
  - apply final_delete; [done|]. by destruct (decide (type e = elementDelete)).
Qed.

Lemma finalEdit_remaining (l : list edit) :
  Forall pendingEdit l ->
  Forall finalEdit
    (map (fun edit => if bool_decide (type edit = textInsert)
                         || bool_decide (type edit = elementInsert)
                         || bool_decide (type edit = elementMove)
                      then markLastChild edit else edit) l).
Proof.
  intros H. apply Forall_map. eapply Forall_impl; [exact H|].
  intros e He. simpl. fold (isTrailingKind e).
  destruct (isTrailingKind e) eqn:Hk.
  - by apply final_last.
  - by apply final_trailing.
Qed.

(** Inside [generateChildEdits]: [moves] lists the moves emitted so far, the
    pending edits and the output edits have the shapes above. *)
Definition childInv (st : state) : Prop :=
  movesRecorded st
  /\ Forall pendingEdit (newEdits st)
  /\ Forall finalEdit (edits st).

Lemma isElement_tagID (n : node) :
  isElement n = true -> exists i, tagID n = num i.
Proof. destruct n; [by eexists | done]. Qed.

Lemma not_Some_None {A} (o : option A) :
  negb (bool_decide (is_Some o)) = true -> o = None.
Proof.
  destruct o; [|done]. rewrite bool_decide_eq_true_2 by by eexists. done.
Qed.

Ltac solve_shapes :=
  repeat rewrite Forall_app; repeat rewrite Forall_singleton;
  repeat split; try assumption;
  try (apply pendingEdit_fixup; assumption);
  try (by (econstructor; eauto using not_Some_None));
  try (apply (pending_insert _ _ false); eauto using not_Some_None).

Lemma compareStep_childInv cp cc oc st st' :
  childInv st ->
  compareStep oldNodeMap newNodeMap cp cc oc st = Ok st' ->
  childInv st'.
Proof.
  intros (HM & HP & HF) H. unfold childInv. unfold_steps.
  crunch; decide_elements; (split; [solve_moves|]); simpl;
    try solve [solve_shapes].
  all: match goal with
       | H : isElement ?b = true |- context [tagID ?b] =>
           destruct (isElement_tagID b) as [i Hi]; [done|]; rewrite Hi
       end.
  all: rewrite Forall_app; split; [done|].
  all: split; [done|]; by apply finalEdit_finalize.
Qed.

Lemma drainOldStep_childInv cc oc st st' :
  childInv st ->
  drainOldStep newNodeMap cc oc st = Ok st' ->
  childInv st'.
Proof.
  intros (HM & HP & HF) H. unfold childInv. unfold_steps.
  crunch; decide_elements; (split; [solve_moves|]); simpl;
    solve [solve_shapes].
Qed.

Lemma drainCurrentStep_childInv cp cc st st' :
  childInv st ->
  drainCurrentStep oldNodeMap cp cc st = Ok st' ->
  childInv st'.
Proof.
  intros (HM & HP & HF) H. unfold childInv. unfold_steps.
  crunch; decide_elements; (split; [solve_moves|]); simpl;
    solve [solve_shapes].
Qed.

(** The three loops of [generateChildEdits], each with its own invariant. *)
Lemma childLoops_inv3 (I1 I2 I3 : state -> Prop) cp cc oc st st' :
  (forall s s', I1 s -> bothRemain cc oc s = true ->
     compareStep oldNodeMap newNodeMap cp cc oc s = Ok s' -> I1 s') ->
  (forall s, I1 s -> bothRemain cc oc s = false -> I2 s) ->
  (forall s s', I2 s -> oldRemain oc s = true ->
     drainOldStep newNodeMap cc oc s = Ok s' -> I2 s') ->
  (forall s, I2 s -> oldRemain oc s = false -> I3 s) ->
  (forall s s', I3 s -> currentRemain cc s = true ->
     drainCurrentStep oldNodeMap cp cc s = Ok s' -> I3 s') ->
  I1 st ->
  childLoops oldNodeMap newNodeMap cp cc oc st = Ok st' ->
  exists s, I3 s /\ currentRemain cc s = false /\ st' = finalizeRemaining s.
Proof.
  intros H1 H12 H2 H23 H3 HI Hrun. unfold childLoops in Hrun.
  unfold mbind, result_bind in Hrun.
  destruct (while _ (bothRemain cc oc) _ st) as [s1| |] eqn:E1;
    try discriminate.
  destruct (while _ (oldRemain oc) _ s1) as [s2| |] eqn:E2; try discriminate.
  destruct (while _ (currentRemain cc) _ s2) as [s3| |] eqn:E3;
    try discriminate.
  injection Hrun as <-.
  apply (while_inv I1) in E1 as [HI1 Hc1]; [|done..].
  apply (while_inv I2) in E2 as [HI2 Hc2]; [|auto..].
  apply (while_inv I3) in E3 as [HI3 Hc3]; [|auto..].
  by exists s3.
Qed.

(** ... and with one invariant for the three of them. *)
Lemma childLoops_inv (I : state -> Prop) cp cc oc st st' :
  (forall s s', I s -> bothRemain cc oc s = true ->
     compareStep oldNodeMap newNodeMap cp cc oc s = Ok s' -> I s') ->
  (forall s s', I s -> oldRemain oc s = true ->
     drainOldStep newNodeMap cc oc s = Ok s' -> I s') ->
  (forall s s', I s -> currentRemain cc s = true ->
     drainCurrentStep oldNodeMap cp cc s = Ok s' -> I s') ->
  I st ->
  childLoops oldNodeMap newNodeMap cp cc oc st = Ok st' ->
  exists s, I s /\ currentRemain cc s = false /\ st' = finalizeRemaining s.
Proof.
  intros H1 H2 H3. apply (childLoops_inv3 I I I); auto.
Qed.

(** Between two calls of [generateChildEdits]: the same, for the output. *)
Definition driverInv (st : state) : Prop :=
  moves st = move_ids (edits st) /\ Forall finalEdit (edits st).

Lemma generateChildEdits_driverInv cp op st st' :
  driverInv st ->
  generateChildEdits oldNodeMap newNodeMap cp op st = Ok st' ->
  driverInv st'.
Proof.
  intros [HM HF] H. unfold generateChildEdits in H.
  unfold mbind, result_bind in H.
  destruct (deref (children cp)) as [cc| |]; try discriminate.
  destruct (match op with Some o => _ | None => _ end) as [oc| |];
    try discriminate.
  apply (childLoops_inv childInv) in H as (s & (HM' & HP' & HF') & _ & ->).
  - split.
    + rewrite move_ids_finalizeRemaining. unfold finalizeRemaining. exact HM'.
    + unfold finalizeRemaining. simpl. apply Forall_app. split; [done|].
      by apply finalEdit_remaining.
  - intros s s' ? _. by apply compareStep_childInv.
  - intros s s' ? _. by apply drainOldStep_childInv.
  - intros s s' ? _. by apply drainCurrentStep_childInv.
  - unfold childInv, movesRecorded. simpl. rewrite app_nil_r. by split.
Qed.

Definition isAttrEdit (id : jsid) (e : edit) : Prop :=
  exists t k v, e = attrEdit t id k v
                /\ (t = attrAdd \/ t = attrChange \/ t = attrDelete).

Lemma forEach_attrNewStep_appends (id : jsid) (l : list string) :
  forall acc r,
    forEach (attrNewStep id) l acc = Ok r ->
    exists added, fst r = fst acc ++ added /\ Forall (isAttrEdit id) added.
Proof.
  induction l as [|k l IH]; intros [es s] r; cbn [forEach].
  - intros [= <-]. exists []. simpl. by rewrite app_nil_r.
  - unfold attrNewStep, mbind, result_bind.
    destruct (bool_decide _).
    + destruct (hasOwnProperty _ _) as [has| |]; try discriminate.
      intros Hrun. apply IH in Hrun as (added & -> & Hadded). simpl.
      eexists. rewrite <- app_assoc. split; [done|].
      apply Forall_cons. split; [|done]. eexists _, _, _. split; [done|].
      destruct has; auto.
    + intros Hrun. apply IH in Hrun as (added & -> & Hadded). by exists added.
Qed.

Lemma generateAttributeEdits_appends es oldNode newNode es' :
  generateAttributeEdits es oldNode newNode = Ok es' ->
  exists added, es' = es ++ added /\ Forall (isAttrEdit (tagID oldNode)) added.
Proof.
  unfold generateAttributeEdits, generateAttributeEdits_store, mbind,
    result_bind.
  destruct (deref (attributes newNode)) as [na| |]; try discriminate.
  destruct (forEach _ _ _) as [[es1 s1]| |] eqn:E; try discriminate.
  intros [= <-]. simpl. rewrite fold_attrOldStep.
  apply forEach_attrNewStep_appends in E as (added & Hes & Hadded).
  simpl in Hes. subst es1.
  eexists. rewrite <- app_assoc. split; [done|].
  apply Forall_app. split; [done|]. apply Forall_map, Forall_true.
  intros k. simpl. eexists _, _, _. split; [done|]. auto.
Qed.

(** The call returns when the new node has attributes and the old ones no
    name [hasOwnProperty]. *)
Lemma generateAttributeEdits_total es oldNode newNode :
  is_Some (attributes newNode) ->
  attr_get "hasOwnProperty" (default [] (attributes oldNode)) = None ->
  exists es', generateAttributeEdits es oldNode newNode = Ok es'.
Proof.
  intros [na Hna] Hplain. unfold generateAttributeEdits. rewrite Hna. simpl.
  destruct (generateAttributeEdits_store_plain es (tagID oldNode) _ na Hplain)
    as [r ->].
  simpl. by eexists.
Qed.

Lemma move_ids_attr (id : jsid) (l : list edit) :
  Forall (isAttrEdit id) l -> move_ids l = [].
Proof.
  induction 1 as [|e l (t & k & v & He & Ht) _ IH]; [done|].
  change (e :: l) with ([e] ++ l). rewrite move_ids_app, IH.
  rewrite move_ids_singleton_other; [done|].
  rewrite He. simpl. destruct Ht as [->|[->| ->]]; done.
Qed.

Lemma moves_fold_queuePush (cs : list node) (st : state) :
  moves (fold_left (queuePush oldNodeMap) cs st) = moves st
  /\ edits (fold_left (queuePush oldNodeMap) cs st) = edits st.
Proof.
  revert st. induction cs as [|c cs IH]; intros st; simpl; [done|].
  destruct (IH (queuePush oldNodeMap st c)) as [-> ->].
  unfold queuePush. by destruct (_ && _).
Qed.

Lemma driverStep_driverInv st st' :
  driverInv st ->
  driverStep oldNodeMap newNodeMap st = Ok st' ->
  driverInv st'.
Proof.
  intros HI H. unfold driverStep in H. unfold mbind, result_bind in H.
  destruct (deref (pop (queue st))) as [[currentElement rest]| |];
    try discriminate.
  destruct (lookupID oldNodeMap (tagID currentElement)) as [oldElement|] eqn:E.
  - match type of H with
    | match ?x with _ => _ end = _ =>
        destruct x as [s1| |] eqn:E1; try discriminate
    end.
    assert (HI1 : driverInv s1).
    { destruct (bool_decide _) in E1.
      - destruct (generateAttributeEdits _ _ _) as [es| |] eqn:Ea;
          try discriminate.
        injection E1 as <-.
        apply generateAttributeEdits_appends in Ea as (added & -> & Hadded).
        destruct HI as [HM HF]. split; simpl in *.
        + by rewrite move_ids_app, (move_ids_attr _ _ Hadded), app_nil_r.
        + apply Forall_app. split; [done|].
          eapply Forall_impl; [exact Hadded|].
          intros e (t & k & v & -> & Ht). by apply final_attr.
      - by injection E1 as <-. }
    match type of H with
    | match ?x with _ => _ end = _ =>
        destruct x as [s2| |] eqn:E2; try discriminate
    end.
    assert (HI2 : driverInv s2).
    { destruct (bool_decide _) in E2.
      - by eapply generateChildEdits_driverInv.
      - by injection E2 as <-. }
    destruct (bool_decide _) in H.
    + destruct (deref (children currentElement)) as [cs| |];
        try discriminate.
      injection H as <-. destruct HI2 as [HM HF].
      destruct (moves_fold_queuePush cs s2) as [Hm He].
      unfold driverInv. by rewrite Hm, He.
    + by injection H as <-.
  - eapply generateChildEdits_driverInv; [|exact H].
    destruct HI as [HM HF].
    destruct (parent currentElement); [by split|]. split; simpl.
    + rewrite move_ids_app, move_ids_singleton_other by done.
      by rewrite app_nil_r.
    + apply Forall_app. split; [done|]. apply Forall_singleton.
      by apply final_root.
Qed.

(** *** Termination and absence of [TypeError] *)

Definition hasParent (n : node) : Prop := is_Some (parent n).

Lemma elementNode_children n cs :
  elementNode n -> children n = Some cs ->
  Forall hasParent cs /\ Forall (fun c => isElement c = true -> elementNode c) cs.
Proof.
  intros [He Hp] Hcs. destruct n; [|done]. simpl in *. injection Hcs as ->.
  rewrite forallb_forall in Hp. split; apply Forall_forall; intros c Hc.
  - apply list_elem_of_In, Hp, andb_true_iff in Hc as [Hc _].
    by apply bool_decide_eq_true in Hc.
  - intros Hel. split; [done|].
    by apply list_elem_of_In, Hp, andb_true_iff in Hc as [_ Hc].
Qed.

(** What is left of the two child lists. *)
Definition remaining (cc oc : list node) (st : state) : nat :=
  (length cc - currentIndex st) + (length oc - oldIndex st).

Ltac index_facts :=
  unfold bothRemain, oldRemain, currentRemain, remaining in *;
  repeat match goal with
  | H : _ && _ = true |- _ => apply andb_true_iff in H as [? ?]
  | H : (_ <? _)%nat = true |- _ => apply Nat.ltb_lt in H
  | H : (_ <? _)%nat = false |- _ => apply Nat.ltb_ge in H
  | H : ?l !! _ = None |- _ => apply lookup_ge_None in H
  | H : ?l !! _ = Some _ |- _ => apply lookup_lt_Some in H
  end.

Ltac no_parent_contra :=
  match goal with
  | H : Forall hasParent ?l, H1 : ?l !! _ = Some ?c, H2 : parent ?c = None
    |- _ =>
      let Hc := fresh in
      pose proof (proj1 (Forall_lookup _ _) H _ _ H1) as Hc;
      unfold hasParent in Hc; rewrite H2 in Hc; by destruct Hc
  end.

Lemma compareStep_progress cp cc oc st :
  Forall hasParent cc -> Forall hasParent oc ->
  bothRemain cc oc st = true ->
  exists st', compareStep oldNodeMap newNodeMap cp cc oc st = Ok st'
              /\ (remaining cc oc st' < remaining cc oc st)%nat.
Proof.
  intros Hcc Hoc Hc.
  destruct (compareStep oldNodeMap newNodeMap cp cc oc st) as [st'| |] eqn:H.
  - exists st'. split; [done|]. unfold_steps.
    crunch; index_facts; simpl; lia.
  - exfalso. unfold_steps.
    crunch; try no_parent_contra; index_facts; simpl in *; lia.
  - exfalso. unfold_steps. crunch.
Qed.

Lemma drainOldStep_progress cc oc st :
  Forall hasParent oc ->
  oldRemain oc st = true ->
  exists st', drainOldStep newNodeMap cc oc st = Ok st'
              /\ (remaining cc oc st' < remaining cc oc st)%nat.
Proof.
  intros Hoc Hc.
  destruct (drainOldStep newNodeMap cc oc st) as [st'| |] eqn:H.
  - exists st'. split; [done|]. unfold_steps.
    crunch; index_facts; simpl; lia.
  - exfalso. unfold_steps.
    crunch; try no_parent_contra; index_facts; simpl in *; lia.
  - exfalso. unfold_steps. crunch.
Qed.

Lemma drainCurrentStep_progress cp cc oc st :
  Forall hasParent cc ->
  currentRemain cc st = true ->
  exists st', drainCurrentStep oldNodeMap cp cc st = Ok st'
              /\ (remaining cc oc st' < remaining cc oc st)%nat.
Proof.
  intros Hcc Hc.
  destruct (drainCurrentStep oldNodeMap cp cc st) as [st'| |] eqn:H.
  - exists st'. split; [done|]. unfold_steps.
    crunch; index_facts; simpl; lia.
  - exfalso. unfold_steps.
    crunch; try no_parent_contra; index_facts; simpl in *; lia.
  - exfalso. unfold_steps. crunch.
Qed.

Lemma childLoops_total cp cc oc st :
  Forall hasParent cc -> Forall hasParent oc ->
  (remaining cc oc st <= length cc + length oc)%nat ->
  exists st', childLoops oldNodeMap newNodeMap cp cc oc st = Ok st'.
Proof.
  intros Hcc Hoc Hm. unfold childLoops, mbind, result_bind.
  destruct (while_total (fun _ => True) (remaining cc oc) (bothRemain cc oc)
              (compareStep oldNodeMap newNodeMap cp cc oc)) with
    (fuel := S (length cc + length oc)) (st := st)
    as (s1 & -> & _ & _ & Hm1); [|done|lia|].
  { intros s _ Hc.
    destruct (compareStep_progress cp cc oc s Hcc Hoc Hc) as (s' & ? & ?).
    by exists s'. }
  cbv beta iota.
  destruct (while_total (fun _ => True) (remaining cc oc) (oldRemain oc)
              (drainOldStep newNodeMap cc oc)) with
    (fuel := S (length cc + length oc)) (st := s1)
    as (s2 & -> & _ & _ & Hm2); [|done|lia|].
  { intros s _ Hc.
    destruct (drainOldStep_progress cc oc s Hoc Hc) as (s' & ? & ?).
    by exists s'. }
  cbv beta iota.
  destruct (while_total (fun _ => True) (remaining cc oc) (currentRemain cc)
              (drainCurrentStep oldNodeMap cp cc)) with
    (fuel := S (length cc + length oc)) (st := s2)
    as (s3 & -> & _ & _ & Hm3); [|done|lia|].
  { intros s _ Hc.
    destruct (drainCurrentStep_progress cp cc oc s Hcc Hc) as (s' & ? & ?).
    by exists s'. }
  cbv beta iota.
  simpl. by eexists.
Qed.

(** *** What [generateChildEdits] adds to the queue *)

(** A new child element: one whose identity the old [nodeMap] lacks. *)
Definition freshElement (c : node) : Prop :=
  isElement c = true /\ lookupID oldNodeMap (tagID c) = None.

(** A child element that [queuePush] enqueues. *)
Definition matchedElement (c : node) : Prop :=
  isElement c = true /\ is_Some (lookupID oldNodeMap (tagID c)).

#[global] Instance freshElement_dec c : Decision (freshElement c).
Proof. unfold freshElement. apply _. Defined.

#[global] Instance matchedElement_dec c : Decision (matchedElement c).
Proof. unfold matchedElement. apply _. Defined.

(** The queue grows by new child elements among those already visited. *)
Definition queueInv (q0 cc : list node) (st : state) : Prop :=
  exists pushed,
    queue st = q0 ++ pushed
    /\ sublist pushed (filter freshElement (take (currentIndex st) cc)).

Ltac solve_queue :=
  match goal with
  | HI : queueInv ?q0 ?cc _ |- _ =>
      let pushed := fresh "pushed" in
      let Hq := fresh "Hq" in
      let Hs := fresh "Hs" in
      destruct HI as (pushed & Hq & Hs); unfold queueInv; simpl;
      first
        [ by (exists pushed)
        | by (exists pushed; split; [done|];
              erewrite take_S_r by eassumption;
              rewrite filter_app; apply sublist_inserts_r)
        | match goal with
          | Hc : cc !! _ = Some ?c |- _ =>
              exists (pushed ++ [c]); split;
              [ by rewrite Hq, app_assoc
              | erewrite take_S_r by eassumption;
                rewrite filter_app, (filter_cons_True _ c [])
                  by (split; eauto using not_Some_None);
                by apply sublist_app ]
          end ]
  end.

Lemma compareStep_queueInv q0 cp cc oc st st' :
  queueInv q0 cc st ->
  compareStep oldNodeMap newNodeMap cp cc oc st = Ok st' ->
  queueInv q0 cc st'.
Proof. intros HI H. unfold_steps. crunch; decide_elements; solve_queue. Qed.

Lemma drainOldStep_queueInv q0 cc oc st st' :
  queueInv q0 cc st ->
  drainOldStep newNodeMap cc oc st = Ok st' ->
  queueInv q0 cc st'.
Proof. intros HI H. unfold_steps. crunch; decide_elements; solve_queue. Qed.

Lemma drainCurrentStep_queueInv q0 cp cc st st' :
  queueInv q0 cc st ->
  drainCurrentStep oldNodeMap cp cc st = Ok st' ->
  queueInv q0 cc st'.
Proof. intros HI H. unfold_steps. crunch; decide_elements; solve_queue. Qed.

Lemma generateChildEdits_queue cp op cs st st' :
  children cp = Some cs ->
  generateChildEdits oldNodeMap newNodeMap cp op st = Ok st' ->
  exists pushed,
    queue st' = queue st ++ pushed
    /\ sublist pushed (filter freshElement cs).
Proof.
  intros Hcs H. unfold generateChildEdits in H.
  unfold mbind, result_bind in H. rewrite Hcs in H. simpl in H.
  destruct (match op with Some o => _ | None => _ end) as [oc| |];
    try discriminate.
  apply (childLoops_inv (queueInv (queue st) cs)) in H
    as (s & (pushed & Hq & Hs) & Hc & ->).
  - exists pushed. split; [done|]. index_facts.
    by rewrite take_ge in Hs.
  - intros s s' ? _. by apply compareStep_queueInv.
  - intros s s' ? _. by apply drainOldStep_queueInv.
  - intros s s' ? _. by apply drainCurrentStep_queueInv.
  - exists []. simpl. rewrite app_nil_r. split; [done|]. apply sublist_nil_l.
Qed.

Lemma generateChildEdits_total cp op st :
  elementNode cp ->
  (forall o, op = Some o -> elementNode o) ->
  exists st', generateChildEdits oldNodeMap newNodeMap cp op st = Ok st'.
Proof.
  intros Hcp Hop. unfold generateChildEdits, mbind, result_bind.
  destruct cp as [i t a p s1 s2 s3 cs|]; [|by destruct Hcp]. simpl.
  destruct (elementNode_children _ cs Hcp eq_refl) as [Hcc _].
  destruct op as [o|].
  - specialize (Hop o eq_refl).
    destruct o as [i' t' a' p' s1' s2' s3' oc|]; [|by destruct Hop]. simpl.
    destruct (elementNode_children _ oc Hop eq_refl) as [Hoc _].
    apply childLoops_total; [done..|]. unfold remaining. simpl. lia.
  - simpl. apply childLoops_total; [done..|]. unfold remaining. simpl. lia.
Qed.

(** *** The driver loop *)

Definition queueSize (q : list node) : nat := list_sum (map node_size q).

Lemma queueSize_app (a b : list node) :
  queueSize (a ++ b) = (queueSize a + queueSize b)%nat.
Proof. unfold queueSize. by rewrite map_app, list_sum_app. Qed.

Lemma node_size_pos (n : node) : (1 <= node_size n)%nat.
Proof. destruct n; simpl; lia. Qed.

Lemma sublist_Forall {A} (P : A -> Prop) (l1 l2 : list A) :
  sublist l1 l2 -> Forall P l2 -> Forall P l1.
Proof.
  induction 1 as [|x l1 l2 _ IH|x l1 l2 _ IH]; intros HP; [done|..].
  - apply Forall_cons in HP as [? ?]. apply Forall_cons. auto.
  - apply Forall_cons in HP as [? ?]. auto.
Qed.

Lemma sublist_queueSize (l1 l2 : list node) :
  sublist l1 l2 -> (queueSize l1 <= queueSize l2)%nat.
Proof. induction 1; unfold queueSize in *; simpl; lia. Qed.

Lemma queueSize_cons (c : node) (l : list node) :
  queueSize (c :: l) = (node_size c + queueSize l)%nat.
Proof. reflexivity. Qed.

Lemma fresh_matched_queueSize (cs : list node) :
  (queueSize (filter freshElement cs) + queueSize (filter matchedElement cs)
   <= queueSize cs)%nat.
Proof.
  induction cs as [|c cs IH]; [done|].
  rewrite !filter_cons.
  destruct (decide (freshElement c)) as [[_ Hf]|_],
           (decide (matchedElement c)) as [[_ Hm]|_];
    rewrite ?queueSize_cons; try lia.
  rewrite Hf in Hm. by destruct Hm.
Qed.

Lemma fold_queuePush_queue (cs : list node) (st : state) :
  queue (fold_left (queuePush oldNodeMap) cs st)
  = queue st ++ filter matchedElement cs.
Proof.
  revert st. induction cs as [|c cs IH]; intros st; simpl.
  - by rewrite app_nil_r.
  - rewrite IH, filter_cons. unfold queuePush.
    destruct (decide (matchedElement c)) as [[He Hm]|Hn].
    + rewrite He, bool_decide_eq_true_2 by done. simpl.
      by rewrite <- app_assoc.
    + destruct (isElement c) eqn:He; simpl; [|done].
      case_bool_decide; [|done]. exfalso. by apply Hn.
Qed.

Lemma pop_snoc (q : list node) (n : node) : pop (q ++ [n]) = Some (n, q).
Proof. unfold pop. by rewrite last_snoc, removelast_last. Qed.

Lemma attributes_elementNode n : elementNode n -> is_Some (attributes n).
Proof. intros [He _]. destruct n; [by eexists | done]. Qed.

Lemma driverStep_total st :
  map_Forall (fun _ n => elementNode n) oldNodeMap ->
  map_Forall (fun _ n => plainAttributes n) oldNodeMap ->
  Forall elementNode (queue st) ->
  queue st <> [] ->
  exists st', driverStep oldNodeMap newNodeMap st = Ok st'
              /\ Forall elementNode (queue st')
              /\ (queueSize (queue st') < queueSize (queue st))%nat.
Proof.
  intros Hold Hplain Hq Hne.
  destruct (exists_last Hne) as (q' & x & Eq). clear Hne.
  rewrite Eq in Hq.
  apply Forall_app in Hq as [Hrest Hn]. rewrite Forall_singleton in Hn.
  unfold driverStep. rewrite Eq, pop_snoc. simpl.
  destruct x as [i t a p s1 s2 s3 cs|]; [|by destruct Hn].
  destruct (elementNode_children _ cs Hn eq_refl) as [Hcc Hsub].
  rewrite queueSize_app. unfold queueSize at 3. simpl list_sum.
  fold (queueSize cs).
  assert (Hfresh : forall pushed,
             sublist pushed (filter freshElement cs) ->
             Forall elementNode pushed).
  { intros pushed Hs. eapply sublist_Forall; [exact Hs|].
    apply Forall_forall. intros c Hc.
    apply list_elem_of_filter in Hc as [[He _] Hc].
    by apply (proj1 (Forall_forall _ _) Hsub). }
  assert (Hmatched : Forall elementNode (filter matchedElement cs)).
  { apply Forall_forall. intros c Hc.
    apply list_elem_of_filter in Hc as [[He _] Hc].
    by apply (proj1 (Forall_forall _ _) Hsub). }
  pose proof (fresh_matched_queueSize cs) as Hsize.
  simpl lookupID.
  destruct (oldNodeMap !! i) as [oldElement|] eqn:Eold.
  - pose proof (Hold i oldElement Eold) as Holde.
    unfold mbind, result_bind.
    match goal with
    | |- exists st', match ?X with _ => _ end = _ /\ _ =>
        assert (H1 : exists s1', X = Ok s1' /\ queue s1' = q')
    end.
    { destruct (bool_decide _); [|by eexists].
      match goal with
      | |- context [generateAttributeEdits ?es ?o ?n] =>
          destruct (generateAttributeEdits_total es o n) as [es' ->]
      end.
      - by apply attributes_elementNode.
      - exact (Hplain i oldElement Eold).
      - simpl. by eexists. }
    destruct H1 as (s1' & -> & Hq1).
    match goal with
    | |- exists st', match ?X with _ => _ end = _ /\ _ =>
        assert (H2 : exists s2' pushed,
                   X = Ok s2' /\ queue s2' = q' ++ pushed
                   /\ sublist pushed (filter freshElement cs))
    end.
    { destruct (bool_decide _).
      - destruct (generateChildEdits_total (Element i t a p s1 s2 s3 cs)
                    (Some oldElement) s1' Hn) as [s2' Hrun].
        { by intros o [= <-]. }
        destruct (generateChildEdits_queue
                    (Element i t a p s1 s2 s3 cs) _ cs _ _ eq_refl Hrun)
          as (pushed & Hq2 & Hs).
        exists s2', pushed. by rewrite Hq2, Hq1.
      - exists s1', []. rewrite app_nil_r. repeat split; [done|].
        apply sublist_nil_l. }
    destruct H2 as (s2' & pushed & -> & Hq2 & Hs).
    pose proof (sublist_queueSize _ _ Hs) as Hps.
    destruct (bool_decide _); simpl.
    + eexists. split; [done|]. rewrite fold_queuePush_queue, Hq2. split.
      * rewrite !Forall_app. eauto.
      * rewrite !queueSize_app. lia.
    + eexists. split; [done|]. rewrite Hq2. split.
      * rewrite Forall_app. eauto.
      * rewrite queueSize_app. lia.
  - match goal with
    | |- context [generateChildEdits _ _ _ None ?X] => set (st0 := X)
    end.
    assert (Hq0 : queue st0 = q') by (subst st0; by destruct p).
    destruct (generateChildEdits_total (Element i t a p s1 s2 s3 cs)
                None st0 Hn) as [st' Hrun]; [done|].
    destruct (generateChildEdits_queue
                    (Element i t a p s1 s2 s3 cs) _ cs _ _ eq_refl Hrun)
      as (pushed & Hq2 & Hs).
    exists st'. split; [done|]. rewrite Hq2, Hq0.
    pose proof (sublist_queueSize _ _ Hs) as Hps. split.
    + rewrite Forall_app. eauto.
    + rewrite queueSize_app. lia.
Qed.

Lemma driver_total fuel st :
  map_Forall (fun _ n => elementNode n) oldNodeMap ->
  map_Forall (fun _ n => plainAttributes n) oldNodeMap ->
  Forall elementNode (queue st) ->
  queue st <> [] ->
  (queueSize (queue st) <= fuel)%nat ->
  exists st', do_while fuel (driverStep oldNodeMap newNodeMap)
                queueNonEmpty st = Ok st'.
Proof.
  intros Hold Hplain. revert st.
  induction fuel as [|fuel IH]; intros st Hq Hne Hsize.
  - destruct (queue st) as [|n q]; [done|].
    pose proof (node_size_pos n). unfold queueSize in Hsize. simpl in *. lia.
  - simpl.
    destruct (driverStep_total st Hold Hplain Hq Hne) as (s1 & -> & Hq1 & Hlt).
    simpl. destruct (queueNonEmpty s1) eqn:Hc; [|by eexists].
    apply IH; [done| |lia].
    unfold queueNonEmpty in Hc. intros E. by rewrite E in Hc.
Qed.

End Invariants.

(** ** The whole run *)

Lemma domdiff_run_total (oldNode : option dom) (newNode : dom) :
  wellShaped oldNode newNode ->
  plainSnapshot oldNode ->
  exists st, domdiff_run oldNode newNode = Ok st.
Proof.
  intros [Hroot Hold] Hplain. unfold domdiff_run.
  apply driver_total; simpl; [done|done| by apply Forall_singleton |done|].
  unfold queueSize. simpl. lia.
Qed.

Lemma domdiff_run_driverInv (oldNode : option dom) (newNode : dom) st :
  domdiff_run oldNode newNode = Ok st ->
  driverInv (oldNodeMapOf oldNode) (nodeMap newNode) st /\ queue st = [].
Proof.
  intros Hrun. unfold domdiff_run in Hrun.
  apply (do_while_inv
           (driverInv (oldNodeMapOf oldNode) (nodeMap newNode))) in Hrun
    as [HI Hc].
  - split; [done|]. unfold queueNonEmpty in Hc. by destruct (queue st).
  - intros s s'. apply driverStep_driverInv.
  - by split.
Qed.

(** The shape of the edits forbids the types the aligner never builds. *)
Lemma pendingEdit_type om nm e :
  pendingEdit om nm e ->
  type e = elementMove \/ type e = elementInsert \/ type e = elementDelete
  \/ type e = textInsert \/ type e = textDelete \/ type e = textReplace.
Proof.
  destruct 1; rewrite ?type_textDeleteAnchored, ?type_withAfterID,
    ?type_withAfterIDOrFirstChild; simpl; auto 10.
  destruct (type_textDeleteStart prev) as [-> | ->]; auto 10.
Qed.

Lemma finalEdit_not_rememberNodes om nm e :
  finalEdit om nm e -> type e <> rememberNodes.
Proof.
  destruct 1 as [e b He _|e He _|e He _|e He _|t id k v Ht|r _]; simpl;
    try (apply pendingEdit_type in He; intuition congruence).
  - destruct Ht as [->|[->| ->]]; done.
  - done.
Qed.

Lemma move_ids_nil_iff (es : list edit) :
  move_ids es = [] <-> Forall (fun e => type e <> elementMove) es.
Proof.
  unfold move_ids, isMove. induction es as [|e es IH]; simpl.
  - split; [constructor | done].
  - rewrite Forall_cons. case_bool_decide as He; simpl.
    + split; [done | intros [? _]; done].
    + rewrite IH. tauto.
Qed.

(** C3. Whenever [domdiff] returns, the returned sequence holds a
    [rememberNodes] edit exactly when it holds an [elementMove] edit; a
    [rememberNodes] edit of the sequence is its first element, no later
    element is one, and its [tagIDs] are the identities of the [elementMove]
    edits of the sequence, in their order. *)
Theorem domdiff_rememberNodes (oldNode : option dom) (newNode : dom)
    (es : list edit) :
  domdiff oldNode newNode = Ok es ->
  ((exists e, e ∈ es /\ type e = elementMove)
   <-> (exists e, e ∈ es /\ type e = rememberNodes))
  /\ (forall e, e ∈ es -> type e = rememberNodes ->
        exists rest,
          es = e :: rest
          /\ tagIDs e = Some (move_ids es)
          /\ Forall (fun e' => type e' <> rememberNodes) rest).
Proof.
  unfold domdiff, mbind, result_bind.
  destruct (domdiff_run oldNode newNode) as [st| |] eqn:Hrun;
    try discriminate.
  intros [= <-].
  apply domdiff_run_driverInv in Hrun as [[HM HF] _].
  assert (Hnr : Forall (fun e' => type e' <> rememberNodes) (edits st)).
  { eapply Forall_impl; [exact HF|]. intros e.
    apply finalEdit_not_rememberNodes. }
  unfold withRememberNodes. destruct (moves st) as [|m ms] eqn:Em; simpl.
  - symmetry in HM. apply move_ids_nil_iff in HM. split; [split|].
    + intros (e & He & Ht). exfalso.
      by apply (proj1 (Forall_forall _ _) HM e He).
    + intros (e & He & Ht). exfalso.
      by apply (proj1 (Forall_forall _ _) Hnr e He).
    + intros e He Ht. exfalso.
      by apply (proj1 (Forall_forall _ _) Hnr e He).
  - assert (Hmoved : exists e, e ∈ edits st /\ type e = elementMove).
    { destruct (decide (Forall (fun e => type e <> elementMove) (edits st)))
        as [Hall|Hex].
      - apply move_ids_nil_iff in Hall. congruence.
      - apply not_Forall_Exists in Hex; [|apply _].
        apply Exists_exists in Hex as (e & He & Ht).
        exists e. split; [done|].
        by destruct (decide (type e = elementMove)). }
    split; [split|].
    + intros _. eexists. split; [left|]. done.
    + intros _. destruct Hmoved as (e & He & Ht).
      exists e. split; [by right | done].
    + intros e He Ht. apply elem_of_cons in He as [->|He].
      * eexists. split; [done|]. split; [|done]. simpl.
        change (rememberNodesEdit (m :: ms) :: edits st)
          with ([rememberNodesEdit (m :: ms)] ++ edits st).
        rewrite move_ids_app, move_ids_singleton_other by done.
        simpl. by rewrite <- HM.
      * exfalso. by apply (proj1 (Forall_forall _ _) Hnr e He).
Qed.

#[global] Instance wellShaped_dec oldNode newNode :
  Decision (wellShaped oldNode newNode).
Proof. unfold wellShaped. apply _. Defined.

(** ** Example snapshots *)

Module Examples.

(** Element 7 sits under element 1 in the old tree and under element 2 in the
    new tree; nothing else changes. *)
Definition moved_old_p : node :=
  Element 7 "p" [] (Some (mkParent 1 1)) 70 71 72 [].
Definition moved_new_p : node :=
  Element 7 "p" [] (Some (mkParent 2 1)) 70 71 72 [].
Definition moved_old_div1 : node :=
  Element 1 "div" [] (Some (mkParent 10 2)) 10 11 12 [moved_old_p].
Definition moved_new_div1 : node :=
  Element 1 "div" [] (Some (mkParent 10 2)) 10 13 14 [].
Definition moved_old_div2 : node :=
  Element 2 "div" [] (Some (mkParent 10 2)) 20 21 22 [].
Definition moved_new_div2 : node :=
  Element 2 "div" [] (Some (mkParent 10 2)) 20 23 24 [moved_new_p].
Definition moved_old_root : node :=
  Element 10 "body" [] None 100 101 102 [moved_old_div1; moved_old_div2].
Definition moved_new_root : node :=
  Element 10 "body" [] None 100 101 103 [moved_new_div1; moved_new_div2].
Definition moved_old : dom :=
  mkDom moved_old_root
    (list_to_map [(10, moved_old_root); (1, moved_old_div1);
                  (2, moved_old_div2); (7, moved_old_p)]).
Definition moved_new : dom :=
  mkDom moved_new_root
    (list_to_map [(10, moved_new_root); (1, moved_new_div1);
                  (2, moved_new_div2); (7, moved_new_p)]).

End Examples.

Lemma domdiff_rememberNodes_witness :
  exists es,
    domdiff (Some Examples.moved_old) Examples.moved_new = Ok es
    /\ (exists e, e ∈ es /\ type e = rememberNodes).
Proof.
  destruct (domdiff (Some Examples.moved_old) Examples.moved_new)
    as [es| |] eqn:Hrun; [|vm_compute in Hrun; discriminate Hrun..].
  exists es. split; [reflexivity|].
  apply (domdiff_rememberNodes (Some Examples.moved_old) Examples.moved_new
           es Hrun).
  vm_compute in Hrun. injection Hrun as <-.
  eexists. split; [right; left|]. reflexivity.
Defined.

(** ** Alignment anomalies and totality *)

Lemma compareStep_anomaly om nm cp cc oc st c o pm :
  cc !! currentIndex st = Some c ->
  oc !! oldIndex st = Some o ->
  isElement c = true ->
  isElement o = true ->
  lookupID om (tagID c) = Some pm ->
  tagID cp = getParentID pm ->
  hasMoved nm o = false ->
  tagID c <> tagID o ->
  is_Some (lookupID nm (tagID o)) ->
  compareStep om nm cp cc oc st
  = Ok (incr_oldIndex
          (incr_currentIndex
             (set_console (console st ++ [msg_reordering]) st))).
Proof.
  intros Hc Ho Hec Heo Hpm Hsame Hmv Hne Hnew.
  unfold compareStep, addElementMove, addElementInsert, addElementDelete.
  rewrite Hc. simpl. rewrite Hec, Hpm.
  rewrite (bool_decide_eq_false_2 (tagID cp <> _)) by (intros H; by apply H).
  simpl. rewrite Ho. simpl. rewrite Hmv, Heo. simpl.
  rewrite (bool_decide_eq_true_2 (tagID c <> _)) by done.
  simpl. by rewrite (bool_decide_eq_true_2 _ Hnew).
Qed.

Lemma drainOldStep_anomaly nm cc oc st o :
  oc !! oldIndex st = Some o ->
  isElement o = true ->
  hasMoved nm o = false ->
  is_Some (lookupID nm (tagID o)) ->
  drainOldStep nm cc oc st
  = Ok (incr_oldIndex (set_console (console st ++ [msg_failed_delete]) st)).
Proof.
  intros Ho Heo Hmv Hnew. unfold drainOldStep, addElementDelete.
  rewrite Ho. simpl. rewrite Hmv, Heo.
  by rewrite (bool_decide_eq_true_2 _ Hnew).
Qed.

Module ReorderExample.

(** Two sibling elements swap places: identities 2 and 3 under element 1. *)
Definition a : node := Element 2 "a" [] (Some (mkParent 1 2)) 20 21 22 [].
Definition b : node := Element 3 "b" [] (Some (mkParent 1 2)) 30 31 32 [].
Definition old_root : node := Element 1 "div" [] None 10 23 123 [a; b].
Definition new_root : node := Element 1 "div" [] None 10 32 132 [b; a].
Definition old : dom :=
  mkDom old_root (list_to_map [(1, old_root); (2, a); (3, b)]).
Definition new : dom :=
  mkDom new_root (list_to_map [(1, new_root); (2, a); (3, b)]).

End ReorderExample.

(** ** The fields of a [textInsert] *)

(** The positioning of a [textInsert] in the output: either the trailing form
    ([lastChild], with [firstChild] and [afterID] deleted), or the form fixed
    before a surviving element ([beforeID]) with exactly one of [afterID] and
    [firstChild]. *)
Definition textInsertAnchors (e : edit) : Prop :=
  (lastChild e = true /\ afterID e = undefined /\ firstChild e = false
   /\ beforeID e = undefined)
  \/ (lastChild e = false /\ (exists b, beforeID e = num b)
      /\ ((exists a, afterID e = num a /\ firstChild e = false)
          \/ (afterID e = undefined /\ firstChild e = true))).

Lemma content_text (c : node) : isElement c = false -> is_Some (content c).
Proof. destruct c; [done | by eexists]. Qed.

Lemma truthy_num (a : jsid) : truthy a = true -> exists z, a = num z.
Proof. destruct a; [done..|by eexists]. Qed.

Lemma finalEdit_textInsert om nm e :
  finalEdit om nm e ->
  type e = textInsert ->
  is_Some (ed_content e) /\ (exists p, parentID e = num p)
  /\ textInsertAnchors e.
Proof.
  assert (Hpend : forall e0, pendingEdit om nm e0 -> type e0 = textInsert ->
            is_Some (ed_content e0) /\ (exists p, parentID e0 = num p)
            /\ lastChild e0 = false /\ beforeID e0 = undefined
            /\ ((exists a, afterID e0 = num a /\ firstChild e0 = false)
                \/ (afterID e0 = undefined /\ firstChild e0 = true))).
  { intros e0 He0. destruct He0; try solve [solve_type].
    intros _. unfold withAfterIDOrFirstChild.
    destruct (truthy a) eqn:Ha; simpl.
    - destruct (truthy_num a Ha) as [z ->].
      repeat split; eauto using content_text.
    - repeat split; eauto using content_text. }
  unfold textInsertAnchors.
  destruct 1 as [e b He _|e He Hd|e He _|e He Hk|t id k v Ht|r _];
    simpl; intros Hty.
  - destruct (Hpend e He Hty) as (? & ? & ? & ? & ?). eauto 10.
  - congruence.
  - destruct (Hpend e He Hty) as (? & ? & ? & ? & ?). eauto 10.
  - unfold isTrailingKind in Hk. rewrite Hty in Hk. done.
  - destruct Ht as [->|[->| ->]]; done.
  - done.
Qed.

(** C10 (amended). Whenever [domdiff] returns, every [textInsert] of the
    returned sequence carries [content] and [parentID]; it carries either
    [lastChild] alone (a trailing insert, whose [afterID]/[firstChild] were
    deleted), or [beforeID] together with exactly one of [afterID] and
    [firstChild]. *)
Theorem domdiff_textInsert_fields (oldNode : option dom) (newNode : dom)
    (es : list edit) :
  domdiff oldNode newNode = Ok es ->
  forall e, e ∈ es -> type e = textInsert ->
    is_Some (ed_content e) /\ (exists p, parentID e = num p)
    /\ textInsertAnchors e.
Proof.
  unfold domdiff, mbind, result_bind.
  destruct (domdiff_run oldNode newNode) as [st| |] eqn:Hrun;
    try discriminate.
  intros [= <-].
  apply domdiff_run_driverInv in Hrun as [[_ HF] _].
  intros e He Hty. unfold withRememberNodes in He.
  assert (Hin : e ∈ edits st).
  { destruct (0 <? length (moves st))%nat; [|done].
    apply elem_of_cons in He as [->|He]; [done | exact He]. }
  eapply finalEdit_textInsert; [|exact Hty].
  by apply (proj1 (Forall_forall _ _) HF).
Qed.

Module TextInsertExample.

(** An empty element gains one text child. *)
Definition old_root : node := Element 1 "div" [] None 10 11 12 [].
Definition new_root : node :=
  Element 1 "div" [] None 10 21 22 [Text "hi" 5 (Some (mkParent 1 1))].
Definition old : dom := mkDom old_root {[ 1%Z := old_root ]}.
Definition new : dom := mkDom new_root {[ 1%Z := new_root ]}.

End TextInsertExample.

Lemma domdiff_textInsert_fields_witness :
  exists es,
    domdiff (Some TextInsertExample.old) TextInsertExample.new = Ok es
    /\ forall e, e ∈ es -> type e = textInsert -> textInsertAnchors e.
Proof.
  destruct (domdiff (Some TextInsertExample.old) TextInsertExample.new)
    as [es| |] eqn:Hrun; [|vm_compute in Hrun; discriminate Hrun..].
  exists es. split; [reflexivity|]. intros e He Hty.
  by destruct (domdiff_textInsert_fields (Some TextInsertExample.old)
                 TextInsertExample.new es Hrun e He Hty) as (_ & _ & ?).
Defined.

(** The claim as first stated - every [textInsert] carries exactly one of
    [afterID] and [firstChild] - fails for a trailing insert: both were
    deleted when [lastChild] was set. *)
Lemma textInsert_anchor_counterexample :
  exists e,
    domdiff (Some TextInsertExample.old) TextInsertExample.new = Ok [e]
    /\ type e = textInsert
    /\ ~ ((afterID e <> undefined /\ firstChild e = false)
          \/ (afterID e = undefined /\ firstChild e = true)).
Proof.
  eexists. split; [vm_compute; reflexivity|]. split; [reflexivity|].
  simpl. intros [[H _]|[_ H]]; [by apply H | discriminate H].
Qed.

(** ** Text deletions under a parent that had one child *)

(** A text edit without positional anchors: only [type], [content] and
    [parentID] are present. *)
Definition unanchoredText (e : edit) : Prop :=
  type e = textDelete \/ type e = textReplace ->
  exists pid, e = textEdit (type e) (ed_content e) (num pid).

Section SingleTextChild.

Variable oldNodeMap : gmap Z node.
Variable newNodeMap : gmap Z node.
Variable cp : node.
Variable cc : list node.
Variable o : node.
Variable p : parentRef.
Variable edits0 : list edit.
Hypothesis o_text : isElement o = false.
Hypothesis o_parent : parent o = Some p.
Hypothesis p_single : p_children_length p = 1%nat.

(** While the old text child is being compared, no anchor is known yet and
    the output list is untouched. *)
Definition singleInv (st : state) : Prop :=
  edits st = edits0
  /\ Forall unanchoredText (newEdits st)
  /\ (oldIndex st = 0%nat -> textAfterID st = undefined).

Lemma unanchoredText_other (e : edit) :
  type e <> textDelete -> type e <> textReplace -> unanchoredText e.
Proof. intros H1 H2 [H|H]; done. Qed.

Lemma unanchoredText_textDelete prev a :
  unanchoredText
    (textDeleteAnchored p a
       (set_parentID (num (p_tagID p)) (textDeleteStart prev))).
Proof.
  intros _. exists (p_tagID p). unfold textDeleteAnchored.
  rewrite p_single. simpl. unfold textDeleteStart.
  destruct prev as [n|]; [|done]. by destruct (negb (isElement n)).
Qed.

Lemma unanchoredText_textReplace c q :
  unanchoredText (withAfterID undefined (textEdit textReplace c (num q))).
Proof. intros _. by exists q. Qed.

Lemma unanchoredText_fixup (l : list edit) :
  Forall unanchoredText l ->
  Forall unanchoredText
    (map (fun edit => if bool_decide (type edit = elementInsert)
                      then set_beforeText true edit else edit) l).
Proof.
  intros H. apply Forall_map. eapply Forall_impl; [exact H|].
  intros e Hu. simpl. case_bool_decide as Ht; [|done].
  apply unanchoredText_other; simpl; congruence.
Qed.

Lemma lookup_single (i : nat) (x : node) :
  [o] !! i = Some x -> i = 0%nat /\ x = o.
Proof. destruct i as [|i]; simpl; [by intros [= ->] | done]. Qed.

Ltac single_old :=
  repeat match goal with
  | H : [o] !! _ = Some _ |- _ =>
      apply lookup_single in H as [? ->]
  end;
  try match goal with
  | H : isElement o = true |- _ => rewrite o_text in H; discriminate H
  end;
  repeat match goal with
  | H : parent o = Some _ |- _ =>
      rewrite o_parent in H; injection H as <-
  end.

Ltac solve_single :=
  match goal with
  | HI : singleInv _ |- _ =>
      let He := fresh "He" in
      let Hn := fresh "Hn" in
      let Ha := fresh "Ha" in
      destruct HI as (He & Hn & Ha);
      unfold singleInv, fixupElementInsert; simpl;
      repeat split;
      [ done
      | repeat rewrite Forall_app; repeat rewrite Forall_singleton;
        repeat split; try assumption;
        first
          [ apply unanchoredText_textDelete
          | (rewrite Ha by done; apply unanchoredText_textReplace)
          | (apply unanchoredText_other; solve_type)
          | by apply unanchoredText_fixup ]
      | try (intros ?; (done || lia || auto)) ]
  end.

Lemma compareStep_singleInv st st' :
  singleInv st ->
  compareStep oldNodeMap newNodeMap cp cc [o] st = Ok st' ->
  singleInv st'.
Proof.
  intros HI H. unfold_steps.
  crunch; decide_elements; single_old; solve_single.
Qed.

Lemma drainOldStep_singleInv st st' :
  singleInv st ->
  drainOldStep newNodeMap cc [o] st = Ok st' ->
  singleInv st'.
Proof.
  intros HI H. unfold_steps.
  crunch; decide_elements; single_old; solve_single.
Qed.

Lemma drainCurrentStep_singleInv st st' :
  singleInv st ->
  oldIndex st <> 0%nat ->
  drainCurrentStep oldNodeMap cp cc st = Ok st' ->
  singleInv st' /\ oldIndex st' <> 0%nat.
Proof.
  intros HI Hoi H. unfold_steps.
  crunch; decide_elements; (split; [solve_single | done]).
Qed.

End SingleTextChild.

Lemma unanchoredText_remaining (l : list edit) :
  Forall unanchoredText l ->
  Forall unanchoredText
    (map (fun edit => if bool_decide (type edit = textInsert)
                         || bool_decide (type edit = elementInsert)
                         || bool_decide (type edit = elementMove)
                      then markLastChild edit else edit) l).
Proof.
  intros H. apply Forall_map. eapply Forall_impl; [exact H|].
  intros e Hu. simpl.
  destruct (bool_decide (type e = textInsert)) eqn:H1;
    [apply bool_decide_eq_true in H1;
     apply unanchoredText_other; simpl; congruence|].
  destruct (bool_decide (type e = elementInsert)) eqn:H2;
    [apply bool_decide_eq_true in H2;
     apply unanchoredText_other; simpl; congruence|].
  destruct (bool_decide (type e = elementMove)) eqn:H3;
    [apply bool_decide_eq_true in H3;
     apply unanchoredText_other; simpl; congruence|].
  done.
Qed.

(** C9 (amended). When the old parent had exactly one child, a text node
    (the condition the code tests is the length of the old child list), every
    [textDelete] and [textReplace] that [generateChildEdits] appends to the
    output carries only its type, its content and [parentID]: no [afterID],
    no [beforeID] and no other positional field. *)
Theorem textDelete_single_child_unanchored (om nm : gmap Z node)
    (cp op o : node) (p : parentRef) (st : state) :
  elementNode cp ->
  elementNode op ->
  children op = Some [o] ->
  isElement o = false ->
  parent o = Some p ->
  p_children_length p = 1%nat ->
  exists st' added,
    generateChildEdits om nm cp (Some op) st = Ok st'
    /\ edits st' = edits st ++ added
    /\ Forall unanchoredText added.
Proof.
  intros Hcp Hop Hoc Ho Hp Hlen.
  destruct (generateChildEdits_total om nm cp (Some op) st Hcp)
    as [st' Hrun]; [by intros ? [= <-]|].
  exists st'. pose proof Hrun as H. unfold generateChildEdits in H.
  unfold mbind, result_bind in H. rewrite Hoc in H.
  destruct (deref (children cp)) as [cc| |]; try discriminate. simpl in H.
  apply (childLoops_inv3 om nm
           (singleInv (edits st)) (singleInv (edits st))
           (fun s => singleInv (edits st) s /\ oldIndex s <> 0%nat)) in H
    as (s & ((He & Hn & _) & _) & _ & ->).
  - exists (map (fun edit =>
                   if bool_decide (type edit = textInsert)
                      || bool_decide (type edit = elementInsert)
                      || bool_decide (type edit = elementMove)
                   then markLastChild edit else edit) (newEdits s)).
    split; [done|]. split.
    + unfold finalizeRemaining. simpl. by rewrite He.
    + by apply unanchoredText_remaining.
  - intros s s' HI _. by eapply (compareStep_singleInv om nm cp cc o p).
  - done.
  - intros s s' HI _. by eapply (drainOldStep_singleInv nm cc o p).
  - intros s HI Hc. split; [done|]. unfold oldRemain in Hc.
    apply Nat.ltb_ge in Hc. simpl in Hc. lia.
  - intros s s' [HI Hoi] _. by eapply (drainCurrentStep_singleInv om cp cc).
  - repeat split; simpl; done.
Qed.

Module TextDeleteExample.

(** The only child of an element, a text node, is removed. *)
Definition single_old_root : node :=
  Element 1 "div" [] None 10 11 12 [Text "x" 5 (Some (mkParent 1 1))].
Definition single_new_root : node := Element 1 "div" [] None 10 21 22 [].

(** A text node is removed after an element that stays: the parent had two
    children and ends up with one. *)
Definition kept_old : node := Element 5 "b" [] (Some (mkParent 1 2)) 50 51 52 [].
Definition kept_new : node := Element 5 "b" [] (Some (mkParent 1 1)) 50 51 52 [].
Definition old_root : node :=
  Element 1 "div" [] None 10 11 12
    [kept_old; Text "x" 5 (Some (mkParent 1 2))].
Definition new_root : node := Element 1 "div" [] None 10 21 22 [kept_new].
Definition old : dom :=
  mkDom old_root (list_to_map [(1, old_root); (5, kept_old)]).
Definition new : dom :=
  mkDom new_root (list_to_map [(1, new_root); (5, kept_new)]).

End TextDeleteExample.

Lemma textDelete_single_child_unanchored_witness :
  exists st' added,
    generateChildEdits ∅ ∅ TextDeleteExample.single_new_root
      (Some TextDeleteExample.single_old_root)
      (initialState TextDeleteExample.single_new_root) = Ok st'
    /\ edits st' = [] ++ added
    /\ Forall unanchoredText added.
Proof.
  apply (textDelete_single_child_unanchored ∅ ∅
           TextDeleteExample.single_new_root
           TextDeleteExample.single_old_root
           (Text "x" 5 (Some (mkParent 1 1))) (mkParent 1 1)).
  - split; reflexivity.
  - split; reflexivity.
  - reflexivity.
  - reflexivity.
  - reflexivity.
  - reflexivity.
Defined.

(** The claim as first stated - no [afterID] when the parent ends up with
    exactly one child - fails: the parent below ends up with the single
    child 5, and the [textDelete] is anchored after it. *)
Lemma textDelete_one_child_left_counterexample :
  length (default [] (children TextDeleteExample.new_root)) = 1%nat
  /\ exists e,
       domdiff (Some TextDeleteExample.old) TextDeleteExample.new = Ok [e]
       /\ type e = textDelete
       /\ afterID e = num 5.
Proof.
  split; [reflexivity|]. eexists. split; [vm_compute; reflexivity|].
  split; reflexivity.
Qed.

(** ** Collapsing a run of removed text *)

Module TextRunExample.

(** Three text children are replaced by one. *)
Definition old_root : node :=
  Element 1 "p" [] None 10 11 12
    [Text "a" 1 (Some (mkParent 1 3)); Text "b" 2 (Some (mkParent 1 3));
     Text "c" 3 (Some (mkParent 1 3))].
Definition new_text : node := Text "z" 9 (Some (mkParent 1 1)).
Definition new_root : node := Element 1 "p" [] None 10 21 22 [new_text].

(** Two text children in front of an element are removed, with no text
    taking their place. *)
Definition kept_old : node := Element 5 "b" [] (Some (mkParent 1 3)) 50 51 52 [].
Definition kept_new : node := Element 5 "b" [] (Some (mkParent 1 1)) 50 51 52 [].
Definition del_old_root : node :=
  Element 1 "div" [] None 10 11 12
    [Text "a" 1 (Some (mkParent 1 3)); Text "b" 2 (Some (mkParent 1 3));
     kept_old].
Definition del_new_root : node :=
  Element 1 "div" [] None 10 21 22 [kept_new].
Definition del_old : dom :=
  mkDom del_old_root (list_to_map [(1, del_old_root); (5, kept_old)]).
Definition del_new : dom :=
  mkDom del_new_root (list_to_map [(1, del_new_root); (5, kept_new)]).

(** Three text children are replaced by one, and a new element follows it. *)
Definition old : dom := mkDom old_root {[ 1%Z := old_root ]}.

End TextRunExample.


(** ** Pruning of unchanged subtrees *)

Lemma lookupID_Some_element (m : gmap Z node) (n x : node) :
  lookupID m (tagID n) = Some x -> isElement n = true.
Proof. by destruct n. Qed.

(** One turn of the driver loop on a matched pair whose child and subtree
    signatures are unchanged: a turn that returns has taken the element from
    the queue, put nothing into it, and appended only attribute edits of the
    element.  The turn returns when the attribute signatures agree too, or
    when the old attributes have no name [hasOwnProperty]. *)
Lemma driverStep_prunes (om nm : gmap Z node) (st : state)
    (rest : list node) (currentElement oldElement : node) :
  queue st = rest ++ [currentElement] ->
  lookupID om (tagID currentElement) = Some oldElement ->
  childSignature currentElement = childSignature oldElement ->
  subtreeSignature currentElement = subtreeSignature oldElement ->
  (attributeSignature currentElement = attributeSignature oldElement ->
   driverStep om nm st = Ok (set_queue rest st))
  /\ (plainAttributes oldElement -> exists st', driverStep om nm st = Ok st')
  /\ (forall st',
        driverStep om nm st = Ok st' ->
        exists added,
          queue st' = rest
          /\ edits st' = edits st ++ added
          /\ Forall (isAttrEdit (tagID oldElement)) added
          /\ moves st' = moves st
          /\ console st' = console st).
Proof.
  intros Hq Hold Hchild Hsub.
  pose proof (lookupID_Some_element _ _ _ Hold) as Hel.
  unfold driverStep. rewrite Hq, pop_snoc. simpl. rewrite Hold.
  rewrite (bool_decide_eq_false_2 (childSignature _ <> _))
    by (intros H; by apply H).
  rewrite (bool_decide_eq_false_2 (subtreeSignature _ <> _))
    by (intros H; by apply H).
  split; [|split].
  - intros Hattr. by rewrite bool_decide_eq_false_2 by (intros H; by apply H).
  - intros Hplain. destruct (bool_decide _); [|by eexists].
    destruct (generateAttributeEdits_total (edits st) oldElement
                currentElement) as [es Hes]; [|done|].
    + destruct currentElement; [by eexists | discriminate Hel].
    + simpl in Hes |- *. rewrite Hes. simpl. by eexists.
  - intros st'. destruct (bool_decide _).
    + destruct (generateAttributeEdits (edits st) oldElement
                  currentElement) as [es| |] eqn:Ea; simpl; try discriminate.
      apply generateAttributeEdits_appends in Ea as (added & -> & Hadded).
      intros [= <-]. by exists added.
    + simpl. intros [= <-]. exists []. by rewrite app_nil_r.
Qed.

(** C6 (amended). For a matched element pair whose [subtreeSignature] and
    [childSignature] values are both equal, a turn of the driver that returns
    has enqueued nothing and emitted nothing but the element's own attribute
    edits - so when the pair is the root pair, a diff that returns consists
    of those attribute edits, whatever the contents of the two subtrees are;
    it is empty when the [attributeSignature] values are equal too, and the
    diff does return then, as it does when the old root's attributes have no
    name [hasOwnProperty].  (The subtree signature alone gates only the
    enqueueing of matched children: with a differing [childSignature] the
    child aligner still runs.) *)
Theorem unchanged_subtree_pruned (oldNode newNode : dom) (oldElement : node) :
  lookupID (nodeMap oldNode) (tagID (root newNode)) = Some oldElement ->
  childSignature (root newNode) = childSignature oldElement ->
  subtreeSignature (root newNode) = subtreeSignature oldElement ->
  (attributeSignature (root newNode) = attributeSignature oldElement ->
   domdiff (Some oldNode) newNode = Ok [])
  /\ (plainAttributes oldElement ->
      exists added, domdiff (Some oldNode) newNode = Ok added)
  /\ (forall added,
        domdiff (Some oldNode) newNode = Ok added ->
        Forall (isAttrEdit (tagID oldElement)) added)
  /\ (forall st rest currentElement oldElement' st',
         queue st = rest ++ [currentElement] ->
         lookupID (nodeMap oldNode) (tagID currentElement)
         = Some oldElement' ->
         childSignature currentElement = childSignature oldElement' ->
         subtreeSignature currentElement = subtreeSignature oldElement' ->
         driverStep (nodeMap oldNode) (nodeMap newNode) st = Ok st' ->
         queue st' = rest
         /\ exists added,
              edits st' = edits st ++ added
              /\ Forall (isAttrEdit (tagID oldElement')) added).
Proof.
  intros Hold Hchild Hsub.
  destruct (driverStep_prunes (nodeMap oldNode) (nodeMap newNode)
              (initialState (root newNode)) [] (root newNode) oldElement)
    as (Hsame & Hplain & Hstep); [done..|].
  assert (Hrun : forall st',
            driverStep (nodeMap oldNode) (nodeMap newNode)
              (initialState (root newNode)) = Ok st' ->
            domdiff (Some oldNode) newNode = Ok (edits st')).
  { intros st' Hst'.
    destruct (Hstep st' Hst') as (added & Hq & He & _ & Hm & _).
    unfold domdiff, domdiff_run.
    pose proof (node_size_pos (root newNode)) as Hsize.
    destruct (node_size (root newNode)) as [|fuel]; [lia|].
    simpl in Hst' |- *. rewrite Hst'. simpl. unfold queueNonEmpty.
    rewrite Hq. simpl. unfold withRememberNodes. by rewrite Hm. }
  split; [|split; [|split]].
  - intros Hattr. by rewrite (Hrun _ (Hsame Hattr)).
  - intros Hp. destruct (Hplain Hp) as [st' Hst']. eexists. by apply Hrun.
  - intros added Hdiff.
    destruct (driverStep (nodeMap oldNode) (nodeMap newNode)
                (initialState (root newNode))) as [st'| |] eqn:Hst'.
    + rewrite (Hrun st' eq_refl) in Hdiff. injection Hdiff as <-.
      destruct (Hstep st' eq_refl) as (added & _ & -> & Hadded & _). done.
    + exfalso. revert Hdiff. unfold domdiff, domdiff_run.
      pose proof (node_size_pos (root newNode)) as Hsize.
      destruct (node_size (root newNode)) as [|fuel]; [lia|].
      simpl in Hst' |- *. by rewrite Hst'.
    + exfalso. revert Hdiff. unfold domdiff, domdiff_run.
      pose proof (node_size_pos (root newNode)) as Hsize.
      destruct (node_size (root newNode)) as [|fuel]; [lia|].
      simpl in Hst' |- *. by rewrite Hst'.
  - intros st rest cur old' st' Hq Hl Hc Hs Hst'.
    destruct (driverStep_prunes (nodeMap oldNode) (nodeMap newNode)
                st rest cur old' Hq Hl Hc Hs) as (_ & _ & H).
    destruct (H st' Hst') as (added & ? & ? & ? & _).
    split; [done|]. by exists added.
Qed.

Module PruneExample.

(** The subtree signature of the root is the same in both snapshots, yet the
    child signature differs and a new child element with a text was added. *)
Definition old_root : node := Element 1 "div" [] None 10 11 12 [].
Definition added : node :=
  Element 9 "b" [] (Some (mkParent 1 1)) 90 91 92
    [Text "x" 5 (Some (mkParent 9 1))].
Definition new_root : node := Element 1 "div" [] None 10 21 12 [added].
Definition old : dom := mkDom old_root {[ 1%Z := old_root ]}.
Definition new : dom :=
  mkDom new_root (list_to_map [(1, new_root); (9, added)]).

(** Both signatures are the same, the attributes differ. *)
Definition attr_new_root : node :=
  Element 1 "div" [("class", "b")] None 13 11 12 [added].
Definition attr_new : dom :=
  mkDom attr_new_root (list_to_map [(1, attr_new_root); (9, added)]).

End PruneExample.

Lemma unchanged_subtree_pruned_witness :
  exists added,
    domdiff (Some PruneExample.old) PruneExample.attr_new = Ok added
    /\ Forall (isAttrEdit (num 1)) added.
Proof.
  destruct (unchanged_subtree_pruned PruneExample.old PruneExample.attr_new
              PruneExample.old_root) as (_ & Hruns & Hattr & _).
  - reflexivity.
  - reflexivity.
  - reflexivity.
  - destruct (Hruns eq_refl) as [added Hrun].
    exists added. split; [exact Hrun | exact (Hattr added Hrun)].
Defined.

(** The claim as first stated - equal subtree signatures alone mean no edits
    within the subtree and no descent - fails: here the child aligner runs on
    the root pair, inserts element 9, enqueues it, and the driver descends
    into it to insert its text. *)
Lemma equal_subtreeSignature_counterexample :
  subtreeSignature PruneExample.new_root
  = subtreeSignature PruneExample.old_root
  /\ exists e1 e2,
       domdiff (Some PruneExample.old) PruneExample.new = Ok [e1; e2]
       /\ type e1 = elementInsert /\ parentID e1 = num 1
       /\ type e2 = textInsert /\ parentID e2 = num 9.
Proof.
  split; [reflexivity|]. eexists _, _.
  split; [vm_compute; reflexivity|]. repeat split.
Qed.

(** ** Moved elements *)

(** The test of [addElementMove]: the child is an element that the old
    [nodeMap] knows under another parent than [currentParent]. *)
Definition movedHere (om : gmap Z node) (currentParent c : node) : bool :=
  isElement c
  && match lookupID om (tagID c) with
     | Some possiblyMovedElement =>
         bool_decide (tagID currentParent <> getParentID possiblyMovedElement)
     | None => false
     end.

(** The list holds an [elementMove] of child [c] to the parent [c] points
    to. *)
Definition hasMoveFor (c : node) (es : list edit) : Prop :=
  exists e p,
    e ∈ es /\ type e = elementMove /\ ed_tagID e = tagID c
    /\ parent c = Some p /\ parentID e = num (p_tagID p).

Lemma hasMoveFor_app_l c es es' : hasMoveFor c es -> hasMoveFor c (es ++ es').
Proof.
  intros (e & p & He & ?). exists e, p. split; [|done].
  apply elem_of_app. by left.
Qed.

Lemma hasMoveFor_app_r c es es' : hasMoveFor c es' -> hasMoveFor c (es ++ es').
Proof.
  intros (e & p & He & ?). exists e, p. split; [|done].
  apply elem_of_app. by right.
Qed.

Lemma hasMoveFor_app c es es' :
  hasMoveFor c (es ++ es') -> hasMoveFor c es \/ hasMoveFor c es'.
Proof.
  intros (e & p & He & ?). apply elem_of_app in He as [He|He];
    [left|right]; by exists e, p.
Qed.

Lemma hasMoveFor_map (f : edit -> edit) c es :
  (forall e, type (f e) = type e /\ ed_tagID (f e) = ed_tagID e
             /\ parentID (f e) = parentID e) ->
  hasMoveFor c es -> hasMoveFor c (map f es).
Proof.
  intros Hf (e & p & He & Ht & Hi & Hp & Hpid). exists (f e), p.
  destruct (Hf e) as (-> & -> & ->). split; [|done].
  apply list_elem_of_fmap. by exists e.
Qed.

Lemma hasMoveFor_finalize b c es :
  hasMoveFor c es ->
  hasMoveFor c
    (map (fun edit => if bool_decide (type edit <> elementDelete)
                      then set_beforeID b edit else edit) es).
Proof.
  apply hasMoveFor_map. intros e.
  by destruct (bool_decide (type e <> elementDelete)).
Qed.

Lemma hasMoveFor_fixup c es :
  hasMoveFor c es ->
  hasMoveFor c
    (map (fun edit => if bool_decide (type edit = elementInsert)
                      then set_beforeText true edit else edit) es).
Proof.
  apply hasMoveFor_map. intros e.
  by destruct (bool_decide (type e = elementInsert)).
Qed.

Lemma hasMoveFor_remaining c es :
  hasMoveFor c es ->
  hasMoveFor c
    (map (fun edit => if bool_decide (type edit = textInsert)
                         || bool_decide (type edit = elementInsert)
                         || bool_decide (type edit = elementMove)
                      then markLastChild edit else edit) es).
Proof.
  apply hasMoveFor_map. intros e. by destruct (_ || _).
Qed.

Lemma hasMoveFor_singleton c p :
  parent c = Some p -> hasMoveFor c [elementMoveEdit c (num (p_tagID p))].
Proof. intros Hp. eexists _, p. split; [left|]. done. Qed.

Section MovesOfOneParent.

Variable oldNodeMap : gmap Z node.
Variable newNodeMap : gmap Z node.
Variable cp : node.
Variable cc : list node.
Variable moves0 : list jsid.
Variable edits0 : list edit.

(** Every moved-here child already visited has its [elementMove], no more
    moves were recorded than such children were visited, and the output list
    has only grown. *)
Definition movesInv (st : state) : Prop :=
  (forall i c, (i < currentIndex st)%nat -> cc !! i = Some c ->
     movedHere oldNodeMap cp c = true ->
     hasMoveFor c (edits st ++ newEdits st))
  /\ (length (moves st)
      <= length moves0
         + length (filter (fun c => movedHere oldNodeMap cp c = true)
                     (take (currentIndex st) cc)))%nat
  /\ (exists added, edits st = edits0 ++ added).

Lemma hasMoveFor_step c es ns es' ns' :
  hasMoveFor c (es ++ ns) ->
  (hasMoveFor c es -> hasMoveFor c es') ->
  (hasMoveFor c ns -> hasMoveFor c (es' ++ ns')) ->
  hasMoveFor c (es' ++ ns').
Proof.
  intros H He Hn. apply hasMoveFor_app in H as [H|H]; [|by apply Hn].
  apply hasMoveFor_app_l. by apply He.
Qed.

Ltac keep_moves :=
  match goal with
  | H : hasMoveFor ?c (_ ++ _) |- hasMoveFor ?c _ =>
      simpl; rewrite ?app_nil_r;
      first
        [ exact H
        | by (rewrite app_assoc; apply hasMoveFor_app_l)
        | by (rewrite !app_assoc; do 2 apply hasMoveFor_app_l)
        | by (apply hasMoveFor_app in H as [H|H];
              [ by apply hasMoveFor_app_l
              | apply hasMoveFor_app_r;
                first [ by apply hasMoveFor_finalize
                      | by apply hasMoveFor_fixup ] ]) ]
  end.

Ltac not_moved :=
  match goal with
  | H : movedHere _ _ _ = true |- _ =>
      unfold movedHere in H;
      repeat match goal with
             | E : isElement _ = _ |- _ => rewrite E in H
             | E : lookupID _ _ = _ |- _ => rewrite E in H
             | E : bool_decide _ = _ |- _ => rewrite E in H
             end;
      simpl in H; discriminate H
  end.

Ltac count_moved :=
  simpl;
  try (erewrite take_S_r by eassumption;
       rewrite filter_app, length_app; simpl);
  try match goal with
      | |- context [filter _ [?a]] =>
          rewrite (filter_cons_True _ a [])
            by (unfold movedHere;
                repeat match goal with
                       | E : isElement _ = _ |- _ => rewrite E
                       | E : lookupID _ _ = _ |- _ => rewrite E
                       | E : bool_decide _ = _ |- _ => rewrite E
                       end; done)
      end;
  rewrite ?length_app; simpl; lia.

Ltac solve_movesInv :=
  match goal with
  | HI : movesInv _ |- _ =>
      let HK := fresh "HK" in
      let HM := fresh "HM" in
      let HE := fresh "HE" in
      let added := fresh "added" in
      destruct HI as (HK & HM & added & HE); unfold movesInv, finalizeNewEdits,
        fixupElementInsert; simpl; split; [|split];
      [ let i := fresh "i" in
        let c := fresh "c" in
        let Hi := fresh "Hi" in
        let Hc := fresh "Hc" in
        let Hm := fresh "Hm" in
        intros i c Hi Hc Hm;
        first
          [ (assert (Hlt : (i < currentIndex _)%nat) by exact Hi;
             specialize (HK i c Hlt Hc Hm); keep_moves)
          | (apply Nat.lt_succ_r, Nat.le_lteq in Hi as [Hi| ->];
             [ specialize (HK i c Hi Hc Hm); keep_moves
             | match goal with
               | E : cc !! _ = Some ?a |- _ =>
                   rewrite E in Hc; injection Hc as <-
               end;
               first
                 [ not_moved
                 | (rewrite app_assoc; apply hasMoveFor_app_r;
                    by apply hasMoveFor_singleton) ] ]) ]
      | count_moved
      | first [ by (exists added)
              | by (eexists; rewrite HE, <- app_assoc) ] ]
  end.

Lemma compareStep_movesInv oc st st' :
  movesInv st ->
  compareStep oldNodeMap newNodeMap cp cc oc st = Ok st' ->
  movesInv st'.
Proof.
  intros HI H. unfold_steps. crunch; decide_elements; solve_movesInv.
Qed.

Lemma drainOldStep_movesInv oc st st' :
  movesInv st ->
  drainOldStep newNodeMap cc oc st = Ok st' ->
  movesInv st'.
Proof.
  intros HI H. unfold_steps. crunch; decide_elements; solve_movesInv.
Qed.

Lemma drainCurrentStep_movesInv st st' :
  movesInv st ->
  drainCurrentStep oldNodeMap cp cc st = Ok st' ->
  movesInv st'.
Proof.
  intros HI H. unfold_steps. crunch; decide_elements; solve_movesInv.
Qed.

End MovesOfOneParent.

(** What one call of [generateChildEdits] does about moves: every moved-here
    child of the parent gets its [elementMove], at most one move is recorded
    per such child, and the edits already in the output stay. *)
Lemma generateChildEdits_moves om nm cp op cs st st' :
  children cp = Some cs ->
  generateChildEdits om nm cp op st = Ok st' ->
  (forall c, c ∈ cs -> movedHere om cp c = true -> hasMoveFor c (edits st'))
  /\ (length (moves st')
      <= length (moves st)
         + length (filter (fun c => movedHere om cp c = true) cs))%nat
  /\ (exists added, edits st' = edits st ++ added).
Proof.
  intros Hcs H. unfold generateChildEdits in H.
  unfold mbind, result_bind in H. rewrite Hcs in H. simpl in H.
  destruct (match op with Some o => _ | None => _ end) as [oc| |];
    try discriminate.
  apply (childLoops_inv om nm (movesInv om cp cs (moves st) (edits st))) in H
    as (s & (HK & HM & added & HE) & Hc & ->).
  - unfold currentRemain in Hc. apply Nat.ltb_ge in Hc.
    rewrite take_ge in HM by done. split; [|split].
    + intros c Hin Hm. apply list_elem_of_lookup in Hin as [i Hi].
      pose proof (lookup_lt_Some _ _ _ Hi) as Hlt.
      assert (Hlt' : (i < currentIndex s)%nat) by lia.
      specialize (HK i c Hlt' Hi Hm). unfold finalizeRemaining. simpl.
      apply hasMoveFor_app in HK as [HK|HK].
      * by apply hasMoveFor_app_l.
      * apply hasMoveFor_app_r. by apply hasMoveFor_remaining.
    + done.
    + unfold finalizeRemaining. simpl. eexists.
      by rewrite HE, <- app_assoc.
  - intros s s' ? _. by eapply compareStep_movesInv.
  - intros s s' ? _. by eapply drainOldStep_movesInv.
  - intros s s' ? _. by eapply drainCurrentStep_movesInv.
  - split; [|split]; simpl.
    + intros i c Hi. lia.
    + lia.
    + exists []. by rewrite app_nil_r.
Qed.

(** *** The driver's turn, taken apart *)

Lemma driverStep_matched om nm st rest cur old st' :
  queue st = rest ++ [cur] ->
  lookupID om (tagID cur) = Some old ->
  driverStep om nm st = Ok st' ->
  exists s1 s2 cs,
    children cur = Some cs
    /\ queue s1 = rest /\ moves s1 = moves st
    /\ (exists added, edits s1 = edits st ++ added)
    /\ (if bool_decide (childSignature cur <> childSignature old)
        then generateChildEdits om nm cur (Some old) s1 = Ok s2
        else s2 = s1)
    /\ (if bool_decide (subtreeSignature cur <> subtreeSignature old)
        then st' = fold_left (queuePush om) cs s2
        else st' = s2).
Proof.
  intros Hq Hold H.
  assert (Hcs : exists cs, children cur = Some cs).
  { pose proof (lookupID_Some_element _ _ _ Hold) as Hel.
    destruct cur; [by eexists | done]. }
  destruct Hcs as [cs Hcs].
  unfold driverStep in H. rewrite Hq, pop_snoc in H. simpl in H.
  rewrite Hold in H. unfold mbind, result_bind in H.
  match type of H with
  | match ?X with _ => _ end = _ => destruct X as [s1| |] eqn:E1;
                                     try discriminate
  end.
  match type of H with
  | match ?X with _ => _ end = _ => destruct X as [s2| |] eqn:E2;
                                     try discriminate
  end.
  exists s1, s2, cs. split; [done|].
  assert (H1 : queue s1 = rest /\ moves s1 = moves st
               /\ exists added, edits s1 = edits st ++ added).
  { destruct (bool_decide _) in E1.
    - destruct (generateAttributeEdits _ _ _) as [es| |] eqn:Ea;
        try discriminate.
      injection E1 as <-.
      apply generateAttributeEdits_appends in Ea as (added & -> & _).
      simpl. eauto.
    - injection E1 as <-. simpl. repeat split. exists [].
      by rewrite app_nil_r. }
  destruct H1 as (? & ? & ?). split; [done|]. split; [done|].
  split; [done|]. split.
  - destruct (bool_decide (childSignature _ <> _));
      [done | by injection E2 as <-].
  - rewrite Hcs in H. simpl in H.
    destruct (bool_decide (subtreeSignature _ <> _)); by injection H as <-.
Qed.

Lemma driverStep_unmatched om nm st rest cur st' :
  queue st = rest ++ [cur] ->
  lookupID om (tagID cur) = None ->
  driverStep om nm st = Ok st' ->
  exists s0,
    queue s0 = rest /\ moves s0 = moves st
    /\ (exists added, edits s0 = edits st ++ added)
    /\ generateChildEdits om nm cur None s0 = Ok st'.
Proof.
  intros Hq Hold H. unfold driverStep in H.
  rewrite Hq, pop_snoc in H. simpl in H. rewrite Hold in H.
  eexists. split; [|split; [|split; [|exact H]]].
  - by destruct (parent cur).
  - by destruct (parent cur).
  - destruct (parent cur); simpl; [exists []; by rewrite app_nil_r|].
    by eexists.
Qed.

(** *** Weights of queues *)

Definition weight (w : node -> nat) (q : list node) : nat :=
  list_sum (map w q).


Lemma sublist_weight w (l1 l2 : list node) :
  sublist l1 l2 -> (weight w l1 <= weight w l2)%nat.
Proof. induction 1; unfold weight in *; simpl; lia. Qed.

Lemma fresh_matched_weight om w (cs : list node) :
  (weight w (filter (freshElement om) cs)
   + weight w (filter (matchedElement om) cs)
   <= weight w cs)%nat.
Proof.
  induction cs as [|c cs IH]; [done|].
  rewrite !filter_cons.
  destruct (decide (freshElement om c)) as [[_ Hf]|_],
           (decide (matchedElement om c)) as [[_ Hm]|_];
    unfold weight in *; simpl; try lia.
  rewrite Hf in Hm. by destruct Hm.
Qed.


Lemma fold_queuePush_edits om (cs : list node) (st : state) :
  edits (fold_left (queuePush om) cs st) = edits st.
Proof. by destruct (moves_fold_queuePush om cs st). Qed.




Lemma driverStep_queue_nonempty om nm st st' :
  driverStep om nm st = Ok st' -> queue st <> [].
Proof.
  intros H Hq. unfold driverStep in H. by rewrite Hq in H.
Qed.

(** *** Reaching the new parent of a moved element *)

(** The driver gets from [n] down to [target] and aligns the children of
    [target]: every element on the way is matched in the old [nodeMap] with
    another subtree signature, and [target] is matched with another child
    signature. *)
Inductive changedPath (om : gmap Z node) (target : node) : node -> Prop :=
| changedPath_here o :
    lookupID om (tagID target) = Some o ->
    childSignature target <> childSignature o ->
    changedPath om target target
| changedPath_down n o cs c :
    lookupID om (tagID n) = Some o ->
    subtreeSignature n <> subtreeSignature o ->
    children n = Some cs ->
    c ∈ cs ->
    changedPath om target c ->
    changedPath om target n.

Lemma changedPath_matched om target n :
  changedPath om target n -> matchedElement om n.
Proof.
  destruct 1 as [o Ho _|n o cs c Ho _ _ _ _]; split;
    eauto using lookupID_Some_element.
Qed.








(** * The reference applier *)

(** Modelled from the spec: the edit applier, the external collaborator that
    replays an edit sequence on a mirror of the tree; it is not part of
    [HTMLDOMDiff.js].  The model follows what the specification and the
    comments of the source say about it.  Edits address elements by identity.
    An insert or move goes in front of the children for [firstChild], right
    after the [afterID] element, before the [beforeID] element (before the
    text in front of that element when [beforeText] is set), and to the end
    otherwise ([lastChild]).  A text edit replaces the run of text nodes next
    to its anchor by its content (by nothing for [textDelete]) and clears all
    children of the parent when it has no anchor.  [rememberNodes] detaches
    the listed nodes and holds them for their [elementMove].  The root is
    inserted with a [null] parent. *)
#[warnings="-register-all"]
Inductive dnode :=
| DElement (d_id : Z) (d_tag : string) (d_attributes : attrs)
           (d_children : list dnode)
| DText (d_content : string).

Record mirror := mkMirror {
  document : list dnode;
  held : list dnode
}.

Definition hasId (id : Z) (n : dnode) : bool :=
  match n with
  | DElement i _ _ _ => (i =? id)%Z
  | DText _ => false
  end.

Fixpoint indexOf (id : Z) (cs : list dnode) : option nat :=
  match cs with
  | [] => None
  | c :: cs' => if hasId id c then Some 0%nat else S <$> indexOf id cs'
  end.

Definition anchorIndex (v : jsid) (cs : list dnode) : option nat :=
  match v with
  | num id => indexOf id cs
  | _ => None
  end.

Definition insertAt (k : nat) (x : dnode) (cs : list dnode) : list dnode :=
  take k cs ++ x :: drop k cs.

(** The first index of the run of text nodes that ends before index [k]. *)
Fixpoint backOverText (cs : list dnode) (k : nat) : nat :=
  match k with
  | O => O
  | S k' =>
      match cs !! k' with
      | Some (DText _) => backOverText cs k'
      | _ => S k'
      end
  end.

Fixpoint dropText (cs : list dnode) : list dnode :=
  match cs with
  | DText _ :: cs' => dropText cs'
  | _ => cs
  end.

Definition placeChild (e : edit) (x : dnode) (cs : list dnode) : list dnode :=
  if firstChild e then x :: cs
  else
    match anchorIndex (afterID e) cs with
    | Some k => insertAt (S k) x cs
    | None =>
        match anchorIndex (beforeID e) cs with
        | Some k =>
            insertAt (if beforeText e then backOverText cs k else k) x cs
        | None => cs ++ [x]
        end
    end.

Definition replaceText (e : edit) (cs : list dnode) : list dnode :=
  let new :=
    match type e, ed_content e with
    | textReplace, Some c => [DText c]
    | _, _ => []
    end in
  match anchorIndex (afterID e) cs, anchorIndex (beforeID e) cs with
  | Some k, _ => take (S k) cs ++ new ++ dropText (drop (S k) cs)
  | None, Some k => take (backOverText cs k) cs ++ new ++ drop k cs
  | None, None => new
  end.

(** Rewrites the children of the element with identity [id]. *)
Fixpoint onElement (id : Z) (f : list dnode -> list dnode) (n : dnode)
    : dnode :=
  match n with
  | DElement i t a cs =>
      let cs' := map (onElement id f) cs in
      DElement i t a (if (i =? id)%Z then f cs' else cs')
  | DText c => DText c
  end.

(** Rewrites the attributes of the element with identity [id]. *)
Fixpoint onAttributes (id : Z) (g : attrs -> attrs) (n : dnode) : dnode :=
  match n with
  | DElement i t a cs =>
      DElement i t (if (i =? id)%Z then g a else a)
        (map (onAttributes id g) cs)
  | DText c => DText c
  end.

Definition attr_set (k v : string) (a : attrs) : attrs :=
  attr_delete k a ++ [(k, v)].

(** Removes the element with identity [id] from below [n]. *)
Fixpoint detach (id : Z) (n : dnode) : dnode :=
  match n with
  | DElement i t a cs =>
      DElement i t a
        ((fix go (l : list dnode) : list dnode :=
            match l with
            | [] => []
            | c :: l' => if hasId id c then go l' else detach id c :: go l'
            end) cs)
  | DText c => DText c
  end.

Fixpoint detachAll (id : Z) (f : list dnode) : list dnode :=
  match f with
  | [] => []
  | c :: f' => if hasId id c then detachAll id f' else detach id c :: detachAll id f'
  end.

Fixpoint findElement (id : Z) (n : dnode) : option dnode :=
  match n with
  | DElement i t a cs =>
      if (i =? id)%Z then Some n
      else
        (fix go (l : list dnode) : option dnode :=
           match l with
           | [] => None
           | c :: l' =>
               match findElement id c with
               | Some x => Some x
               | None => go l'
               end
           end) cs
  | DText _ => None
  end.

Fixpoint findIn (id : Z) (f : list dnode) : option dnode :=
  match f with
  | [] => None
  | n :: f' =>
      match findElement id n with
      | Some x => Some x
      | None => findIn id f'
      end
  end.

Definition rememberNode (m : mirror) (v : jsid) : mirror :=
  match v with
  | num id =>
      mkMirror (detachAll id (document m))
        (held m ++ option_list (findIn id (document m)))
  | _ => m
  end.

Definition insertUnder (e : edit) (x : dnode) (m : mirror) : mirror :=
  match parentID e with
  | num p => mkMirror (map (onElement p (placeChild e x)) (document m)) (held m)
  | _ => m
  end.

Definition applyEdit (m : mirror) (e : edit) : mirror :=
  match type e with
  | rememberNodes => fold_left rememberNode (default [] (tagIDs e)) m
  | elementInsert =>
      match ed_tagID e with
      | num id =>
          let tag := default "" (ed_tag e) in
          let a := default [] (ed_attributes e) in
          match parentID e with
          | null =>
              mkMirror
                (match document m with
                 | DElement _ _ _ cs :: rest => DElement id tag a cs :: rest
                 | _ => [DElement id tag a []]
                 end) (held m)
          | _ => insertUnder e (DElement id tag a []) m
          end
      | _ => m
      end
  | elementMove =>
      match ed_tagID e with
      | num id =>
          match findIn id (held m ++ document m) with
          | Some x =>
              insertUnder e x
                (mkMirror (detachAll id (document m))
                   (List.filter (fun c => negb (hasId id c)) (held m)))
          | None => m
          end
      | _ => m
      end
  | elementDelete =>
      match ed_tagID e with
      | num id => mkMirror (detachAll id (document m)) (held m)
      | _ => m
      end
  | textInsert => insertUnder e (DText (default "" (ed_content e))) m
  | textDelete | textReplace =>
      match parentID e with
      | num p =>
          mkMirror (map (onElement p (replaceText e)) (document m)) (held m)
      | _ => m
      end
  | attrAdd | attrChange =>
      match ed_tagID e, attribute e, value e with
      | num id, Some k, Some v =>
          mkMirror (map (onAttributes id (attr_set k v)) (document m)) (held m)
      | _, _, _ => m
      end
  | attrDelete =>
      match ed_tagID e, attribute e with
      | num id, Some k =>
          mkMirror (map (onAttributes id (attr_delete k)) (document m)) (held m)
      | _, _ => m
      end
  end.

(** The edits are replayed in order. *)
Definition applyEdits (es : list edit) (m : mirror) : mirror :=
  fold_left applyEdit es m.

(** The mirror of a snapshot: its tags, attributes, text and child order. *)
Fixpoint toDom (n : node) : dnode :=
  match n with
  | Element i t a _ _ _ _ cs => DElement i t a (map toDom cs)
  | Text c _ _ => DText c
  end.

Definition mirrorOf (oldNode : option dom) : mirror :=
  mkMirror (match oldNode with
            | Some d => [toDom (root d)]
            | None => []
            end) [].

(** Structural equivalence of mirrors: the same tag names, the same attribute
    maps, the same text and the same child order at every node. *)
#[warnings="-register-all"]
Inductive sameStructure : dnode -> dnode -> Prop :=
| same_text c : sameStructure (DText c) (DText c)
| same_element i j t a b cs ds :
    (forall k, attr_get k a = attr_get k b) ->
    Forall2 sameStructure cs ds ->
    sameStructure (DElement i t a cs) (DElement j t b ds).

(** The round trip of one input pair. *)
Definition roundTrip (oldNode : option dom) (newNode : dom) : Prop :=
  exists es d,
    domdiff oldNode newNode = Ok es
    /\ document (applyEdits es (mirrorOf oldNode)) = [d]
    /\ sameStructure d (toDom (root newNode)).

(** * The first render: diffing against no previous tree *)

(** ** What the child aligner does without an old parent *)

Lemma lookupID_empty (v : jsid) : lookupID ∅ v = None.
Proof. destruct v; [done..|]. apply lookup_empty. Qed.

(** The insert of child [c] as it leaves [generateChildEdits] when nothing
    follows it: a trailing insert. *)
Definition trailingInsert (c : node) : edit :=
  markLastChild
    (if isElement c then elementInsertEdit c (getParentID c)
     else textEdit textInsert (content c) (getParentID c)).

Lemma markLastChild_withAfterIDOrFirstChild a e :
  markLastChild (withAfterIDOrFirstChild a e) = markLastChild e.
Proof. unfold withAfterIDOrFirstChild. by destruct (truthy a). Qed.

Section FirstRenderBatch.

Variable newNodeMap : gmap Z node.
Variable cp : node.
Variable cs : list node.
Variable st0 : state.
Hypothesis cs_parents : Forall hasParent cs.

(** The pending edits are the inserts of the children visited so far. *)
Definition insertsPending (st : state) : Prop :=
  map markLastChild (newEdits st)
  = map trailingInsert (take (currentIndex st) cs)
  /\ Forall (fun e => isTrailingKind e = true) (newEdits st)
  /\ queue st
     = queue st0
       ++ filter (fun c => isElement c = true) (take (currentIndex st) cs)
  /\ edits st = edits st0
  /\ moves st = moves st0.

Lemma drainCurrentStep_insertsPending st st' :
  insertsPending st ->
  drainCurrentStep ∅ cp cs st = Ok st' ->
  insertsPending st'.
Proof.
  intros (Hn & Hk & Hq & He & Hm) H. unfold drainCurrentStep in H.
  destruct (cs !! currentIndex st) as [c|] eqn:Ec; [|done]. simpl in H.
  pose proof (proj1 (Forall_lookup _ _) cs_parents _ _ Ec) as [p Hp].
  unfold addElementMove, addElementInsert, addTextInsert in H.
  rewrite lookupID_empty, Hp in H. simpl in H.
  unfold insertsPending.
  destruct (isElement c) eqn:Hel; simpl in H; injection H as <-; simpl;
    rewrite (take_S_r _ _ _ Ec), !map_app, filter_app, Forall_app, Hn, Hq;
    simpl; unfold trailingInsert, getParentID; rewrite Hel, Hp.
  - rewrite (filter_cons_True _ c []) by done.
    rewrite <- app_assoc. repeat split; try done.
    by apply Forall_singleton.
  - rewrite (filter_cons_False _ c []) by (simpl; congruence).
    rewrite app_nil_r, markLastChild_withAfterIDOrFirstChild.
    repeat split; try done.
    apply Forall_singleton. unfold isTrailingKind.
    by rewrite type_withAfterIDOrFirstChild.
Qed.

End FirstRenderBatch.

(** Without an old parent and with an empty old [nodeMap],
    [generateChildEdits] appends one trailing insert per child, in order, and
    enqueues the child elements. *)
Lemma generateChildEdits_first_render (nm : gmap Z node) (cp : node)
    (cs : list node) (st : state) :
  children cp = Some cs ->
  Forall hasParent cs ->
  exists st',
    generateChildEdits ∅ nm cp None st = Ok st'
    /\ edits st' = edits st ++ map trailingInsert cs
    /\ queue st' = queue st ++ filter (fun c => isElement c = true) cs
    /\ moves st' = moves st.
Proof.
  intros Hcs Hpar.
  assert (Htotal : exists st', generateChildEdits ∅ nm cp None st = Ok st').
  { unfold generateChildEdits, mbind, result_bind. rewrite Hcs. simpl.
    apply childLoops_total; [done|constructor|].
    unfold remaining. simpl. lia. }
  destruct Htotal as [st' Hrun]. exists st'. split; [done|].
  unfold generateChildEdits, mbind, result_bind in Hrun.
  rewrite Hcs in Hrun. simpl in Hrun.
  set (s0 := set_textAfterID undefined
               (set_newEdits [] (set_oldIndex 0 (set_currentIndex 0 st)))).
  fold s0 in Hrun.
  apply (childLoops_inv3 ∅ nm
           (insertsPending cs s0) (insertsPending cs s0)
           (insertsPending cs s0)) in Hrun
    as (s & (Hn & Hk & Hq & He & Hm) & Hc & ->).
  - unfold currentRemain in Hc. apply Nat.ltb_ge in Hc.
    rewrite take_ge in Hn, Hq by done.
    unfold finalizeRemaining. simpl. rewrite He, Hq, Hm.
    split; [|done]. f_equal. rewrite <- Hn. apply map_ext_Forall.
    eapply Forall_impl; [exact Hk|]. intros e Hkind.
    unfold isTrailingKind in Hkind. simpl. by rewrite Hkind.
  - intros s s' _ Hc. unfold bothRemain in Hc. simpl in Hc.
    by rewrite andb_false_r in Hc.
  - done.
  - intros s s' _ Hc. unfold oldRemain in Hc. simpl in Hc. done.
  - done.
  - intros s s' HI _. by apply drainCurrentStep_insertsPending.
  - repeat split; simpl; try done. by rewrite app_nil_r.
Qed.

(** ** Trees with unique identities *)

Lemma node_ind' (P : node -> Prop) :
  (forall c s p, P (Text c s p)) ->
  (forall i t a p s1 s2 s3 cs,
      Forall P cs -> P (Element i t a p s1 s2 s3 cs)) ->
  forall n, P n.
Proof.
  intros HT HE. fix IH 1. intros [i t a p s1 s2 s3 cs|c s p]; [|apply HT].
  apply HE.
  exact ((fix go (l : list node) : Forall P l :=
            match l with
            | [] => List.Forall_nil P
            | c :: l' => List.Forall_cons P c l' (IH c) (go l')
            end) cs).
Qed.

Lemma dnode_ind' (P : dnode -> Prop) :
  (forall c, P (DText c)) ->
  (forall i t a cs, Forall P cs -> P (DElement i t a cs)) ->
  forall n, P n.
Proof.
  intros HT HE. fix IH 1. intros [i t a cs|c]; [|apply HT].
  apply HE.
  exact ((fix go (l : list dnode) : Forall P l :=
            match l with
            | [] => List.Forall_nil P
            | c :: l' => List.Forall_cons P c l' (IH c) (go l')
            end) cs).
Qed.

(** The identities of the elements of a subtree, in document order. *)
Fixpoint ids (n : node) : list Z :=
  match n with
  | Element i _ _ _ _ _ _ cs => i :: flat_map ids cs
  | Text _ _ _ => []
  end.

(** The nodes of a subtree. *)
Fixpoint subtrees (n : node) : list node :=
  n :: match n with
       | Element _ _ _ _ _ _ _ cs => flat_map subtrees cs
       | Text _ _ _ => []
       end.

(** Every child points back to the element that holds it. *)
Fixpoint linked (n : node) : bool :=
  match n with
  | Element i _ _ _ _ _ _ cs =>
      forallb (fun c => bool_decide (getParentID c = num i) && linked c) cs
  | Text _ _ _ => true
  end.

(** The identities of the elements of a list of nodes (not of what is below
    them). *)
Definition topIds (l : list node) : list Z :=
  flat_map (fun n => match tagID n with num i => [i] | _ => [] end) l.

(** A node as its insert creates it in the mirror: without children. *)
Definition stub (c : node) : dnode :=
  match c with
  | Element i t a _ _ _ _ _ => DElement i t a []
  | Text c _ _ => DText c
  end.

(** The new tree as far as it is built while the elements with the
    identities [pending] still wait in the queue for their children. *)
Fixpoint grow (pending : list Z) (n : node) : dnode :=
  match n with
  | Element i t a _ _ _ _ cs =>
      DElement i t a
        (if bool_decide (i ∈ pending) then [] else map (grow pending) cs)
  | Text c _ _ => DText c
  end.

Lemma grow_nil (n : node) : grow [] n = toDom n.
Proof.
  induction n as [|i t a p s1 s2 s3 cs IH] using node_ind'; [done|].
  simpl. f_equal. by apply map_ext_Forall.
Qed.

Lemma grow_ext (P P' : list Z) (n : node) :
  (forall j, j ∈ ids n -> (j ∈ P <-> j ∈ P')) ->
  grow P n = grow P' n.
Proof.
  induction n as [|i t a p s1 s2 s3 cs IH] using node_ind'; [done|].
  intros Hagree. simpl.
  assert (Hi : i ∈ P <-> i ∈ P') by (apply Hagree; left).
  rewrite (bool_decide_ext _ _ Hi). destruct (bool_decide (i ∈ P')); [done|].
  f_equal. apply map_ext_Forall.
  apply Forall_forall. intros c Hc.
  apply (proj1 (Forall_forall _ _) IH c Hc).
  intros j Hj. apply Hagree. right.
  apply elem_of_flat_map. by exists c.
Qed.

Lemma topIds_app (a b : list node) : topIds (a ++ b) = topIds a ++ topIds b.
Proof. unfold topIds. by rewrite flat_map_app. Qed.

Lemma topIds_elements (cs : list node) :
  topIds (filter (fun c => isElement c = true) cs) = topIds cs.
Proof.
  induction cs as [|c cs IH]; [done|]. rewrite filter_cons.
  destruct c; simpl; [by rewrite <- IH | exact IH].
Qed.

Lemma elem_of_topIds (j : Z) (l : list node) :
  j ∈ topIds l <-> exists c, c ∈ l /\ tagID c = num j.
Proof.
  unfold topIds. rewrite elem_of_flat_map. split.
  - intros (c & Hc & Hj). exists c. split; [done|].
    destruct c; simpl in *; [|by apply elem_of_nil in Hj].
    by apply list_elem_of_singleton in Hj as ->.
  - intros (c & Hc & Hj). exists c. split; [done|]. rewrite Hj. left.
Qed.

Lemma topIds_ids (j : Z) (l : list node) :
  j ∈ topIds l -> j ∈ flat_map ids l.
Proof.
  intros (c & Hc & Hj)%elem_of_topIds. apply elem_of_flat_map.
  exists c. split; [done|]. destruct c; [|done]. injection Hj as ->. left.
Qed.

Lemma ids_subtrees (n T : node) (j : Z) :
  n ∈ subtrees T -> j ∈ ids n -> j ∈ ids T.
Proof.
  induction T as [|i t a p s1 s2 s3 cs IH] using node_ind'; simpl.
  - intros ->%list_elem_of_singleton. done.
  - intros [->|Hn]%elem_of_cons Hj; [done|]. right.
    apply elem_of_flat_map in Hn as (c & Hc & Hn).
    apply elem_of_flat_map. exists c. split; [done|].
    by apply (proj1 (Forall_forall _ _) IH c Hc).
Qed.

Lemma subtrees_children (n T c : node) (cs : list node) :
  n ∈ subtrees T -> children n = Some cs -> c ∈ cs -> c ∈ subtrees T.
Proof.
  induction T as [|i t a p s1 s2 s3 cs' IH] using node_ind'; simpl.
  - intros ->%list_elem_of_singleton. done.
  - intros [->|Hn]%elem_of_cons Hcs Hc.
    + injection Hcs as <-. right. apply elem_of_flat_map. exists c.
      split; [done|]. destruct c; left.
    + right. apply elem_of_flat_map in Hn as (c' & Hc' & Hn).
      apply elem_of_flat_map. exists c'. split; [done|].
      by apply (proj1 (Forall_forall _ _) IH c' Hc').
Qed.

Lemma linked_children (n : node) (cs : list node) (c : node) :
  linked n = true -> children n = Some cs -> c ∈ cs ->
  getParentID c = tagID n /\ linked c = true.
Proof.
  destruct n as [i t a p s1 s2 s3 cs'|]; [|done]. simpl.
  intros Hl [= <-] Hc. rewrite forallb_forall in Hl.
  apply list_elem_of_In, Hl, andb_true_iff in Hc as [Hp Hc].
  by apply bool_decide_eq_true in Hp.
Qed.

Lemma linked_subtrees (n T : node) :
  linked T = true -> n ∈ subtrees T -> linked n = true.
Proof.
  induction T as [|i t a p s1 s2 s3 cs IH] using node_ind'.
  - by intros _ ->%list_elem_of_singleton.
  - intros Hl [->|Hn]%elem_of_cons; [done|].
    apply elem_of_flat_map in Hn as (c & Hc & Hn).
    apply (proj1 (Forall_forall _ _) IH c Hc); [|done].
    by destruct (linked_children _ cs c Hl eq_refl Hc).
Qed.

Lemma linked_parentsSet (n : node) : linked n = true -> parentsSet n = true.
Proof.
  induction n as [|i t a p s1 s2 s3 cs IH] using node_ind'; [done|].
  simpl. rewrite !forallb_forall. intros Hl c Hc.
  pose proof (Hl c Hc) as [Hp Hlc]%andb_true_iff.
  apply bool_decide_eq_true in Hp. apply andb_true_iff. split.
  - apply bool_decide_eq_true. unfold getParentID in Hp.
    destruct (parent c); [by eexists | done].
  - apply list_elem_of_In in Hc.
    by apply (proj1 (Forall_forall _ _) IH c Hc).
Qed.

Lemma NoDup_flat_map_elem {A B} (f : A -> list B) (l : list A) (a : A) :
  NoDup (flat_map f l) -> a ∈ l -> NoDup (f a).
Proof.
  induction l as [|x l IH]; simpl; [by intros _ ?%elem_of_nil|].
  intros [Hx [_ Hl]]%NoDup_app [->|Ha]%elem_of_cons; [done | by apply IH].
Qed.

Lemma NoDup_flat_map_same {A B} (f : A -> list B) (l : list A) (a b : A)
    (x : B) :
  NoDup (flat_map f l) -> a ∈ l -> b ∈ l -> x ∈ f a -> x ∈ f b -> a = b.
Proof.
  induction l as [|y l IH]; simpl; [by intros _ ?%elem_of_nil|].
  intros [Hy [Hdis Hl]]%NoDup_app [->|Ha]%elem_of_cons [->|Hb]%elem_of_cons
    Hxa Hxb; [done| | |by apply IH].
  - exfalso. apply (Hdis x Hxa). apply elem_of_flat_map. by exists b.
  - exfalso. apply (Hdis x Hxb). apply elem_of_flat_map. by exists a.
Qed.

(** ** Replaying a batch of trailing inserts *)

(** Appends [xs] to the children of the element with identity [id]. *)
Definition appendAt (id : Z) (xs : list dnode) (n : dnode) : dnode :=
  onElement id (fun l => l ++ xs) n.

(** A childless node that is not the element [id]. *)
Definition quietStub (id : Z) (d : dnode) : Prop :=
  match d with
  | DElement j _ _ cs => j <> id /\ cs = []
  | DText _ => True
  end.

Lemma appendAt_quietStub id xs d : quietStub id d -> appendAt id xs d = d.
Proof.
  destruct d as [j t a cs|c]; [|done]. intros [Hj ->].
  unfold appendAt. simpl. by rewrite (proj2 (Z.eqb_neq j id) Hj).
Qed.

Lemma appendAt_nil id n : appendAt id [] n = n.
Proof.
  unfold appendAt.
  induction n as [|i t a cs IH] using dnode_ind'; [done|]. simpl.
  assert (Hcs : map (onElement id (fun l => l ++ [])) cs = cs).
  { rewrite <- (map_id cs) at 2. by apply map_ext_Forall. }
  rewrite Hcs. destruct (i =? id)%Z; [by rewrite app_nil_r | done].
Qed.

Lemma appendAt_snoc id done x n :
  Forall (quietStub id) done ->
  appendAt id [x] (appendAt id done n) = appendAt id (done ++ [x]) n.
Proof.
  intros Hdone. unfold appendAt.
  induction n as [|i t a cs IH] using dnode_ind'; [done|]. simpl.
  assert (Hcs : map (onElement id (fun l => l ++ [x]))
                  (map (onElement id (fun l => l ++ done)) cs)
                = map (onElement id (fun l => l ++ done ++ [x])) cs).
  { rewrite map_map. by apply map_ext_Forall. }
  destruct (i =? id)%Z; f_equal; [|exact Hcs].
  rewrite map_app, Hcs, <- !app_assoc. do 2 f_equal.
  rewrite <- (map_id done) at 2. apply map_ext_Forall.
  eapply Forall_impl; [exact Hdone|]. intros d Hd.
  by apply (appendAt_quietStub id [x]).
Qed.

Lemma applyEdit_trailingInsert m c i :
  getParentID c = num i ->
  applyEdit m (trailingInsert c)
  = mkMirror (map (appendAt i [stub c]) (document m)) (held m).
Proof.
  unfold getParentID. destruct c as [j t a p s1 s2 s3 cs|s g p]; simpl;
    (destruct p as [p|]; [|done]); intros [= <-]; reflexivity.
Qed.

Lemma applyEdits_trailingInserts i cs :
  forall done f h,
    Forall (fun c => getParentID c = num i) cs ->
    Forall (quietStub i) done ->
    Forall (quietStub i) (map stub cs) ->
    applyEdits (map trailingInsert cs) (mkMirror (map (appendAt i done) f) h)
    = mkMirror (map (appendAt i (done ++ map stub cs)) f) h.
Proof.
  induction cs as [|c cs IH]; intros done f h Hpar Hdone Hstubs; simpl.
  - by rewrite app_nil_r.
  - apply Forall_cons in Hpar as [Hc Hpar].
    apply Forall_cons in Hstubs as [Hs Hstubs].
    unfold applyEdits in *. simpl.
    rewrite (applyEdit_trailingInsert _ c i Hc). simpl.
    rewrite map_map.
    rewrite (map_ext _ (appendAt i (done ++ [stub c])))
      by (intros n; by apply appendAt_snoc).
    rewrite IH; [|done| |done].
    + by rewrite <- app_assoc.
    + apply Forall_app. split; [done|]. by apply Forall_singleton.
Qed.

Lemma applyEdits_batch i cs f h :
  Forall (fun c => getParentID c = num i) cs ->
  Forall (quietStub i) (map stub cs) ->
  applyEdits (map trailingInsert cs) (mkMirror f h)
  = mkMirror (map (appendAt i (map stub cs)) f) h.
Proof.
  intros Hpar Hstubs.
  rewrite <- (map_id f) at 1.
  rewrite (map_ext id (appendAt i [])) by (intros n; by rewrite appendAt_nil).
  by rewrite applyEdits_trailingInserts.
Qed.

Lemma applyEdits_app es es' m :
  applyEdits (es ++ es') m = applyEdits es' (applyEdits es m).
Proof. unfold applyEdits. apply fold_left_app. Qed.

(** ** Growing the mirror by the children of one element *)

Lemma appendAt_absent (i0 : Z) (xs : list dnode) (P : list Z) (T : node) :
  i0 ∉ ids T -> appendAt i0 xs (grow P T) = grow P T.
Proof.
  unfold appendAt.
  induction T as [|i t a p s1 s2 s3 cs IH] using node_ind'; [done|].
  simpl. intros [Hi Hcs]%not_elem_of_cons.
  rewrite (proj2 (Z.eqb_neq i i0)) by congruence.
  destruct (bool_decide (i ∈ P)); [done|]. f_equal.
  rewrite map_map. apply map_ext_Forall.
  apply Forall_forall. intros c Hc.
  apply (proj1 (Forall_forall _ _) IH c Hc).
  intros Hin. apply Hcs. apply elem_of_flat_map. by exists c.
Qed.

Lemma grow_pending_children (P : list Z) (cs : list node) :
  (forall j, j ∈ topIds cs -> j ∈ P) ->
  map (grow P) cs = map stub cs.
Proof.
  intros HP. apply map_ext_Forall. apply Forall_forall. intros c Hc.
  destruct c as [j t a p s1 s2 s3 cs'|]; [|done]. simpl.
  rewrite bool_decide_eq_true_2; [done|].
  apply HP. apply elem_of_topIds. by eexists.
Qed.

(** Appending the stubs of the children of the pending element [n0] turns
    the tree grown for [P] into the tree grown for [P'], where [n0] is no
    longer pending and its child elements are. *)
Lemma appendAt_grow (P P' : list Z) (i0 : Z) (n0 : node) (cs0 : list node)
    (T : node) :
  children n0 = Some cs0 ->
  tagID n0 = num i0 ->
  i0 ∈ P ->
  (forall j, j ∈ P' <-> (j ∈ P /\ j <> i0) \/ j ∈ topIds cs0) ->
  NoDup (ids T) ->
  ((n0 ∈ subtrees T)
   \/ ((i0 ∉ ids T) /\ (forall j, j ∈ topIds cs0 -> j ∉ ids T))) ->
  appendAt i0 (map stub cs0) (grow P T) = grow P' T.
Proof.
  intros Hcs0 Hid0 HiP HP'.
  assert (Hn0 : ids n0 = i0 :: flat_map ids cs0).
  { destruct n0; [|done]. simpl in *.
    injection Hcs0 as ->. by injection Hid0 as ->. }
  induction T as [|i t a p s1 s2 s3 cs IH] using node_ind'; [done|].
  intros Hnd [Hsub|[Habs Hdis]].
  2: { rewrite appendAt_absent by done. apply grow_ext.
       intros j Hj. rewrite HP'. split.
       - intros HjP. left. split; [done|]. intros ->. done.
       - intros [[? _]|Hjc]; [done|]. by destruct (Hdis j Hjc). }
  simpl in Hnd. apply NoDup_cons in Hnd as [Hi Hnd].
  simpl in Hsub. apply elem_of_cons in Hsub as [->|Hsub].
  - (* the pending element itself *)
    simpl in Hcs0, Hid0. injection Hcs0 as <-. injection Hid0 as <-.
    unfold appendAt. simpl.
    rewrite (bool_decide_eq_true_2 _ HiP). simpl. rewrite Z.eqb_refl.
    rewrite bool_decide_eq_false_2.
    + f_equal. symmetry. apply grow_pending_children.
      intros j Hj. apply HP'. by right.
    + rewrite HP'. intros [[_ ?]|Hic]; [done|].
      by apply Hi, topIds_ids.
  - (* the pending element is further down *)
    apply elem_of_flat_map in Hsub as (c' & Hc' & Hsub).
    assert (Hi0c' : i0 ∈ ids c').
    { apply (ids_subtrees n0); [done|]. rewrite Hn0. left. }
    assert (Hne : i <> i0).
    { intros ->. apply Hi. apply elem_of_flat_map. by exists c'. }
    assert (Htop : forall j, j ∈ topIds cs0 -> j ∈ ids c').
    { intros j Hj. apply (ids_subtrees n0); [done|]. rewrite Hn0. right.
      by apply topIds_ids. }
    unfold appendAt. simpl.
    rewrite (proj2 (Z.eqb_neq i i0) Hne).
    assert (HiP' : i ∈ P <-> i ∈ P').
    { rewrite HP'. split; [by left|]. intros [[? _]|Hic]; [done|].
      exfalso. apply Hi. apply elem_of_flat_map. exists c'. auto. }
    rewrite (bool_decide_ext _ _ HiP').
    destruct (bool_decide (i ∈ P')); [done|]. f_equal.
    rewrite map_map. apply map_ext_Forall.
    apply Forall_forall. intros c Hc.
    apply (proj1 (Forall_forall _ _) IH c Hc).
    + by apply (NoDup_flat_map_elem ids cs).
    + destruct (decide (i0 ∈ ids c)) as [Hin|Hnin].
      * left.
        by rewrite (NoDup_flat_map_same ids cs c c' i0 Hnd Hc Hc' Hin Hi0c').
      * right. split; [done|]. intros j Hj Hjc. apply Hnin.
        by rewrite (NoDup_flat_map_same ids cs c c' j Hnd Hc Hc' Hjc
                      (Htop j Hj)).
Qed.

(** ** The driver on a first render *)

Section FirstRender.

Variable newNodeMap : gmap Z node.
Variable T : node.
Hypothesis T_linked : linked T = true.
Hypothesis T_unique : NoDup (ids T).

(** Replaying the output so far gives the new tree, grown down to the
    elements that wait in the queue. *)
Definition renderInv (st : state) : Prop :=
  applyEdits (edits st) (mkMirror [] [])
  = mkMirror [grow (topIds (queue st)) T] []
  /\ Forall (fun n => n ∈ subtrees T /\ isElement n = true /\ hasParent n)
       (queue st)
  /\ NoDup (flat_map ids (queue st))
  /\ moves st = [].

Lemma children_facts (n0 : node) (i0 : Z) (cs0 : list node) :
  n0 ∈ subtrees T ->
  tagID n0 = num i0 ->
  children n0 = Some cs0 ->
  NoDup (ids n0) ->
  Forall (fun c => getParentID c = num i0) cs0
  /\ Forall hasParent cs0
  /\ Forall (quietStub i0) (map stub cs0)
  /\ Forall (fun c => c ∈ subtrees T) cs0.
Proof.
  intros Hsub Hid Hcs Hnd.
  pose proof (linked_subtrees _ _ T_linked Hsub) as Hl.
  assert (Hpar : Forall (fun c => getParentID c = num i0) cs0).
  { apply Forall_forall. intros c Hc.
    destruct (linked_children n0 cs0 c Hl Hcs Hc) as [-> _]. done. }
  split; [done|]. split; [|split].
  - eapply Forall_impl; [exact Hpar|]. intros c Hc. unfold hasParent.
    unfold getParentID in Hc. destruct (parent c); [by eexists | done].
  - apply Forall_map, Forall_forall. intros c Hc.
    destruct c as [j t a p s1 s2 s3 cs'|]; [|done]. simpl. split; [|done].
    intros ->. destruct n0; [|done]. simpl in *.
    injection Hid as ->. injection Hcs as ->.
    apply NoDup_cons in Hnd as [Hi _]. apply Hi.
    apply elem_of_flat_map. eexists. split; [exact Hc | left].
  - apply Forall_forall. intros c Hc. by eapply subtrees_children.
Qed.

Lemma flat_map_ids_elements (cs : list node) :
  flat_map ids (filter (fun c => isElement c = true) cs) = flat_map ids cs.
Proof.
  induction cs as [|c cs IH]; [done|]. rewrite filter_cons.
  destruct c; simpl; [by rewrite <- IH | exact IH].
Qed.

(** One turn of the driver on an element that is not the root. *)
Lemma driverStep_renderInv (st st' : state) :
  renderInv st ->
  driverStep ∅ newNodeMap st = Ok st' ->
  renderInv st'.
Proof.
  intros (Hmirror & Hq & Hnd & Hmoves) H.
  pose proof (driverStep_queue_nonempty _ _ _ _ H) as Hne.
  destruct (exists_last Hne) as (rest & n0 & Eq).
  rewrite Eq in Hq, Hnd, Hmirror.
  apply Forall_app in Hq as [Hrest Hn0]. rewrite Forall_singleton in Hn0.
  destruct Hn0 as (Hsub & Hel & [p Hp]).
  destruct n0 as [i0 t a p0 s1 s2 s3 cs0|]; [|done]. simpl in Hp. subst p0.
  rewrite flat_map_app in Hnd. simpl in Hnd. rewrite app_nil_r in Hnd.
  apply NoDup_app in Hnd as (Hndrest & Hdis & Hndn0).
  destruct (children_facts _ i0 cs0 Hsub eq_refl eq_refl Hndn0)
    as (Hpar & Hhas & Hstubs & Hsubs).
  unfold driverStep in H. rewrite Eq, pop_snoc in H. simpl in H.
  rewrite lookup_empty in H.
  destruct (generateChildEdits_first_render newNodeMap
              (Element i0 t a (Some p) s1 s2 s3 cs0) cs0
              (set_queue rest st) eq_refl Hhas)
    as (s & Hrun & He & Hqs & Hm).
  rewrite Hrun in H. injection H as <-. simpl in He, Hqs, Hm.
  split; [|split; [|split]].
  - rewrite He, applyEdits_app, Hmirror, Hqs.
    rewrite (applyEdits_batch i0) by done. simpl. do 2 f_equal.
    apply (appendAt_grow _ _ i0 (Element i0 t a (Some p) s1 s2 s3 cs0) cs0);
      try done.
    + rewrite topIds_app. apply elem_of_app. right. left.
    + intros j. rewrite !topIds_app, topIds_elements. simpl.
      rewrite !elem_of_app, list_elem_of_singleton. split.
      * intros [Hj|Hj]; [|by right]. left. split; [by left|].
        intros ->. apply (Hdis i0); [by apply topIds_ids | left].
      * intros [[[Hj|Hj] Hne']|Hj]; [by left|done|by right].
    + by left.
  - rewrite Hqs. apply Forall_app. split; [done|].
    apply Forall_forall. intros c [Hc Hcin]%list_elem_of_filter.
    split; [|split; [done|]].
    + by apply (proj1 (Forall_forall _ _) Hsubs).
    + by apply (proj1 (Forall_forall _ _) Hhas).
  - rewrite Hqs, flat_map_app, flat_map_ids_elements.
    simpl in Hndn0. apply NoDup_cons in Hndn0 as [_ Hndcs].
    apply NoDup_app. split; [done|]. split; [|done].
    intros j Hj Hjc. apply (Hdis j Hj). by right.
  - by rewrite Hm.
Qed.

(** The first turn: the root is inserted, then its children. *)
Lemma driverStep_initial i0 t a s1 s2 s3 cs0 :
  T = Element i0 t a None s1 s2 s3 cs0 ->
  exists st',
    driverStep ∅ newNodeMap (initialState T) = Ok st' /\ renderInv st'.
Proof.
  intros ET. unfold renderInv.
  pose proof T_unique as Hu.
  assert (Hsub : T ∈ subtrees T) by (rewrite ET; left).
  rewrite ET in Hu. rewrite ET in Hsub at 1.
  destruct (children_facts _ i0 cs0 Hsub eq_refl eq_refl Hu)
    as (Hpar & Hhas & Hstubs & Hsubs).
  rewrite ET.
  unfold driverStep, pop. simpl. rewrite lookup_empty.
  match goal with
  | |- context [generateChildEdits _ _ _ None ?X] => set (s0 := X)
  end.
  destruct (generateChildEdits_first_render newNodeMap
              (Element i0 t a None s1 s2 s3 cs0) cs0 s0 eq_refl Hhas)
    as (s & Hrun & He & Hqs & Hm).
  exists s. split; [done|]. simpl in He, Hqs, Hm.
  split; [|split; [|split]].
  - rewrite He.
    change (applyEdits (map trailingInsert cs0)
              (mkMirror [DElement i0 t a []] [])
            = mkMirror
                [grow (topIds (queue s)) (Element i0 t a None s1 s2 s3 cs0)]
                []).
    rewrite (applyEdits_batch i0) by done.
    replace (DElement i0 t a [])
      with (grow [i0] (Element i0 t a None s1 s2 s3 cs0))
      by (simpl; rewrite bool_decide_eq_true_2; [done|left]).
    change (map ?f [?x]) with [f x]. do 2 f_equal.
    rewrite Hqs, topIds_elements.
    apply (appendAt_grow [i0] _ i0 (Element i0 t a None s1 s2 s3 cs0) cs0
             (Element i0 t a None s1 s2 s3 cs0)); try done.
    + left.
    + intros j. rewrite list_elem_of_singleton. split; [by right|].
      intros [[? ?]|?]; done.
    + left. left.
  - rewrite Hqs. apply Forall_forall.
    intros c [Hc Hcin]%list_elem_of_filter. split; [|split; [done|]].
    + pose proof (proj1 (Forall_forall _ _) Hsubs c Hcin) as Hx.
      rewrite ET in Hx. exact Hx.
    + by apply (proj1 (Forall_forall _ _) Hhas).
  - rewrite Hqs, flat_map_ids_elements.
    simpl in Hu. by apply NoDup_cons in Hu as [_ ?].
  - by rewrite Hm.
Qed.

End FirstRender.

(** ** The round trip of a first render *)

Lemma sameStructure_refl (d : dnode) : sameStructure d d.
Proof.
  induction d as [c|i t a cs IH] using dnode_ind'; constructor; [done|].
  induction IH; constructor; done.
Qed.

(** Replaying the edits of a first render on an empty mirror builds the new
    tree, identities included. *)
Lemma first_render_replay (newNode : dom) :
  isElement (root newNode) = true ->
  parent (root newNode) = None ->
  linked (root newNode) = true ->
  NoDup (ids (root newNode)) ->
  exists es,
    domdiff None newNode = Ok es
    /\ applyEdits es (mirrorOf None) = mkMirror [toDom (root newNode)] [].
Proof.
  intros Hel Hroot Hlinked Hnd.
  destruct (domdiff_run_total None newNode) as [st Hrun].
  { split; [split; [done | by apply linked_parentsSet]|].
    apply map_Forall_empty. }
  { apply map_Forall_empty. }
  unfold domdiff. rewrite Hrun. simpl. eexists. split; [done|].
  unfold domdiff_run in Hrun. simpl in Hrun.
  apply (do_while_inv
           (fun s => s = initialState (root newNode)
                     \/ renderInv (root newNode) s)) in Hrun
    as [[->|(Hmirror & _ & _ & Hmoves)] Hc]; [done| | |by left].
  - unfold queueNonEmpty in Hc. destruct (queue st); [|done].
    unfold withRememberNodes. rewrite Hmoves. simpl.
    unfold mirrorOf. rewrite Hmirror. simpl. by rewrite grow_nil.
  - intros s s' [->|HI] Hstep.
    + right. destruct (root newNode) as [i0 t a p0 s1 s2 s3 cs0|] eqn:ET;
        [|done].
      simpl in Hroot. subst p0. rewrite <- ET in *.
      destruct (driverStep_initial (nodeMap newNode) (root newNode)
                  Hlinked Hnd _ _ _ _ _ _ _ ET) as (s1' & Hs1 & HI).
      rewrite Hs1 in Hstep. by injection Hstep as <-.
    + right. by eapply driverStep_renderInv.
Qed.

(** The round trip of a first render.  Where there is no old tree and the
    new tree has an element root without a parent, children that point back
    to their parent and pairwise different element identities, [domdiff]
    returns an edit sequence, and applying it in order to the empty mirror
    yields a tree structurally equivalent to the new tree: the same tag
    names, attribute maps, text content and child order at every node. *)
Theorem first_render_round_trip (newNode : dom) :
  isElement (root newNode) = true ->
  parent (root newNode) = None ->
  linked (root newNode) = true ->
  NoDup (ids (root newNode)) ->
  roundTrip None newNode.
Proof.
  intros Hel Hroot Hlinked Hnd.
  destruct (first_render_replay newNode Hel Hroot Hlinked Hnd)
    as (es & Hes & Hreplay).
  exists es, (toDom (root newNode)). split; [done|].
  rewrite Hreplay. split; [done | apply sameStructure_refl].
Qed.

Module FirstRenderExample.

(** A first render of [<div id=main>hi<span>x</span><p></p></div>]. *)
Definition x : node := Text "x" 40 (Some (mkParent 2 1)).
Definition span : node :=
  Element 2 "span" [] (Some (mkParent 1 3)) 20 21 22 [x].
Definition hi : node := Text "hi" 50 (Some (mkParent 1 3)).
Definition p : node := Element 3 "p" [] (Some (mkParent 1 3)) 30 31 32 [].
Definition new_root : node :=
  Element 1 "div" [("id", "main")] None 10 11 12 [hi; span; p].
Definition new : dom :=
  mkDom new_root (list_to_map [(1, new_root); (2, span); (3, p)]).

End FirstRenderExample.

Lemma first_render_round_trip_witness :
  roundTrip None FirstRenderExample.new.
Proof.
  apply (first_render_round_trip FirstRenderExample.new).
  - reflexivity.
  - reflexivity.
  - reflexivity.
  - apply (bool_decide_unpack _). vm_compute. exact I.
Defined.

(** The round trip does not hold for every pair of trees with unique
    identities.  Two siblings that swap places, all identities different:
    [domdiff] returns no edit at all, so the replay leaves the old child
    order. *)
Lemma reordered_siblings_counterexample :
  NoDup (ids (root ReorderExample.old))
  /\ NoDup (ids (root ReorderExample.new))
  /\ domdiff (Some ReorderExample.old) ReorderExample.new = Ok []
  /\ ~ roundTrip (Some ReorderExample.old) ReorderExample.new.
Proof.
  split; [apply (bool_decide_unpack _); vm_compute; exact I|].
  split; [apply (bool_decide_unpack _); vm_compute; exact I|].
  split; [reflexivity|].
  intros (es & d & Hes & Hdoc & Hsame).
  vm_compute in Hes. injection Hes as <-.
  vm_compute in Hdoc. injection Hdoc as <-.
  vm_compute in Hsame.
  inversion Hsame as [|? ? ? ? ? ? ? _ Hchildren].
  inversion Hchildren as [|? ? ? ? Hfirst _].
  inversion Hfirst.
Qed.

Module ReplacedExample.

(** The element 2 and the text behind it give way to the element 3. *)
Definition e2 : node := Element 2 "b" [] (Some (mkParent 1 2)) 20 21 22 [].
Definition e3 : node := Element 3 "i" [] (Some (mkParent 1 1)) 30 31 32 [].
Definition old_root : node :=
  Element 1 "div" [] None 10 11 12 [e2; Text "a" 5 (Some (mkParent 1 2))].
Definition new_root : node := Element 1 "div" [] None 10 41 42 [e3].
Definition old : dom :=
  mkDom old_root (list_to_map [(1, old_root); (2, e2)]).
Definition new : dom :=
  mkDom new_root (list_to_map [(1, new_root); (3, e3)]).

End ReplacedExample.

(** Nor does it hold whenever no anomaly is logged: here the [textDelete] is
    anchored after the element that was just appended, and the replay keeps
    the text. *)
Lemma replaced_element_no_round_trip :
  (exists st,
     domdiff_run (Some ReplacedExample.old) ReplacedExample.new = Ok st
     /\ console st = [])
  /\ ~ roundTrip (Some ReplacedExample.old) ReplacedExample.new.
Proof.
  split; [eexists; split; [vm_compute; reflexivity | reflexivity]|].
  intros (es & d & Hes & Hdoc & Hsame).
  vm_compute in Hes. injection Hes as <-.
  vm_compute in Hdoc. injection Hdoc as <-.
  vm_compute in Hsame.
  inversion Hsame as [|? ? ? ? ? ? ? _ Hchildren].
  inversion Hchildren as [|? ? ? ? Hfirst _].
  inversion Hfirst.
Qed.

(** * Further properties of the attribute differ *)

(** The appended edit that names an attribute, if there is one. *)
Definition editNaming (k : string) (es : list edit) : option edit :=
  List.find (fun e => bool_decide (attribute e = Some k)) es.

Lemma elem_of_spec_attributeEdits (id : jsid) (oldAttrs newAttrs : attrs)
    (e : edit) :
  e ∈ spec_attributeEdits id oldAttrs newAttrs <->
    (exists k v, (k, v) ∈ newAttrs
                 /\ e ∈ spec_newNameEdits id oldAttrs (k, v))
    \/ (exists k, e = attrEdit attrDelete id k None
                  /\ k ∈ keys oldAttrs /\ attr_get k newAttrs = None).
Proof.
  unfold spec_attributeEdits.
  rewrite elem_of_app, elem_of_flat_map, list_elem_of_fmap. split.
  - intros [([k v] & Hin & He)|(k & -> & Hk)].
    + left. by exists k, v.
    + apply list_elem_of_filter in Hk as [Hn Hk]. right. by exists k.
  - intros [(k & v & Hin & He)|(k & -> & Hk & Hn)].
    + left. by exists (k, v).
    + right. exists k. split; [done|]. by apply list_elem_of_filter.
Qed.

(** An appended edit that names [k] carries the new value of [k]. *)
Lemma spec_attributeEdits_value (id : jsid) (oldAttrs newAttrs : attrs)
    (e : edit) (k : string) :
  NoDup (keys newAttrs) ->
  e ∈ spec_attributeEdits id oldAttrs newAttrs ->
  attribute e = Some k ->
  value e = attr_get k newAttrs.
Proof.
  intros Hnd He Hk. apply elem_of_spec_attributeEdits in He.
  destruct He as [(k' & v & Hin & He)|(k' & -> & _ & Hn)].
  - pose proof (attr_get_NoDup k' v newAttrs Hnd Hin) as Hget.
    apply elem_of_spec_newNameEdits in He. simpl in He.
    destruct He as [[-> _]|(v' & -> & _)]; simpl in *;
      injection Hk as ->; by rewrite Hget.
  - simpl in *. injection Hk as ->. by rewrite Hn.
Qed.

(** A name on which the two attribute objects differ is named by an edit. *)
Lemma spec_attributeEdits_names (id : jsid) (oldAttrs newAttrs : attrs)
    (k : string) :
  attr_get k oldAttrs <> attr_get k newAttrs ->
  exists e, e ∈ spec_attributeEdits id oldAttrs newAttrs
            /\ attribute e = Some k.
Proof.
  intros Hne. destruct (attr_get k newAttrs) as [v|] eqn:Hn.
  - pose proof (attr_get_Some_elem _ _ _ Hn) as Hin.
    destruct (attr_get k oldAttrs) as [v'|] eqn:Ho.
    + exists (attrEdit attrChange id k (Some v)). split; [|done].
      apply elem_of_spec_attributeEdits. left. exists k, v. split; [done|].
      apply elem_of_spec_newNameEdits. right. exists v'. simpl.
      split; [done|]. split; [done|]. congruence.
    + exists (attrEdit attrAdd id k (Some v)). split; [|done].
      apply elem_of_spec_attributeEdits. left. exists k, v. split; [done|].
      apply elem_of_spec_newNameEdits. left. by simpl.
  - exists (attrEdit attrDelete id k None). split; [|done].
    apply elem_of_spec_attributeEdits. right. exists k. split; [done|].
    split; [|done]. destruct (decide (k ∈ keys oldAttrs)) as [|Hk]; [done|].
    apply attr_get_None_keys in Hk. congruence.
Qed.

Lemma editNaming_Some (k : string) (es : list edit) (e : edit) :
  editNaming k es = Some e -> e ∈ es /\ attribute e = Some k.
Proof.
  unfold editNaming. intros H. apply find_some in H as [Hin Hk].
  split; [by apply list_elem_of_In | by apply bool_decide_eq_true in Hk].
Qed.

Lemma editNaming_None (k : string) (es : list edit) (e : edit) :
  editNaming k es = None -> e ∈ es -> attribute e <> Some k.
Proof.
  unfold editNaming. intros H Hin Hk.
  apply list_elem_of_In in Hin.
  pose proof (find_none _ _ H e Hin) as Hf. simpl in Hf.
  by apply bool_decide_eq_false in Hf.
Qed.

Lemma NoDup_names_newNameEdits (id : jsid) (oldAttrs : attrs) (l : attrs) :
  NoDup (keys l) ->
  NoDup (map attribute (flat_map (spec_newNameEdits id oldAttrs) l))
  /\ (forall k, Some k ∈ map attribute
                         (flat_map (spec_newNameEdits id oldAttrs) l) ->
                k ∈ keys l).
Proof.
  unfold keys. induction l as [|[k v] l IH]; simpl; intros Hnd.
  - split; [constructor | intros k Hk; by apply elem_of_nil in Hk].
  - apply NoDup_cons in Hnd as [Hk Hnd]. destruct (IH Hnd) as [IH1 IH2].
    rewrite map_app.
    assert (Hhead : forall x,
              x ∈ map attribute (spec_newNameEdits id oldAttrs (k, v)) ->
              x = Some k).
    { intros x Hx. apply list_elem_of_fmap in Hx as (e & -> & He).
      apply elem_of_spec_newNameEdits in He.
      destruct He as [[-> _]|(? & -> & _)]; done. }
    split.
    + apply NoDup_app. split; [|split; [|done]].
      * unfold spec_newNameEdits. simpl. destruct (attr_get k oldAttrs).
        -- case_bool_decide; [constructor | apply NoDup_singleton].
        -- apply NoDup_singleton.
      * intros x Hx Hx'. rewrite (Hhead x Hx) in Hx'. by apply IH2 in Hx'.
    + intros k' Hk'. apply elem_of_app in Hk' as [Hk'|Hk'].
      * apply Hhead in Hk'. injection Hk' as ->. left.
      * right. by apply IH2.
Qed.

(** X1. After a call of [generateAttributeEdits] that returns, the appended
    edits tell the new attribute object from the old one: no two of them
    name the same attribute, an attribute named by an edit has the [value] of
    that edit as its new value (none, for an [attrDelete]), and an attribute
    that no edit names has the same value, or is absent, in both objects. *)
Theorem generateAttributeEdits_determines (edits : list edit)
    (oldNode newNode : node) (oldAttrs newAttrs : attrs) (es : list edit) :
  attributes oldNode = Some oldAttrs ->
  attributes newNode = Some newAttrs ->
  NoDup (keys oldAttrs) ->
  NoDup (keys newAttrs) ->
  generateAttributeEdits edits oldNode newNode = Ok es ->
  exists added,
    es = edits ++ added
    /\ NoDup (map attribute added)
    /\ forall k,
         attr_get k newAttrs
         = match editNaming k added with
           | Some e => value e
           | None => attr_get k oldAttrs
           end.
Proof.
  intros Hold Hnew Hndo Hndn Hrun.
  exists (spec_attributeEdits (tagID oldNode) oldAttrs newAttrs).
  split; [by eapply generateAttributeEdits_Ok|]. split.
  - unfold spec_attributeEdits. rewrite map_app, map_map. simpl.
    destruct (NoDup_names_newNameEdits (tagID oldNode) oldAttrs newAttrs Hndn)
      as [Hnd1 Hkeys].
    apply NoDup_app. split; [done|]. split.
    + intros x Hx Hx'. apply list_elem_of_fmap in Hx' as (k & -> & Hk).
      apply list_elem_of_filter in Hk as [Hn _].
      apply Hkeys in Hx. by apply attr_get_None_keys in Hn.
    + apply NoDup_fmap_2; [intros ? ? [=]; done|]. by apply NoDup_filter.
  - intros k.
    destruct (editNaming k _) as [e|] eqn:Hfind.
    + apply editNaming_Some in Hfind as [He Hk]. symmetry.
      by eapply spec_attributeEdits_value.
    + destruct (decide (attr_get k oldAttrs = attr_get k newAttrs))
        as [|Hne]; [done|].
      destruct (spec_attributeEdits_names (tagID oldNode) _ _ k Hne)
        as (e & He & Hk).
      by destruct (editNaming_None _ _ _ Hfind He).
Qed.

Lemma generateAttributeEdits_determines_witness :
  exists added,
    generateAttributeEdits []
      (Element 5 "a" [("href", "x"); ("class", "c"); ("id", "i")]
         None 1 0 0 [])
      (Element 5 "a" [("title", "t"); ("href", "y"); ("id", "i")]
         None 2 0 0 []) = Ok ([] ++ added)
    /\ editNaming "class" added
       = Some (attrEdit attrDelete (num 5) "class" None)
    /\ editNaming "id" added = None.
Proof.
  destruct (generateAttributeEdits []
              (Element 5 "a" [("href", "x"); ("class", "c"); ("id", "i")]
                 None 1 0 0 [])
              (Element 5 "a" [("title", "t"); ("href", "y"); ("id", "i")]
                 None 2 0 0 [])) as [es| |] eqn:Hrun;
    [|vm_compute in Hrun; discriminate Hrun..].
  destruct (generateAttributeEdits_determines []
              (Element 5 "a" [("href", "x"); ("class", "c"); ("id", "i")]
                 None 1 0 0 [])
              (Element 5 "a" [("title", "t"); ("href", "y"); ("id", "i")]
                 None 2 0 0 [])
              [("href", "x"); ("class", "c"); ("id", "i")]
              [("title", "t"); ("href", "y"); ("id", "i")] es)
    as (added & -> & _ & _).
  - reflexivity.
  - reflexivity.
  - apply (bool_decide_unpack _). vm_compute. exact I.
  - apply (bool_decide_unpack _). vm_compute. exact I.
  - exact Hrun.
  - exists added. split; [reflexivity|].
    vm_compute in Hrun. injection Hrun as <-. split; reflexivity.
Defined.

(** X2. [generateAttributeEdits] leaves the edit list as it was exactly when
    the two attribute objects hold the same names with the same values (in
    whatever order). *)
Theorem generateAttributeEdits_unchanged_iff (edits : list edit)
    (oldNode newNode : node) (oldAttrs newAttrs : attrs) :
  attributes oldNode = Some oldAttrs ->
  attributes newNode = Some newAttrs ->
  NoDup (keys newAttrs) ->
  generateAttributeEdits edits oldNode newNode = Ok edits
  <-> forall k, attr_get k oldAttrs = attr_get k newAttrs.
Proof.
  intros Hold Hnew Hndn. split.
  - intros Hrun k.
    apply (generateAttributeEdits_Ok _ _ _ oldAttrs newAttrs) in Hrun as Heq;
      [|done..].
    rewrite <- (app_nil_r edits) in Heq at 1. apply app_inv_head in Heq.
    destruct (decide (attr_get k oldAttrs = attr_get k newAttrs))
      as [|Hne]; [done|].
    destruct (spec_attributeEdits_names (tagID oldNode) _ _ k Hne)
      as (e & He & _).
    rewrite <- Heq in He. by apply elem_of_nil in He.
  - intros Hsame.
    destruct (generateAttributeEdits_same edits oldNode newNode oldAttrs
                newAttrs Hold Hnew Hndn Hsame) as [es Hrun].
    rewrite Hrun. f_equal.
    apply (generateAttributeEdits_Ok _ _ _ oldAttrs newAttrs) in Hrun;
      [|done..].
    rewrite Hrun. rewrite <- (app_nil_r edits) at 2. f_equal.
    destruct (spec_attributeEdits (tagID oldNode) oldAttrs newAttrs)
      as [|e l] eqn:E; [done|].
    exfalso.
    assert (He : e ∈ spec_attributeEdits (tagID oldNode) oldAttrs newAttrs)
      by (rewrite E; left).
    apply elem_of_spec_attributeEdits in He.
    destruct He as [(k & v & Hin & He)|(k & _ & Hk & Hn)].
    + pose proof (attr_get_NoDup k v newAttrs Hndn Hin) as Hget.
      apply elem_of_spec_newNameEdits in He. simpl in He.
      specialize (Hsame k). rewrite Hget in Hsame.
      destruct He as [[_ Ho]|(v' & _ & Ho & Hv)]; congruence.
    + specialize (Hsame k). rewrite Hn in Hsame.
      by apply attr_get_None_keys in Hsame.
Qed.

Lemma generateAttributeEdits_unchanged_iff_witness :
  generateAttributeEdits []
    (Element 5 "a" [("href", "x"); ("id", "i")] None 1 0 0 [])
    (Element 5 "a" [("id", "i"); ("href", "x")] None 2 0 0 []) = Ok [].
Proof.
  apply (generateAttributeEdits_unchanged_iff []
           (Element 5 "a" [("href", "x"); ("id", "i")] None 1 0 0 [])
           (Element 5 "a" [("id", "i"); ("href", "x")] None 2 0 0 [])
           [("href", "x"); ("id", "i")] [("id", "i"); ("href", "x")]).
  - reflexivity.
  - reflexivity.
  - apply (bool_decide_unpack _). vm_compute. exact I.
  - intros k. simpl.
    destruct (String.eqb_spec k "href") as [->|Hh]; [reflexivity|].
    destruct (String.eqb_spec k "id") as [->|Hi]; reflexivity.
Defined.

(** X19. The attribute differ, where it returns.  For a matched element pair
    whose attribute objects have distinct names (as every JavaScript object
    has), a call of [generateAttributeEdits] that returns has appended
    exactly the specification's edits: each appended edit occurs once and is
    either an [attrAdd] for a name of the new attributes that the old ones
    lack, an [attrChange] carrying the new value for a name that both hold
    with different values, or an [attrDelete] for a name of the old
    attributes that the new ones lack - and each of those is appended; names
    with equal values produce nothing.  The attribute objects of both input
    nodes are unchanged afterwards.  The call does return when the old
    attributes have no name [hasOwnProperty]. *)
Theorem generateAttributeEdits_exact (edits : list edit)
    (oldNode newNode : node) (oldAttrs newAttrs : attrs) :
  attributes oldNode = Some oldAttrs ->
  attributes newNode = Some newAttrs ->
  NoDup (keys oldAttrs) ->
  NoDup (keys newAttrs) ->
  (attr_get "hasOwnProperty" oldAttrs = None ->
   exists es, generateAttributeEdits edits oldNode newNode = Ok es)
  /\ forall es,
       generateAttributeEdits edits oldNode newNode = Ok es ->
       exists added,
         es = edits ++ added
         /\ added = spec_attributeEdits (tagID oldNode) oldAttrs newAttrs
         /\ NoDup added
         /\ (forall e, e ∈ added <->
               (exists k v, e = attrEdit attrAdd (tagID oldNode) k (Some v)
                            /\ attr_get k newAttrs = Some v
                            /\ attr_get k oldAttrs = None)
               \/ (exists k v v',
                      e = attrEdit attrChange (tagID oldNode) k (Some v)
                      /\ attr_get k newAttrs = Some v
                      /\ attr_get k oldAttrs = Some v' /\ v' <> v)
               \/ (exists k, e = attrEdit attrDelete (tagID oldNode) k None
                             /\ is_Some (attr_get k oldAttrs)
                             /\ attr_get k newAttrs = None))
         /\ (exists s,
               generateAttributeEdits_store edits (tagID oldNode) oldAttrs
                 newAttrs = Ok (es, s)
               /\ oldNode_attributes s = oldAttrs
               /\ newNode_attributes s = newAttrs).
Proof.
  intros Hold Hnew Hndo Hndn. split.
  - intros Hplain. apply generateAttributeEdits_total.
    + rewrite Hnew. by eexists.
    + by rewrite Hold.
  - intros es Hrun.
    exists (spec_attributeEdits (tagID oldNode) oldAttrs newAttrs).
    pose proof (generateAttributeEdits_Ok _ _ _ _ _ _ Hold Hnew Hndn Hrun)
      as ->.
    destruct (spec_attributeEdits_exact (tagID oldNode) oldAttrs newAttrs
                Hndo Hndn) as [Hnd Hchar].
    split; [done|]. split; [done|]. split; [done|]. split; [done|].
    unfold generateAttributeEdits in Hrun. rewrite Hold, Hnew in Hrun.
    simpl in Hrun.
    destruct (generateAttributeEdits_store _ _ _ _) as [r| |] eqn:E;
      try discriminate.
    apply generateAttributeEdits_store_Ok in E as ->; [|done].
    by eexists.
Qed.

(** The specification's example: [<div id=5 class="a">] against
    [<div id=5 class="b">] gives the single edit
    [attrChange(tagID=5, attribute="class", value="b")]. *)
Lemma generateAttributeEdits_exact_witness :
  exists added,
    generateAttributeEdits []
      (Element 5 "div" [("class", "a")] None 1 0 0 [])
      (Element 5 "div" [("class", "b")] None 2 0 0 []) = Ok ([] ++ added)
    /\ added = [attrEdit attrChange (num 5) "class" (Some "b")].
Proof.
  destruct (generateAttributeEdits_exact []
              (Element 5 "div" [("class", "a")] None 1 0 0 [])
              (Element 5 "div" [("class", "b")] None 2 0 0 [])
              [("class", "a")] [("class", "b")])
    as [Hruns Hexact].
  - reflexivity.
  - reflexivity.
  - apply NoDup_singleton.
  - apply NoDup_singleton.
  - destruct (Hruns eq_refl) as [es Hrun].
    destruct (Hexact es Hrun) as (added & -> & Hspec & _).
    exists added. split; [exact Hrun|]. rewrite Hspec. reflexivity.
Defined.

(** * Further properties of a first render *)

(** The edits of a first render in closed form, for an element taken from
    the queue: the manufactured insert when the element has no parent, a
    trailing insert for each of its children in order, and then the same for
    its child elements, the last one first (the queue is used as a stack). *)
Fixpoint renderEdits (n : node) : list edit :=
  match n with
  | Element _ _ _ p _ _ _ cs =>
      match p with
      | None => [elementInsertEdit n null]
      | Some _ => []
      end
      ++ map trailingInsert cs
      ++ (fix later (l : list node) : list edit :=
            match l with
            | [] => []
            | c :: l' => later l' ++ renderEdits c
            end) cs
  | Text _ _ _ => []
  end.

(** ... and for a whole queue, whose last element is taken first. *)
Definition renderStack (q : list node) : list edit :=
  flat_map renderEdits (rev q).

Lemma renderStack_app (a b : list node) :
  renderStack (a ++ b) = renderStack b ++ renderStack a.
Proof. unfold renderStack. by rewrite rev_app_distr, flat_map_app. Qed.

Lemma renderStack_snoc (q : list node) (n : node) :
  renderStack (q ++ [n]) = renderEdits n ++ renderStack q.
Proof.
  rewrite renderStack_app. unfold renderStack at 1.
  cbn [rev flat_map app]. by rewrite app_nil_r.
Qed.

Lemma renderStack_elements (cs : list node) :
  renderStack (filter (fun c => isElement c = true) cs) = renderStack cs.
Proof.
  induction cs as [|c cs IH]; [done|]. rewrite filter_cons.
  change (c :: cs) with ([c] ++ cs). rewrite renderStack_app, <- IH.
  destruct c; simpl.
  - change (?x :: ?l) with ([x] ++ l) at 1. by rewrite renderStack_app.
  - unfold renderStack at 3. simpl. by rewrite app_nil_r.
Qed.

Lemma renderEdits_element (n : node) (cs : list node) :
  children n = Some cs ->
  renderEdits n
  = match parent n with
    | None => [elementInsertEdit n null]
    | Some _ => []
    end ++ map trailingInsert cs ++ renderStack cs.
Proof.
  destruct n as [i t a p s1 s2 s3 cs'|]; [|done]. intros [= ->]. simpl.
  do 2 f_equal. induction cs as [|c cs IH]; [done|].
  simpl. rewrite IH. change (c :: cs) with ([c] ++ cs).
  rewrite renderStack_app. unfold renderStack at 3. simpl.
  by rewrite app_nil_r.
Qed.

(** The driver on a first render: what is written and what is still to be
    written make up the closed form. *)
Definition renderedInv (T : node) (st : state) : Prop :=
  edits st ++ renderStack (queue st) = renderEdits T
  /\ Forall elementNode (queue st)
  /\ moves st = [].

Lemma driverStep_renderedInv (nm : gmap Z node) (T : node) (st st' : state) :
  renderedInv T st ->
  driverStep ∅ nm st = Ok st' ->
  renderedInv T st'.
Proof.
  intros (Hedits & Hq & Hmoves) H.
  pose proof (driverStep_queue_nonempty _ _ _ _ H) as Hne.
  destruct (exists_last Hne) as (rest & n0 & Eq).
  rewrite Eq in Hq, Hedits.
  apply Forall_app in Hq as [Hrest Hn0]. rewrite Forall_singleton in Hn0.
  destruct n0 as [i0 t a p s1 s2 s3 cs0|]; [|by destruct Hn0].
  destruct (elementNode_children _ cs0 Hn0 eq_refl) as [Hhas Hels].
  rewrite renderStack_snoc in Hedits.
  rewrite (renderEdits_element (Element i0 t a p s1 s2 s3 cs0) cs0 eq_refl)
    in Hedits.
  unfold driverStep in H. rewrite Eq, pop_snoc in H. simpl in H.
  rewrite lookup_empty in H.
  match type of H with
  | generateChildEdits _ _ _ None ?X = _ => set (s0 := X) in H
  end.
  destruct (generateChildEdits_first_render nm
              (Element i0 t a p s1 s2 s3 cs0) cs0 s0 eq_refl Hhas)
    as (s & Hrun & He & Hqs & Hm).
  rewrite Hrun in H. injection H as <-.
  split; [|split].
  - rewrite He, Hqs, renderStack_app, renderStack_elements, <- Hedits.
    subst s0. destruct p; simpl; by rewrite <- ?app_assoc.
  - rewrite Hqs. subst s0. destruct p; simpl; (apply Forall_app; split;
      [done|]); apply Forall_forall; intros c [Hc Hcin]%list_elem_of_filter;
      by apply (proj1 (Forall_forall _ _) Hels).
  - rewrite Hm. subst s0. by destruct p.
Qed.

Lemma first_render_run (newNode : dom) :
  isElement (root newNode) = true ->
  parentsSet (root newNode) = true ->
  exists st,
    domdiff_run None newNode = Ok st
    /\ edits st = renderEdits (root newNode)
    /\ moves st = [].
Proof.
  intros Hel Hpar.
  destruct (domdiff_run_total None newNode) as [st Hrun].
  { split; [by split | apply map_Forall_empty]. }
  { apply map_Forall_empty. }
  exists st. split; [done|].
  unfold domdiff_run in Hrun. simpl in Hrun.
  apply (do_while_inv (renderedInv (root newNode))) in Hrun
    as [(Hedits & _ & Hmoves) Hc].
  - unfold queueNonEmpty in Hc. destruct (queue st); [|done].
    unfold renderStack in Hedits. simpl in Hedits.
    by rewrite app_nil_r in Hedits.
  - intros s s'. apply driverStep_renderedInv.
  - split; [|split; [|done]].
    + unfold renderStack. simpl. by rewrite app_nil_r.
    + apply Forall_singleton. by split.
Qed.

(** X3. On a first render (no old tree) of a tree whose root is an element
    and whose nodes below the root carry their parent reference, [domdiff]
    returns exactly the closed form: the root's insert when the root has no
    parent, then for each element, taken depth-first with the last child
    element first, one trailing insert per child in child order.  There is
    no [rememberNodes] edit. *)
Theorem first_render_edits (newNode : dom) :
  isElement (root newNode) = true ->
  parentsSet (root newNode) = true ->
  domdiff None newNode = Ok (renderEdits (root newNode)).
Proof.
  intros Hel Hpar.
  destruct (first_render_run newNode Hel Hpar) as (st & Hrun & He & Hm).
  unfold domdiff. rewrite Hrun. simpl. unfold withRememberNodes.
  by rewrite Hm, He.
Qed.

Lemma first_render_edits_witness :
  domdiff None FirstRenderExample.new
  = Ok [elementInsertEdit FirstRenderExample.new_root null;
        trailingInsert FirstRenderExample.hi;
        trailingInsert FirstRenderExample.span;
        trailingInsert FirstRenderExample.p;
        trailingInsert FirstRenderExample.x].
Proof.
  apply (first_render_edits FirstRenderExample.new); reflexivity.
Defined.

(** An edit as [appendChild] takes it: an insert that is marked [lastChild]
    and carries no other positioning. *)
Definition appendedInsert (e : edit) : Prop :=
  (type e = elementInsert \/ type e = textInsert)
  /\ lastChild e = true /\ beforeID e = undefined /\ afterID e = undefined
  /\ firstChild e = false /\ beforeText e = false.

Lemma appendedInsert_trailingInsert (c : node) :
  appendedInsert (trailingInsert c).
Proof.
  unfold appendedInsert, trailingInsert. destruct c; simpl; tauto.
Qed.

Lemma renderEdits_tail (n : node) :
  isElement n = true ->
  parentsSet n = true ->
  exists tail,
    renderEdits n
    = match parent n with
      | None => [elementInsertEdit n null]
      | Some _ => []
      end ++ tail
    /\ Forall appendedInsert tail
    /\ S (length tail) = node_size n.
Proof.
  induction n as [|i t a p s1 s2 s3 cs IH] using node_ind'; [done|].
  intros _ Hpar.
  exists (map trailingInsert cs ++ renderStack cs).
  split; [by apply (renderEdits_element _ cs)|].
  simpl in Hpar. rewrite forallb_forall in Hpar.
  assert (Hcs : Forall (fun c => is_Some (parent c) /\ parentsSet c = true)
                  cs).
  { apply Forall_forall. intros c Hc.
    apply list_elem_of_In, Hpar, andb_true_iff in Hc as [Hc1 Hc2].
    by apply bool_decide_eq_true in Hc1. }
  clear Hpar.
  assert (Hstack : Forall appendedInsert (renderStack cs)
                   /\ (length cs + length (renderStack cs))%nat
                      = list_sum (map node_size cs)).
  { induction cs as [|c cs IHcs]; [by split|].
    apply Forall_cons in IH as [IHc IH], Hcs as [[[q Hq] Hc] Hcs].
    destruct (IHcs IH Hcs) as [IH1 IH2].
    change (c :: cs) with ([c] ++ cs) at 1 3.
    rewrite renderStack_app, Forall_app, length_app.
    unfold renderStack at 2 4. simpl. rewrite app_nil_r.
    destruct c as [i' t' a' p' s1' s2' s3' cs'|].
    - destruct (IHc eq_refl Hc) as (tail & Etail & Htail & Hlen).
      simpl in Hq. subst p'. rewrite Etail. simpl in *.
      split; [by split | lia].
    - simpl. split; [by split | lia]. }
  destruct Hstack as [H1 H2]. split.
  - apply Forall_app. split; [|done]. apply Forall_map, Forall_true.
    apply appendedInsert_trailingInsert.
  - simpl. rewrite length_app, length_map. lia.
Qed.

(** X4. On a first render of a tree whose root is an element without a
    parent, the returned list starts with the root's [elementInsert]
    (with [parentID] null), holds as many edits as the tree has nodes, and
    every edit after the first is an [elementInsert] or [textInsert] marked
    [lastChild], without [beforeID], [afterID] or [firstChild]. *)
Theorem first_render_appends_every_node (newNode : dom) :
  isElement (root newNode) = true ->
  parent (root newNode) = None ->
  parentsSet (root newNode) = true ->
  exists rest,
    domdiff None newNode
    = Ok (elementInsertEdit (root newNode) null :: rest)
    /\ length (elementInsertEdit (root newNode) null :: rest)
       = node_size (root newNode)
    /\ Forall appendedInsert rest.
Proof.
  intros Hel Hroot Hpar.
  destruct (first_render_run newNode Hel Hpar) as (st & Hrun & He & Hm).
  destruct (renderEdits_tail _ Hel Hpar) as (tail & Etail & Htail & Hlen).
  rewrite Hroot in Etail. exists tail.
  unfold domdiff. rewrite Hrun. simpl. unfold withRememberNodes.
  rewrite Hm, He, Etail. simpl. by rewrite Hlen.
Qed.

Lemma first_render_appends_every_node_witness :
  exists rest,
    domdiff None FirstRenderExample.new
    = Ok (elementInsertEdit FirstRenderExample.new_root null :: rest)
    /\ length rest = 4%nat.
Proof.
  destruct (first_render_appends_every_node FirstRenderExample.new)
    as (rest & Hrun & Hlen & _); [reflexivity..|].
  exists rest. split; [exact Hrun|]. simpl in Hlen. by injection Hlen as ->.
Defined.

(** ** A new root that is a text node *)

(** X5. [domdiff] raises a [TypeError] when the new root is a text node,
    whatever the old tree is: the root is taken from the queue as an element
    and the length of its missing [children] array is read. *)
Theorem domdiff_text_root (oldNode : option dom) (c : string) (sig : Z)
    (p : option parentRef) (nm : gmap Z node) :
  domdiff oldNode (mkDom (Text c sig p) nm) = TypeError.
Proof.
  unfold domdiff, domdiff_run. simpl. unfold driverStep, pop. simpl.
  by destruct p.
Qed.

(** * Further properties of the returned edits *)

(** The edits [domdiff] returns have the shapes of [finalEdit], the
    [rememberNodes] edit apart. *)
Lemma domdiff_finalEdit (oldNode : option dom) (newNode : dom)
    (es : list edit) :
  domdiff oldNode newNode = Ok es ->
  forall e, e ∈ es ->
    (exists m, e = rememberNodesEdit m)
    \/ finalEdit (oldNodeMapOf oldNode) (nodeMap newNode) e.
Proof.
  unfold domdiff, mbind, result_bind.
  destruct (domdiff_run oldNode newNode) as [st| |] eqn:Hrun;
    try discriminate.
  intros [= <-].
  apply domdiff_run_driverInv in Hrun as [[_ HF] _].
  intros e He. unfold withRememberNodes in He.
  assert (Hin : e = rememberNodesEdit (moves st) \/ e ∈ edits st).
  { destruct (0 <? length (moves st))%nat; [|by right].
    apply elem_of_cons in He as [->|He]; [by left | by right]. }
  destruct Hin as [->|Hin]; [left; by eexists|].
  right. by apply (proj1 (Forall_forall _ _) HF).
Qed.

Lemma pendingEdit_identities om nm e :
  pendingEdit om nm e ->
  (type e = elementInsert -> lookupID om (ed_tagID e) = None)
  /\ (type e = elementDelete -> lookupID nm (ed_tagID e) = None)
  /\ (type e = elementMove -> is_Some (lookupID om (ed_tagID e))).
Proof.
  destruct 1; repeat split; try solve [solve_type]; done.
Qed.

(** X6. [domdiff] never returns an [elementInsert] for an identity that the
    old [nodeMap] holds, never an [elementDelete] for an identity that the
    new [nodeMap] holds, and an [elementMove] only for an identity that the
    old [nodeMap] holds. *)
Theorem domdiff_element_identities (oldNode : option dom) (newNode : dom)
    (es : list edit) :
  domdiff oldNode newNode = Ok es ->
  forall e, e ∈ es ->
    (type e = elementInsert ->
     lookupID (oldNodeMapOf oldNode) (ed_tagID e) = None)
    /\ (type e = elementDelete ->
        lookupID (nodeMap newNode) (ed_tagID e) = None)
    /\ (type e = elementMove ->
        is_Some (lookupID (oldNodeMapOf oldNode) (ed_tagID e))).
Proof.
  intros Hrun e He.
  destruct (domdiff_finalEdit _ _ _ Hrun e He) as [[m ->]|Hf].
  { repeat split; discriminate. }
  destruct Hf as [e b Hp _|e Hp _|e Hp _|e Hp _|t id k v Ht|r Hroot];
    simpl; try (by apply pendingEdit_identities).
  - destruct Ht as [->|[->| ->]]; repeat split; discriminate.
  - repeat split; [done|discriminate..].
Qed.

Lemma domdiff_element_identities_witness :
  exists es,
    domdiff (Some Examples.moved_old) Examples.moved_new = Ok es
    /\ forall e, e ∈ es -> type e <> elementInsert.
Proof.
  destruct (domdiff (Some Examples.moved_old) Examples.moved_new)
    as [es| |] eqn:Hrun; [|vm_compute in Hrun; discriminate Hrun..].
  exists es. split; [reflexivity|]. intros e He Hty.
  destruct (domdiff_element_identities (Some Examples.moved_old)
              Examples.moved_new es Hrun e He) as (Hins & _ & _).
  specialize (Hins Hty).
  vm_compute in Hrun. injection Hrun as <-.
  repeat (apply elem_of_cons in He as [->|He]; [discriminate Hty|]).
  by apply elem_of_nil in He.
Defined.








(** The fields of a [textDelete] or [textReplace]: the identity of the
    parent, possibly an [afterID] (never the identity 0, which the test
    [if (textAfterID)] takes for a missing one) and possibly a [beforeID];
    the content to keep for a [textReplace] and none for a [textDelete]. *)
Definition textChangeFields (e : edit) : Prop :=
  (exists p, parentID e = num p)
  /\ ed_tagID e = undefined
  /\ firstChild e = false /\ lastChild e = false /\ beforeText e = false
  /\ (afterID e = undefined \/ exists a, afterID e = num a /\ a <> 0%Z)
  /\ (beforeID e = undefined \/ exists b, beforeID e = num b)
  /\ (type e = textReplace -> is_Some (ed_content e))
  /\ (type e = textDelete -> ed_content e = None).

Lemma truthy_nonzero (a : jsid) :
  truthy a = true -> exists z, a = num z /\ z <> 0%Z.
Proof.
  destruct a as [| |z]; [done..|]. simpl. intros Hz. exists z.
  split; [done|]. intros ->. done.
Qed.

Lemma finalEdit_textChangeFields om nm e :
  finalEdit om nm e ->
  type e = textDelete \/ type e = textReplace ->
  textChangeFields e.
Proof.
  assert (Hpend : forall e0, pendingEdit om nm e0 ->
            type e0 = textDelete \/ type e0 = textReplace ->
            textChangeFields e0 /\ beforeID e0 = undefined).
  { intros e0 He0 Hty. unfold textChangeFields.
    destruct He0 as [c p Hc _|c p bt Hc _|o _|c p a Hc|prev p a|c p a Hc];
      try (destruct Hty as [Hty|Hty]; revert Hty; solve [solve_type]);
      clear Hty;
      try pose proof (content_text c Hc);
      unfold textDeleteAnchored, textDeleteStart, withAfterID;
      repeat match goal with
             | |- context [truthy ?x] =>
                 let H := fresh in
                 destruct (truthy x) eqn:H;
                 [apply truthy_nonzero in H as (? & -> & ?)|]
             | |- context [(?x =? ?y)%nat] => destruct (x =? y)%nat
             | |- context [negb (isElement ?x)] =>
                 let H := fresh in
                 destruct (isElement x) eqn:H;
                 [|pose proof (content_text x H)]
             | |- context [match ?x with Some _ => _ | None => _ end] =>
                 is_var x; destruct x
             end;
      simpl;
      repeat match goal with
             | |- _ /\ _ => split
             | |- _ -> _ => intros ?
             end;
      try discriminate; eauto. }
  unfold textChangeFields.
  destruct 1 as [e b He Hd|e He Hd|e He Hk|e He Hk|t id k v Ht|r _]; simpl;
    intros Hty.
  - destruct (Hpend e He Hty) as [(?&?&?&?&?&?&?&?&?) ?].
    repeat split; eauto.
  - destruct Hty; congruence.
  - unfold isTrailingKind in Hk. destruct Hty as [Hty|Hty];
      rewrite Hty in Hk; done.
  - destruct (Hpend e He Hty) as [(?&?&?&?&?&?&?&?&?) ?].
    repeat split; eauto.
  - destruct Ht as [->|[->| ->]], Hty; discriminate.
  - destruct Hty; discriminate.
Qed.

(** X8. Every [textDelete] and [textReplace] of a list that [domdiff]
    returns carries the [parentID], never a
    [tagID], [firstChild] or [lastChild]; its [afterID], when present, is a
    non-zero identity; a [textReplace] carries the [content] and a
    [textDelete] carries none. *)
Theorem domdiff_text_change_fields (oldNode : option dom) (newNode : dom)
    (es : list edit) :
  domdiff oldNode newNode = Ok es ->
  forall e, e ∈ es ->
    type e = textDelete \/ type e = textReplace ->
    textChangeFields e.
Proof.
  intros Hrun e He Hty.
  destruct (domdiff_finalEdit _ _ _ Hrun e He) as [[m ->]|Hf].
  - destruct Hty; discriminate.
  - by eapply finalEdit_textChangeFields.
Qed.

Lemma domdiff_text_change_fields_witness :
  exists es,
    domdiff (Some TextRunExample.del_old) TextRunExample.del_new = Ok es
    /\ forall e, e ∈ es ->
         type e = textDelete \/ type e = textReplace ->
         textChangeFields e.
Proof.
  destruct (domdiff (Some TextRunExample.del_old) TextRunExample.del_new)
    as [es| |] eqn:Hrun; [|vm_compute in Hrun; discriminate Hrun..].
  exists es. split; [reflexivity|].
  exact (domdiff_text_change_fields (Some TextRunExample.del_old)
           TextRunExample.del_new es Hrun).
Defined.

(** * Further properties of the child aligner *)

(** What the loop conditions and the reads of the two arrays say about the
    indices. *)
Ltac index_bounds :=
  unfold bothRemain, oldRemain, currentRemain in *;
  repeat match goal with
  | H : _ && _ = true |- _ => apply andb_true_iff in H as [? ?]
  | H : (_ <? _)%nat = true |- _ => apply Nat.ltb_lt in H
  | H : (_ <? _)%nat = false |- _ => apply Nat.ltb_ge in H
  | H : ?l !! _ = None |- _ => apply lookup_ge_None in H
  | H : ?l !! _ = Some _ |- _ => apply lookup_lt_Some in H
  end.

Section BatchSize.

Variable oldNodeMap : gmap Z node.
Variable newNodeMap : gmap Z node.
Variable cp : node.
Variable cc : list node.
Variable oc : list node.
Variable edits0 : list edit.

(** The edits of the call so far - written or pending - are appended to the
    edits found at its start, at most one per index advanced. *)
Definition batchInv (st : state) : Prop :=
  (currentIndex st <= length cc)%nat
  /\ (oldIndex st <= length oc)%nat
  /\ exists added,
       edits st = edits0 ++ added
       /\ (length added + length (newEdits st)
           <= currentIndex st + oldIndex st)%nat.

Ltac solve_batch :=
  match goal with
  | HI : batchInv _ |- _ =>
      let added := fresh "added" in
      let He := fresh "He" in
      let Hl := fresh "Hl" in
      destruct HI as (? & ? & added & He & Hl);
      unfold batchInv, finalizeNewEdits, fixupElementInsert in *;
      index_bounds; simpl in *;
      (split; [lia|]); (split; [lia|]);
      first
        [ exists added; split; [done|];
          rewrite ?length_app, ?length_map; simpl; lia
        | eexists; split; [by rewrite He, <- app_assoc|];
          rewrite ?length_app, ?length_map; simpl; lia ]
  end.

Lemma compareStep_batchInv st st' :
  batchInv st ->
  compareStep oldNodeMap newNodeMap cp cc oc st = Ok st' ->
  batchInv st'.
Proof. intros HI H. unfold_steps. crunch; solve_batch. Qed.

Lemma drainOldStep_batchInv st st' :
  batchInv st ->
  drainOldStep newNodeMap cc oc st = Ok st' ->
  batchInv st'.
Proof. intros HI H. unfold_steps. crunch; solve_batch. Qed.

Lemma drainCurrentStep_batchInv st st' :
  batchInv st ->
  drainCurrentStep oldNodeMap cp cc st = Ok st' ->
  batchInv st'.
Proof. intros HI H. unfold_steps. crunch; solve_batch. Qed.

End BatchSize.

(** X9. A call of [generateChildEdits] that returns has only appended to the
    edit list - the edits found at its start are kept, in place - and has
    appended at most one edit per child of the two child lists. *)
Theorem generateChildEdits_appends (om nm : gmap Z node) (cp : node)
    (op : option node) (cs ocs : list node) (st st' : state) :
  children cp = Some cs ->
  match op with Some o => children o | None => Some [] end = Some ocs ->
  generateChildEdits om nm cp op st = Ok st' ->
  exists added,
    edits st' = edits st ++ added
    /\ (length added <= length cs + length ocs)%nat.
Proof.
  intros Hcs Hocs H. unfold generateChildEdits in H.
  unfold mbind, result_bind in H. rewrite Hcs in H. simpl in H.
  assert (Hoc : match op with
                | Some o => deref (children o)
                | None => Ok []
                end = Ok ocs).
  { destruct op as [o|]; [by rewrite Hocs | by injection Hocs as <-]. }
  rewrite Hoc in H.
  apply (childLoops_inv om nm (batchInv cs ocs (edits st))) in H
    as (s & (Hc & Ho & added & He & Hl) & _ & ->).
  - unfold finalizeRemaining. simpl. eexists.
    split; [by rewrite He, <- app_assoc|].
    rewrite length_app, length_map. lia.
  - intros s s' ? _. by apply compareStep_batchInv.
  - intros s s' ? _. by apply drainOldStep_batchInv.
  - intros s s' ? _. by apply drainCurrentStep_batchInv.
  - unfold batchInv. simpl. split; [lia|]. split; [lia|].
    exists []. by rewrite app_nil_r.
Qed.

Lemma generateChildEdits_appends_witness :
  exists st' added,
    generateChildEdits (nodeMap TextRunExample.del_old)
      (nodeMap TextRunExample.del_new) TextRunExample.del_new_root
      (Some TextRunExample.del_old_root)
      (initialState TextRunExample.del_new_root) = Ok st'
    /\ edits st' = [] ++ added
    /\ (length added <= 1 + 3)%nat.
Proof.
  destruct (generateChildEdits (nodeMap TextRunExample.del_old)
              (nodeMap TextRunExample.del_new) TextRunExample.del_new_root
              (Some TextRunExample.del_old_root)
              (initialState TextRunExample.del_new_root))
    as [st'| |] eqn:Hrun; [|vm_compute in Hrun; discriminate Hrun..].
  exists st'.
  destruct (generateChildEdits_appends (nodeMap TextRunExample.del_old)
              (nodeMap TextRunExample.del_new) TextRunExample.del_new_root
              (Some TextRunExample.del_old_root)
              [TextRunExample.kept_new]
              [Text "a" 1 (Some (mkParent 1 3));
               Text "b" 2 (Some (mkParent 1 3)); TextRunExample.kept_old]
              _ _ eq_refl eq_refl Hrun) as (added & He & Hl).
  exists added. split; [reflexivity|]. split; [exact He | exact Hl].
Defined.

(** Two children at the same position that the first loop passes over: two
    texts with the same signature, or two elements with the same identity of
    which the new one did not come from another parent and the old one did
    not leave for one. *)
Definition alignedPair (om nm : gmap Z node) (cp c o : node) : Prop :=
  (isElement c = false /\ isElement o = false
   /\ textSignature c = textSignature o)
  \/ (isElement c = true /\ isElement o = true /\ tagID c = tagID o
      /\ movedHere om cp c = false /\ hasMoved nm o = false).

Section AlignedChildren.

Variable oldNodeMap : gmap Z node.
Variable newNodeMap : gmap Z node.
Variable cp : node.
Variable cc : list node.
Variable oc : list node.
Variable st0 : state.
Hypothesis aligned : Forall2 (alignedPair oldNodeMap newNodeMap cp) cc oc.

(** The two indices advance together and nothing is written. *)
Definition alignInv (st : state) : Prop :=
  currentIndex st = oldIndex st /\ newEdits st = []
  /\ edits st = edits st0 /\ queue st = queue st0
  /\ moves st = moves st0 /\ console st = console st0.

Lemma compareStep_aligned (st : state) :
  alignInv st ->
  bothRemain cc oc st = true ->
  exists st',
    compareStep oldNodeMap newNodeMap cp cc oc st = Ok st'
    /\ alignInv st'
    /\ (length cc - currentIndex st' < length cc - currentIndex st)%nat.
Proof.
  intros (Hi & Hn & He & Hq & Hm & Hl) Hc. index_bounds.
  destruct (lookup_lt_is_Some_2 cc (currentIndex st)) as [c Ec]; [done|].
  destruct (lookup_lt_is_Some_2 oc (oldIndex st)) as [o Eo]; [done|].
  assert (Hpair : alignedPair oldNodeMap newNodeMap cp c o).
  { eapply Forall2_lookup_lr; [exact aligned|exact Ec|]. by rewrite Hi. }
  unfold compareStep, mbind, result_bind, deref. rewrite Ec. simpl.
  destruct Hpair as [(Hc' & Ho' & Hsig)|(Hc' & Ho' & Hid & Hmv & Hhm)].
  - rewrite Hc'. simpl. rewrite Eo. simpl.
    unfold hasMoved. rewrite Ho'. simpl.
    rewrite bool_decide_eq_false_2 by (intros H'; by apply H').
    eexists. split; [done|]. unfold alignInv, fixupElementInsert. simpl.
    rewrite Hn. simpl. repeat split; try done; [congruence|lia].
  - rewrite Hc'. unfold addElementMove.
    unfold movedHere in Hmv. rewrite Hc' in Hmv. simpl in Hmv.
    assert (Hnomove :
              match lookupID oldNodeMap (tagID c) with
              | Some possiblyMovedElement =>
                  if bool_decide (tagID cp <> getParentID possiblyMovedElement)
                  then
                    p ← deref (parent c);
                    Ok (true,
                        incr_currentIndex
                          (set_newEdits
                             (newEdits st
                              ++ [elementMoveEdit c (num (p_tagID p))])
                             (set_moves
                                (moves st
                                 ++ [ed_tagID
                                       (elementMoveEdit c
                                          (num (p_tagID p)))]) st)))
                  else Ok (false, st)
              | None => Ok (false, st)
              end = Ok (false, st)).
    { destruct (lookupID oldNodeMap (tagID c)); [by rewrite Hmv | done]. }
    rewrite Hnomove. simpl. rewrite Eo. simpl. rewrite Hhm, ?Hc', ?Ho'. simpl.
    rewrite bool_decide_eq_false_2 by (intros H'; by apply H').
    eexists. split; [done|]. unfold alignInv, finalizeNewEdits. simpl.
    rewrite Hn. simpl. rewrite app_nil_r.
    repeat split; try done; [congruence|lia].
Qed.

End AlignedChildren.

(** X10. When the children of the new and of the old parent line up one to
    one - texts with equal signatures, elements with equal identities that
    did not change parent - [generateChildEdits] returns without an edit, a
    move, a queued element or a logged error. *)
Theorem generateChildEdits_aligned (om nm : gmap Z node) (cp op : node)
    (cs ocs : list node) (st : state) :
  children cp = Some cs ->
  children op = Some ocs ->
  Forall2 (alignedPair om nm cp) cs ocs ->
  exists st',
    generateChildEdits om nm cp (Some op) st = Ok st'
    /\ edits st' = edits st /\ queue st' = queue st
    /\ moves st' = moves st /\ console st' = console st.
Proof.
  intros Hcs Hocs Hal.
  unfold generateChildEdits, mbind, result_bind. rewrite Hcs, Hocs. simpl.
  set (s0 := set_textAfterID undefined
               (set_newEdits [] (set_oldIndex 0 (set_currentIndex 0 st)))).
  unfold childLoops, mbind, result_bind.
  destruct (while_total (alignInv s0)
              (fun s => (length cs - currentIndex s)%nat)
              (bothRemain cs ocs) (compareStep om nm cp cs ocs))
    with (fuel := S (length cs + length ocs)) (st := s0)
    as (s1 & -> & (Hi & Hn & He & Hq & Hm & Hl) & Hc & _).
  - intros s HI Hc. by apply compareStep_aligned.
  - done.
  - simpl. lia.
  - pose proof (Forall2_length _ _ _ Hal) as Hlen.
    assert (Hend : (length cs <= currentIndex s1)%nat).
    { unfold bothRemain in Hc. apply andb_false_iff in Hc as [Hc|Hc];
        apply Nat.ltb_ge in Hc; lia. }
    assert (Hold : oldRemain ocs s1 = false).
    { unfold oldRemain. apply Nat.ltb_ge. lia. }
    assert (Hcur : currentRemain cs s1 = false).
    { unfold currentRemain. by apply Nat.ltb_ge. }
    cbn [while]. rewrite Hold. cbn [while]. rewrite Hcur.
    eexists. split; [done|]. unfold finalizeRemaining. simpl.
    rewrite Hn. simpl. rewrite app_nil_r. done.
Qed.

Module AlignedExample.

(** The same two children on both sides; only the parent's signature of its
    children differs. *)
Definition kept_old : node := Element 5 "b" [] (Some (mkParent 1 2)) 50 51 52 [].
Definition kept_new : node := Element 5 "b" [] (Some (mkParent 1 2)) 50 51 52 [].
Definition old_root : node :=
  Element 1 "div" [] None 10 11 12 [Text "a" 7 (Some (mkParent 1 2)); kept_old].
Definition new_root : node :=
  Element 1 "div" [] None 10 21 22 [Text "a" 7 (Some (mkParent 1 2)); kept_new].
Definition old : dom :=
  mkDom old_root (list_to_map [(1, old_root); (5, kept_old)]).
Definition new : dom :=
  mkDom new_root (list_to_map [(1, new_root); (5, kept_new)]).

End AlignedExample.

Lemma generateChildEdits_aligned_witness :
  exists st',
    generateChildEdits (nodeMap AlignedExample.old)
      (nodeMap AlignedExample.new) AlignedExample.new_root
      (Some AlignedExample.old_root)
      (initialState AlignedExample.new_root) = Ok st'
    /\ edits st' = [].
Proof.
  destruct (generateChildEdits_aligned (nodeMap AlignedExample.old)
              (nodeMap AlignedExample.new) AlignedExample.new_root
              AlignedExample.old_root
              [Text "a" 7 (Some (mkParent 1 2)); AlignedExample.kept_new]
              [Text "a" 7 (Some (mkParent 1 2)); AlignedExample.kept_old]
              (initialState AlignedExample.new_root))
    as (st' & Hrun & He & _).
  - reflexivity.
  - reflexivity.
  - constructor; [left; repeat split; reflexivity|].
    constructor; [right; repeat split; reflexivity|]. constructor.
  - exists st'. split; [exact Hrun | exact He].
Defined.

(** * A first render of a tree with a missing parent reference *)

Lemma drainCurrentStep_first_render (cp : node) (cs : list node) (st : state)
    (c : node) :
  cs !! currentIndex st = Some c ->
  match parent c with
  | Some _ =>
      exists st', drainCurrentStep ∅ cp cs st = Ok st'
                  /\ currentIndex st' = S (currentIndex st)
  | None => drainCurrentStep ∅ cp cs st = TypeError
  end.
Proof.
  intros Ec. unfold drainCurrentStep, mbind, result_bind, deref.
  rewrite Ec. simpl.
  unfold addElementMove, addElementInsert, addTextInsert, mbind, result_bind,
    deref.
  rewrite lookupID_empty. simpl.
  destruct (parent c), (isElement c); simpl; try done; by eexists.
Qed.

Lemma while_done (fuel : nat) (cond : state -> bool)
    (body : state -> result state) (st : state) :
  cond st = false -> while fuel cond body st = Ok st.
Proof. intros Hc. destruct fuel; simpl; by rewrite Hc. Qed.

(** The third loop stops at the first child without a parent reference. *)
Lemma drain_missing_parent (cp : node) (cs : list node) (j : nat) (c : node) :
  cs !! j = Some c ->
  parent c = None ->
  forall d fuel st,
    (length cs - currentIndex st = d)%nat ->
    (d < fuel)%nat ->
    (currentIndex st <= j)%nat ->
    while fuel (currentRemain cs) (drainCurrentStep ∅ cp cs) st = TypeError.
Proof.
  intros Ej Hp. pose proof (lookup_lt_Some _ _ _ Ej) as Hj.
  induction d as [|d IH]; intros fuel st Hd Hfuel Hi; [lia|].
  destruct fuel as [|fuel]; [lia|]. simpl.
  unfold currentRemain at 1.
  rewrite (proj2 (Nat.ltb_lt _ _)) by lia.
  destruct (lookup_lt_is_Some_2 cs (currentIndex st)) as [c0 Ec0]; [lia|].
  pose proof (drainCurrentStep_first_render cp cs st c0 Ec0) as Hstep.
  destruct (parent c0) as [q|] eqn:Hq.
  - destruct Hstep as (st' & -> & Hi'). simpl.
    apply IH; [lia..|].
    destruct (decide (currentIndex st = j)) as [E|]; [|lia].
    rewrite E in Ec0. congruence.
  - by rewrite Hstep.
Qed.

Lemma generateChildEdits_missing_parent (nm : gmap Z node) (cp : node)
    (cs : list node) (c : node) (st : state) :
  children cp = Some cs ->
  c ∈ cs ->
  parent c = None ->
  generateChildEdits ∅ nm cp None st = TypeError.
Proof.
  intros Hcs Hc Hp. apply list_elem_of_lookup in Hc as [j Ej].
  unfold generateChildEdits, mbind, result_bind. rewrite Hcs. simpl.
  unfold childLoops, mbind, result_bind.
  rewrite (while_done _ (bothRemain cs []))
    by (unfold bothRemain; simpl; apply andb_false_r).
  cbv beta iota. rewrite (while_done _ (oldRemain [])) by done.
  cbv beta iota.
  rewrite (drain_missing_parent cp cs j c Ej Hp (length cs)); [done|..];
    simpl; lia.
Qed.

Lemma parentsSet_false_child (n : node) (cs : list node) :
  children n = Some cs ->
  parentsSet n = false ->
  Forall hasParent cs ->
  exists c, c ∈ cs /\ isElement c = true /\ parentsSet c = false.
Proof.
  destruct n as [i t a p s1 s2 s3 cs'|]; [|done]. intros [= ->] Hps Hhas.
  simpl in Hps.
  induction cs as [|c cs IH]; [done|].
  apply Forall_cons in Hhas as [Hc Hhas]. simpl in Hps.
  rewrite (bool_decide_eq_true_2 _ Hc) in Hps. simpl in Hps.
  destruct (parentsSet c) eqn:Hpc; simpl in Hps.
  - destruct (IH Hps Hhas) as (c' & ? & ? & ?). exists c'.
    split; [by right | done].
  - exists c. split; [left|]. split; [|done]. by destruct c.
Qed.

(** A turn of the driver on a first render goes straight to the child
    aligner. *)
Lemma driverStep_first_render (nm : gmap Z node) (st : state)
    (rest : list node) (n0 : node) :
  queue st = rest ++ [n0] ->
  exists s0,
    driverStep ∅ nm st = generateChildEdits ∅ nm n0 None s0
    /\ queue s0 = rest.
Proof.
  intros Eq. unfold driverStep. rewrite Eq, pop_snoc. simpl.
  rewrite lookupID_empty. eexists. split; [reflexivity|].
  by destruct (parent n0).
Qed.

(** The driver of a first render, started with an element in the queue that
    has a node without parent reference below it. *)
Lemma driver_missing_parent (nm : gmap Z node) :
  forall fuel st,
    Forall (fun n => isElement n = true) (queue st) ->
    Exists (fun n => parentsSet n = false) (queue st) ->
    (queueSize (queue st) <= fuel)%nat ->
    do_while fuel (driverStep ∅ nm) queueNonEmpty st = TypeError.
Proof.
  induction fuel as [|fuel IH]; intros st Hels Hbad Hsize.
  - destruct Hbad as [n q _|n q _]; pose proof (node_size_pos n);
      rewrite queueSize_cons in Hsize; lia.
  - assert (Hne : queue st <> []) by (intros E; rewrite E in Hbad;
                                      by apply Exists_nil in Hbad).
    destruct (exists_last Hne) as (rest & n0 & Eq).
    rewrite Eq in Hels, Hbad, Hsize.
    apply Forall_app in Hels as [Hrest Hn0]. rewrite Forall_singleton in Hn0.
    destruct n0 as [i0 t a p s1 s2 s3 cs0|]; [|done].
    destruct (driverStep_first_render nm st rest _ Eq) as (s0 & Hstep & Hq0).
    cbn [do_while]. rewrite Hstep.
    destruct (decide (Forall hasParent cs0)) as [Hhas|Hnot].
    + destruct (generateChildEdits_first_render nm
                  (Element i0 t a p s1 s2 s3 cs0) cs0 s0 eq_refl Hhas)
        as (s & -> & _ & Hqs & _).
      simpl.
      assert (Hq : queue s = rest ++ filter (fun c => isElement c = true) cs0).
      { by rewrite Hqs, Hq0. }
      assert (Hbad' : Exists (fun n => parentsSet n = false) (queue s)).
      { rewrite Hq. apply Exists_app.
        apply Exists_app in Hbad as [Hbad|Hbad]; [by left|]. right.
        apply Exists_cons in Hbad as [Hbad|Hbad];
          [|by apply Exists_nil in Hbad].
        destruct (parentsSet_false_child (Element i0 t a p s1 s2 s3 cs0)
                    cs0 eq_refl Hbad Hhas)
          as (c & Hc & Hel & Hpc).
        apply Exists_exists. exists c. split; [|done].
        by apply list_elem_of_filter. }
      assert (Hnon : queueNonEmpty s = true).
      { unfold queueNonEmpty. destruct (queue s); [|done].
        by apply Exists_nil in Hbad'. }
      rewrite Hnon. apply IH; [|done|].
      * rewrite Hq. apply Forall_app. split; [done|].
        apply Forall_forall. by intros c [? _]%list_elem_of_filter.
      * rewrite Hq. rewrite !queueSize_app, queueSize_cons in *.
        pose proof (sublist_queueSize _ _
                      (sublist_filter (fun c => isElement c = true) cs0)).
        unfold queueSize in *. simpl in *. lia.
    + apply not_Forall_Exists in Hnot; [|apply _].
      apply Exists_exists in Hnot as (c & Hc & Hp).
      rewrite (generateChildEdits_missing_parent nm
                 (Element i0 t a p s1 s2 s3 cs0) cs0 c s0 eq_refl Hc);
        [done|].
      unfold compose, hasParent in Hp. destruct (parent c); [|done].
      exfalso. apply Hp. by eexists.
Qed.

(** X11. On a first render of a tree whose root is an element, [domdiff]
    raises a [TypeError] when some node below the root lacks its parent
    reference: the insert of that node reads [parent.tagID]. *)
Theorem first_render_missing_parent (newNode : dom) :
  isElement (root newNode) = true ->
  parentsSet (root newNode) = false ->
  domdiff None newNode = TypeError.
Proof.
  intros Hel Hps. unfold domdiff, domdiff_run.
  rewrite (driver_missing_parent (nodeMap newNode)); [done|..]; simpl.
  - by apply Forall_singleton.
  - by apply Exists_cons_hd.
  - unfold queueSize. simpl. lia.
Qed.

Module OrphanExample.

(** The text below the [span] has no [parent]. *)
Definition x : node := Text "x" 40 None.
Definition span : node :=
  Element 2 "span" [] (Some (mkParent 1 1)) 20 21 22 [x].
Definition new_root : node := Element 1 "div" [] None 10 11 12 [span].
Definition new : dom :=
  mkDom new_root (list_to_map [(1, new_root); (2, span)]).

End OrphanExample.

Lemma first_render_missing_parent_witness :
  domdiff None OrphanExample.new = TypeError.
Proof.
  apply (first_render_missing_parent OrphanExample.new); reflexivity.
Defined.

(** * A new tree that shares no identity with the old one *)

Lemma while_ext (cond : state -> bool) (body1 body2 : state -> result state) :
  (forall s, cond s = true -> body1 s = body2 s) ->
  forall fuel st, while fuel cond body1 st = while fuel cond body2 st.
Proof.
  intros Hext. induction fuel as [|fuel IH]; intros st; simpl; [done|].
  destruct (cond st) eqn:Hc; [|done]. rewrite (Hext st Hc).
  destruct (body2 st); simpl; auto.
Qed.

Lemma do_while_ext (I : state -> Prop) (cond : state -> bool)
    (body1 body2 : state -> result state) :
  (forall s, I s -> body1 s = body2 s) ->
  (forall s s', I s -> body2 s = Ok s' -> I s') ->
  forall fuel st,
    I st -> do_while fuel body1 cond st = do_while fuel body2 cond st.
Proof.
  intros Hext Hkeep. induction fuel as [|fuel IH]; intros st HI; simpl;
    [done|].
  rewrite (Hext st HI). destruct (body2 st) as [s'| |] eqn:Hb; simpl;
    [|done..].
  destruct (cond s'); [|done]. apply IH. by eapply Hkeep.
Qed.

(** Without an old parent, the old [nodeMap] is only asked about the
    children of the new parent. *)
Lemma generateChildEdits_fresh (om nm : gmap Z node) (cp : node)
    (st : state) :
  (forall cs c, children cp = Some cs -> c ∈ cs ->
                lookupID om (tagID c) = None) ->
  generateChildEdits om nm cp None st = generateChildEdits ∅ nm cp None st.
Proof.
  intros Hfresh. unfold generateChildEdits, mbind, result_bind.
  destruct (children cp) as [cs|] eqn:Hcs; [|done]. simpl.
  unfold childLoops, mbind, result_bind.
  rewrite (while_ext (bothRemain cs []) (compareStep om nm cp cs [])
             (compareStep ∅ nm cp cs [])).
  2:{ intros s Hc. unfold bothRemain in Hc. simpl in Hc.
      by rewrite andb_false_r in Hc. }
  destruct (while _ (bothRemain cs []) _ _) as [s1| |]; [|done..].
  destruct (while _ (oldRemain []) _ _) as [s2| |]; [|done..].
  rewrite (while_ext (currentRemain cs) (drainCurrentStep om cp cs)
             (drainCurrentStep ∅ cp cs)); [done|].
  intros s _. unfold drainCurrentStep, mbind, result_bind, deref.
  destruct (cs !! currentIndex s) as [c|] eqn:Ec; [|done].
  unfold addElementMove, addElementInsert.
  rewrite lookupID_empty, (Hfresh cs c eq_refl); [done|].
  by eapply list_elem_of_lookup_2.
Qed.

(** X12. When the old [nodeMap] holds none of the identities of the new tree,
    [domdiff] returns what it returns on a first render of the new tree: the
    old tree is not looked at, and nothing of it is deleted. *)
Theorem domdiff_disjoint_identities (oldNode newNode : dom) :
  (forall n, n ∈ subtrees (root newNode) ->
             lookupID (nodeMap oldNode) (tagID n) = None) ->
  domdiff (Some oldNode) newNode = domdiff None newNode.
Proof.
  intros Hfresh. unfold domdiff, domdiff_run. simpl. f_equal.
  apply (do_while_ext
           (fun s => Forall (fun n => n ∈ subtrees (root newNode))
                       (queue s))).
  - intros s Hq. unfold driverStep, mbind, result_bind, deref.
    destruct (pop (queue s)) as [[n0 rest]|] eqn:Hpop; [|done]. simpl.
    assert (Hn0 : n0 ∈ subtrees (root newNode)).
    { unfold pop in Hpop. destruct (last (queue s)) as [x|] eqn:Hl; [|done].
      injection Hpop as -> _. apply last_Some in Hl as [q' Hl].
      rewrite Hl in Hq. apply Forall_app in Hq as [_ Hq].
      by rewrite Forall_singleton in Hq. }
    rewrite lookupID_empty, (Hfresh n0 Hn0).
    apply generateChildEdits_fresh. intros cs c Hcs Hc.
    apply Hfresh. by eapply subtrees_children.
  - intros s s' Hq Hstep.
    pose proof (driverStep_queue_nonempty _ _ _ _ Hstep) as Hne.
    destruct (exists_last Hne) as (rest & n0 & Eq).
    rewrite Eq in Hq. apply Forall_app in Hq as [Hrest Hn0].
    rewrite Forall_singleton in Hn0.
    destruct (driverStep_first_render (nodeMap newNode) s rest n0 Eq)
      as (s0 & Hs0 & Hq0).
    rewrite Hs0 in Hstep.
    destruct (children n0) as [cs0|] eqn:Hcs.
    + destruct (generateChildEdits_queue ∅ (nodeMap newNode) n0 None cs0
                  s0 s' Hcs Hstep) as (pushed & -> & Hsub).
      rewrite Hq0. apply Forall_app. split; [done|].
      eapply sublist_Forall; [exact Hsub|].
      apply Forall_forall. intros c [_ Hc]%list_elem_of_filter.
      by eapply subtrees_children.
    + unfold generateChildEdits in Hstep. by rewrite Hcs in Hstep.
  - simpl. apply Forall_singleton. destruct (root newNode); left.
Qed.

Module DisjointExample.

(** An old tree whose identities (7, 8) do not occur in the new tree of
    [FirstRenderExample]. *)
Definition old_child : node :=
  Element 8 "ul" [] (Some (mkParent 7 1)) 80 81 82 [].
Definition old_root : node := Element 7 "div" [] None 70 71 72 [old_child].
Definition old : dom :=
  mkDom old_root (list_to_map [(7, old_root); (8, old_child)]).

End DisjointExample.

Lemma domdiff_disjoint_identities_witness :
  domdiff (Some DisjointExample.old) FirstRenderExample.new
  = domdiff None FirstRenderExample.new.
Proof.
  apply (domdiff_disjoint_identities DisjointExample.old
           FirstRenderExample.new).
  apply (proj1 (Forall_forall
                  (fun n => lookupID (nodeMap DisjointExample.old) (tagID n)
                            = None) _)).
  simpl. repeat (constructor; [reflexivity|]). constructor.
Defined.

(** * Inserts and deletes of one parent *)

(** The [elementInsert] of child [c]: its identity, tag, attributes and the
    identity of its parent. *)
Definition insertOf (c : node) (e : edit) : Prop :=
  type e = elementInsert /\ ed_tagID e = tagID c /\ ed_tag e = tag c
  /\ ed_attributes e = attributes c /\ parentID e = getParentID c.

(** The [elementDelete] of old child [o]. *)
Definition deleteOf (o : node) (e : edit) : Prop :=
  type e = elementDelete /\ ed_tagID e = tagID o.

(** The fix-ups of the pending edits only touch the positioning. *)
Definition keepsCore (f : edit -> edit) : Prop :=
  forall e, type (f e) = type e /\ ed_tagID (f e) = ed_tagID e
            /\ ed_tag (f e) = ed_tag e
            /\ ed_attributes (f e) = ed_attributes e
            /\ parentID (f e) = parentID e.

Lemma insertOf_map (f : edit -> edit) (c : node) (l : list edit) :
  keepsCore f -> Exists (insertOf c) l -> Exists (insertOf c) (map f l).
Proof.
  intros Hf H. apply Exists_fmap. eapply Exists_impl; [exact H|].
  intros e (?&?&?&?&?). destruct (Hf e) as (?&?&?&?&?).
  unfold insertOf, compose. repeat split; congruence.
Qed.

Lemma deleteOf_map (f : edit -> edit) (o : node) (l : list edit) :
  keepsCore f -> Exists (deleteOf o) l -> Exists (deleteOf o) (map f l).
Proof.
  intros Hf H. apply Exists_fmap. eapply Exists_impl; [exact H|].
  intros e (?&?). destruct (Hf e) as (?&?&?&?&?).
  unfold deleteOf, compose. split; congruence.
Qed.

Lemma insertOf_new (c : node) (p : parentRef) :
  parent c = Some p -> insertOf c (elementInsertEdit c (num (p_tagID p))).
Proof. intros Hp. unfold insertOf, getParentID. rewrite Hp. done. Qed.

Ltac keeps_core :=
  intros ?; simpl; repeat destruct (bool_decide _); simpl; done.

Ltac keep_exists HE lem :=
  apply Exists_app in HE as [HE|HE]; rewrite ?Exists_app;
  [ tauto
  | first
      [ tauto
      | match goal with
        | |- context [map ?f (newEdits _)] =>
            pose proof (lem f _ _ ltac:(keeps_core) HE); tauto
        end ] ].

(** An element that its tree's [nodeMap] holds, under its identity. *)
Definition registered (m : gmap Z node) (n : node) : Prop :=
  isElement n = true -> is_Some (lookupID m (tagID n)).

Section InsertsOfOneParent.

Variable oldNodeMap : gmap Z node.
Variable newNodeMap : gmap Z node.
Variable cp : node.
Variable cc : list node.
Variable oc : list node.
Hypothesis oc_registered : Forall (registered oldNodeMap) oc.

(** Every new child element already visited has its [elementInsert] and
    is in the queue. *)
Definition insertsInv (st : state) : Prop :=
  forall i c, (i < currentIndex st)%nat -> cc !! i = Some c ->
    freshElement oldNodeMap c ->
    Exists (insertOf c) (edits st ++ newEdits st) /\ c ∈ queue st.

Ltac fresh_contra :=
  match goal with
  | Hf : freshElement _ ?a |- _ =>
      let Hf1 := fresh in
      let Hf2 := fresh in
      destruct Hf as [Hf1 Hf2];
      first
        [ congruence
        | match goal with
          | Ht : bool_decide (tagID a <> tagID ?o) = false,
            Ho : oc !! _ = Some ?o |- _ =>
              let Hr := fresh in
              apply bool_decide_eq_false in Ht; apply dec_stable in Ht;
              pose proof (proj1 (Forall_lookup _ _) oc_registered _ _ Ho)
                as Hr;
              unfold registered in Hr; rewrite <- Ht, Hf2 in Hr;
              by destruct Hr
          end ]
  end.

Ltac keep_covered HI i c Hi Hc Hf :=
  let HE := fresh "HE" in
  let HQ := fresh "HQ" in
  destruct (HI i c Hi Hc Hf) as [HE HQ]; split;
  [ keep_exists HE insertOf_map | rewrite ?elem_of_app; tauto ].

Ltac solve_inserts :=
  match goal with
  | HI : insertsInv _ |- _ =>
      unfold insertsInv, finalizeNewEdits, fixupElementInsert in *;
      simpl in *;
      let i := fresh "i" in
      let c := fresh "c" in
      let Hi := fresh "Hi" in
      let Hc := fresh "Hc" in
      let Hf := fresh "Hf" in
      intros i c Hi Hc Hf;
      first
        [ keep_covered HI i c Hi Hc Hf
        | apply Nat.lt_succ_r, Nat.le_lteq in Hi as [Hi| ->];
          [ keep_covered HI i c Hi Hc Hf
          | match goal with
            | E : cc !! _ = Some ?a |- _ =>
                rewrite E in Hc; injection Hc as <-
            end;
            first
              [ fresh_contra
              | split;
                [ rewrite ?Exists_app, ?Exists_cons;
                  match goal with
                  | Hp : parent ?a = Some ?p |- _ =>
                      pose proof (insertOf_new a p Hp); tauto
                  end
                | rewrite ?elem_of_app, ?list_elem_of_singleton; tauto ] ] ] ]
  end.

Lemma compareStep_insertsInv st st' :
  insertsInv st ->
  compareStep oldNodeMap newNodeMap cp cc oc st = Ok st' ->
  insertsInv st'.
Proof.
  intros HI H. unfold_steps. crunch; decide_elements; solve_inserts.
Qed.

Lemma drainOldStep_insertsInv st st' :
  insertsInv st ->
  drainOldStep newNodeMap cc oc st = Ok st' ->
  insertsInv st'.
Proof.
  intros HI H. unfold_steps. crunch; decide_elements; solve_inserts.
Qed.

Lemma drainCurrentStep_insertsInv st st' :
  insertsInv st ->
  drainCurrentStep oldNodeMap cp cc st = Ok st' ->
  insertsInv st'.
Proof.
  intros HI H. unfold_steps. crunch; decide_elements; solve_inserts.
Qed.
End InsertsOfOneParent.

(** An old child element that the new [nodeMap] lacks. *)
Definition goneElement (nm : gmap Z node) (o : node) : Prop :=
  isElement o = true /\ lookupID nm (tagID o) = None.

Section DeletesOfOneParent.

Variable oldNodeMap : gmap Z node.
Variable newNodeMap : gmap Z node.
Variable cp : node.
Variable cc : list node.
Variable oc : list node.
Hypothesis cc_registered : Forall (registered newNodeMap) cc.

(** Every old child element already passed that is gone from the new tree
    has its [elementDelete]. *)
Definition deletesInv (st : state) : Prop :=
  forall i o, (i < oldIndex st)%nat -> oc !! i = Some o ->
    goneElement newNodeMap o ->
    Exists (deleteOf o) (edits st ++ newEdits st).

Ltac gone_contra :=
  match goal with
  | Hf : goneElement _ ?a |- _ =>
      let Hf1 := fresh in
      let Hf2 := fresh in
      destruct Hf as [Hf1 Hf2];
      first
        [ congruence
        | match goal with
          | Hm : hasMoved _ a = true |- _ =>
              unfold hasMoved in Hm; rewrite Hf1, Hf2 in Hm; discriminate Hm
          end
        | match goal with
          | Hn : negb (bool_decide (is_Some (lookupID _ (tagID a)))) = false
            |- _ =>
              rewrite Hf2 in Hn; discriminate Hn
          end
        | match goal with
          | Ht : bool_decide (tagID ?c <> tagID a) = false,
            Hc : cc !! _ = Some ?c |- _ =>
              let Hr := fresh in
              apply bool_decide_eq_false in Ht; apply dec_stable in Ht;
              pose proof (proj1 (Forall_lookup _ _) cc_registered _ _ Hc)
                as Hr;
              unfold registered in Hr; rewrite Ht, Hf2 in Hr;
              by destruct Hr
          end ]
  end.

Ltac solve_deletes :=
  match goal with
  | HI : deletesInv _ |- _ =>
      unfold deletesInv, finalizeNewEdits, fixupElementInsert in *;
      simpl in *;
      let i := fresh "i" in
      let o := fresh "o" in
      let Hi := fresh "Hi" in
      let Ho := fresh "Ho" in
      let Hf := fresh "Hf" in
      let HE := fresh "HE" in
      intros i o Hi Ho Hf;
      first
        [ pose proof (HI i o Hi Ho Hf) as HE; keep_exists HE deleteOf_map
        | apply Nat.lt_succ_r, Nat.le_lteq in Hi as [Hi| ->];
          [ pose proof (HI i o Hi Ho Hf) as HE; keep_exists HE deleteOf_map
          | match goal with
            | E : oc !! _ = Some ?a |- _ =>
                rewrite E in Ho; injection Ho as <-
            end;
            first
              [ gone_contra
              | rewrite ?Exists_app, ?Exists_cons;
                match goal with
                | |- context [elementDeleteEdit ?a] =>
                    assert (deleteOf a (elementDeleteEdit a)) by done; tauto
                end ] ] ]
  end.

Lemma compareStep_deletesInv st st' :
  deletesInv st ->
  compareStep oldNodeMap newNodeMap cp cc oc st = Ok st' ->
  deletesInv st'.
Proof.
  intros HI H. unfold_steps. crunch; decide_elements; solve_deletes.
Qed.

Lemma drainOldStep_deletesInv st st' :
  deletesInv st ->
  drainOldStep newNodeMap cc oc st = Ok st' ->
  deletesInv st'.
Proof.
  intros HI H. unfold_steps. crunch; decide_elements; solve_deletes.
Qed.

Lemma drainCurrentStep_deletesInv st st' :
  deletesInv st /\ (length oc <= oldIndex st)%nat ->
  drainCurrentStep oldNodeMap cp cc st = Ok st' ->
  deletesInv st' /\ (length oc <= oldIndex st')%nat.
Proof.
  intros [HI Hend] H. unfold_steps.
  crunch; decide_elements; (split; [solve_deletes | done]).
Qed.

End DeletesOfOneParent.

(** A call of [generateChildEdits] that returns is a run of its three
    loops on the two child lists, started with fresh locals. *)
Lemma generateChildEdits_loops (om nm : gmap Z node) (cp : node)
    (op : option node) (cs ocs : list node) (st st' : state) :
  children cp = Some cs ->
  match op with Some o => children o | None => Some [] end = Some ocs ->
  generateChildEdits om nm cp op st = Ok st' ->
  childLoops om nm cp cs ocs
    (set_textAfterID undefined
       (set_newEdits [] (set_oldIndex 0 (set_currentIndex 0 st)))) = Ok st'.
Proof.
  intros Hcs Hocs H. unfold generateChildEdits in H.
  unfold mbind, result_bind in H. rewrite Hcs in H. simpl in H.
  assert (Hoc : match op with
                | Some o => deref (children o)
                | None => Ok []
                end = Ok ocs).
  { destruct op as [o|]; [by rewrite Hocs | by injection Hocs as <-]. }
  by rewrite Hoc in H.
Qed.

(** The loops insert every new child element ... *)
Lemma childLoops_inserts_new (om nm : gmap Z node) (cp : node)
    (cs ocs : list node) (s0 st' : state) (c : node) :
  Forall (registered om) ocs ->
  childLoops om nm cp cs ocs s0 = Ok st' ->
  currentIndex s0 = 0%nat ->
  c ∈ cs ->
  isElement c = true ->
  lookupID om (tagID c) = None ->
  (exists e, e ∈ edits st' /\ insertOf c e) /\ c ∈ queue st'.
Proof.
  intros Hreg H Hstart Hc Hel Hfresh.
  apply (childLoops_inv om nm (insertsInv om cs)) in H
    as (s & HI & Hend & ->).
  - unfold currentRemain in Hend. apply Nat.ltb_ge in Hend.
    apply list_elem_of_lookup in Hc as [i Hi].
    pose proof (lookup_lt_Some _ _ _ Hi) as Hlt.
    destruct (HI i c ltac:(lia) Hi (conj Hel Hfresh)) as [HE HQ].
    split; [|done]. apply Exists_exists. unfold finalizeRemaining. simpl.
    apply Exists_app in HE as [HE|HE]; apply Exists_app; [by left|right].
    apply insertOf_map; [|done]. intros e. simpl. by destruct (_ || _).
  - intros s s' ? _. by eapply compareStep_insertsInv.
  - intros s s' ? _. by eapply drainOldStep_insertsInv.
  - intros s s' ? _. by eapply drainCurrentStep_insertsInv.
  - intros i c' Hi. lia.
Qed.

(** ... and delete every old child element that is gone. *)
Lemma childLoops_deletes_gone (om nm : gmap Z node) (cp : node)
    (cs ocs : list node) (s0 st' : state) (o : node) :
  Forall (registered nm) cs ->
  childLoops om nm cp cs ocs s0 = Ok st' ->
  oldIndex s0 = 0%nat ->
  o ∈ ocs ->
  isElement o = true ->
  lookupID nm (tagID o) = None ->
  exists e, e ∈ edits st' /\ type e = elementDelete
            /\ ed_tagID e = tagID o.
Proof.
  intros Hreg H Hstart Ho Hel Hgone.
  apply (childLoops_inv3 om nm (deletesInv nm ocs) (deletesInv nm ocs)
           (fun s => deletesInv nm ocs s /\ (length ocs <= oldIndex s)%nat))
    in H as (s & [HI Hend] & _ & ->).
  - apply list_elem_of_lookup in Ho as [i Hi].
    pose proof (lookup_lt_Some _ _ _ Hi) as Hlt.
    pose proof (HI i o ltac:(lia) Hi (conj Hel Hgone)) as HE.
    apply Exists_exists. unfold finalizeRemaining. simpl.
    apply Exists_app in HE as [HE|HE]; apply Exists_app; [by left|right].
    apply (deleteOf_map _ o); [|done].
    intros e. simpl. by destruct (_ || _).
  - intros s s' ? _. by eapply compareStep_deletesInv.
  - done.
  - intros s s' ? _. by eapply drainOldStep_deletesInv.
  - intros s HI Hc. split; [done|]. unfold oldRemain in Hc.
    by apply Nat.ltb_ge in Hc.
  - intros s s' ? _. by eapply drainCurrentStep_deletesInv.
  - intros i o' Hi. lia.
Qed.

(** X13. A call of [generateChildEdits] that returns has appended, for every
    child element of the new parent whose identity the old [nodeMap] lacks,
    an [elementInsert] with the child's identity, tag, attributes and parent
    identity, and has put the child into the queue - given that the old
    [nodeMap] holds the old parent's child elements. *)
Theorem generateChildEdits_inserts_new (om nm : gmap Z node) (cp : node)
    (op : option node) (cs ocs : list node) (st st' : state) (c : node) :
  children cp = Some cs ->
  match op with Some o => children o | None => Some [] end = Some ocs ->
  Forall (registered om) ocs ->
  generateChildEdits om nm cp op st = Ok st' ->
  c ∈ cs ->
  isElement c = true ->
  lookupID om (tagID c) = None ->
  (exists e, e ∈ edits st' /\ insertOf c e) /\ c ∈ queue st'.
Proof.
  intros Hcs Hocs Hreg H Hc Hel Hfresh.
  pose proof (generateChildEdits_loops _ _ _ _ _ _ _ _ Hcs Hocs H) as Hloops.
  by apply (childLoops_inserts_new om nm cp cs ocs _ st' c Hreg Hloops
              eq_refl).
Qed.

(** X14. A call of [generateChildEdits] that returns has appended an
    [elementDelete] for every child element of the old parent whose identity
    the new [nodeMap] lacks - given that the new [nodeMap] holds the new
    parent's child elements. *)
Theorem generateChildEdits_deletes_gone (om nm : gmap Z node) (cp op : node)
    (cs ocs : list node) (st st' : state) (o : node) :
  children cp = Some cs ->
  children op = Some ocs ->
  Forall (registered nm) cs ->
  generateChildEdits om nm cp (Some op) st = Ok st' ->
  o ∈ ocs ->
  isElement o = true ->
  lookupID nm (tagID o) = None ->
  exists e, e ∈ edits st' /\ type e = elementDelete
            /\ ed_tagID e = tagID o.
Proof.
  intros Hcs Hocs Hreg H Ho Hel Hgone.
  pose proof (generateChildEdits_loops om nm cp (Some op) cs ocs st st'
                Hcs Hocs H) as Hloops.
  by apply (childLoops_deletes_gone om nm cp cs ocs _ st' o Hreg Hloops
              eq_refl).
Qed.

Module ReplaceExample.

(** The only child [<b>] (identity 5) is replaced by [<i>] (identity 6). *)
Definition b : node := Element 5 "b" [] (Some (mkParent 1 1)) 50 51 52 [].
Definition i : node :=
  Element 6 "i" [("class", "x")] (Some (mkParent 1 1)) 60 61 62 [].
Definition old_root : node := Element 1 "p" [] None 10 11 12 [b].
Definition new_root : node := Element 1 "p" [] None 10 21 22 [i].
Definition old : dom := mkDom old_root (list_to_map [(1, old_root); (5, b)]).
Definition new : dom := mkDom new_root (list_to_map [(1, new_root); (6, i)]).

End ReplaceExample.

Lemma generateChildEdits_inserts_new_witness :
  exists st',
    generateChildEdits (nodeMap ReplaceExample.old)
      (nodeMap ReplaceExample.new) ReplaceExample.new_root
      (Some ReplaceExample.old_root)
      (initialState ReplaceExample.new_root) = Ok st'
    /\ (exists e, e ∈ edits st' /\ insertOf ReplaceExample.i e)
    /\ ReplaceExample.i ∈ queue st'.
Proof.
  destruct (generateChildEdits (nodeMap ReplaceExample.old)
              (nodeMap ReplaceExample.new) ReplaceExample.new_root
              (Some ReplaceExample.old_root)
              (initialState ReplaceExample.new_root))
    as [st'| |] eqn:Hrun; [|vm_compute in Hrun; discriminate Hrun..].
  exists st'. split; [reflexivity|].
  apply (generateChildEdits_inserts_new (nodeMap ReplaceExample.old)
           (nodeMap ReplaceExample.new) ReplaceExample.new_root
           (Some ReplaceExample.old_root) [ReplaceExample.i]
           [ReplaceExample.b] (initialState ReplaceExample.new_root) st').
  - reflexivity.
  - reflexivity.
  - apply Forall_singleton. intros _. by eexists.
  - exact Hrun.
  - left.
  - reflexivity.
  - reflexivity.
Defined.

Lemma generateChildEdits_deletes_gone_witness :
  exists st' e,
    generateChildEdits (nodeMap ReplaceExample.old)
      (nodeMap ReplaceExample.new) ReplaceExample.new_root
      (Some ReplaceExample.old_root)
      (initialState ReplaceExample.new_root) = Ok st'
    /\ e ∈ edits st' /\ type e = elementDelete /\ ed_tagID e = num 5.
Proof.
  destruct (generateChildEdits (nodeMap ReplaceExample.old)
              (nodeMap ReplaceExample.new) ReplaceExample.new_root
              (Some ReplaceExample.old_root)
              (initialState ReplaceExample.new_root))
    as [st'| |] eqn:Hrun; [|vm_compute in Hrun; discriminate Hrun..].
  destruct (generateChildEdits_deletes_gone (nodeMap ReplaceExample.old)
              (nodeMap ReplaceExample.new) ReplaceExample.new_root
              ReplaceExample.old_root [ReplaceExample.i]
              [ReplaceExample.b] (initialState ReplaceExample.new_root) st'
              ReplaceExample.b) as (e & He & Hty & Hid).
  - reflexivity.
  - reflexivity.
  - apply Forall_singleton. intros _. by eexists.
  - exact Hrun.
  - left.
  - reflexivity.
  - reflexivity.
  - exists st', e. split; [reflexivity|]. split; [exact He|].
    split; [exact Hty | exact Hid].
Defined.

(** ** The edits of the root's children in the returned list *)

(** A turn of the driver only appends to the edit list. *)
Lemma driverStep_extends (om nm : gmap Z node) (st st' : state) :
  driverStep om nm st = Ok st' ->
  exists added, edits st' = edits st ++ added.
Proof.
  intros H. pose proof (driverStep_queue_nonempty _ _ _ _ H) as Hne.
  destruct (exists_last Hne) as (rest & cur & Eq).
  destruct (lookupID om (tagID cur)) as [old|] eqn:Hold.
  - destruct (driverStep_matched _ _ _ _ _ _ _ Eq Hold H)
      as (s1 & s2 & cs & Hcs & _ & _ & [a1 H1] & H2 & H3).
    assert (Hs2 : exists a2, edits s2 = edits s1 ++ a2).
    { destruct (bool_decide (childSignature _ <> _)).
      - by destruct (generateChildEdits_moves _ _ _ _ _ _ _ Hcs H2)
          as (_ & _ & ?).
      - subst s2. exists []. by rewrite app_nil_r. }
    destruct Hs2 as [a2 Hs2].
    assert (Hst' : edits st' = edits s2).
    { destruct (bool_decide (subtreeSignature _ <> _)); subst st'; [|done].
      apply fold_queuePush_edits. }
    exists (a1 ++ a2). by rewrite Hst', Hs2, H1, app_assoc.
  - destruct (driverStep_unmatched _ _ _ _ _ _ Eq Hold H)
      as (s0 & _ & _ & [a0 H0] & Hrun).
    assert (Hcs : exists cs, children cur = Some cs).
    { unfold generateChildEdits in Hrun.
      destruct (children cur); [by eexists | done]. }
    destruct Hcs as [cs Hcs].
    destruct (generateChildEdits_moves _ _ _ _ _ _ _ Hcs Hrun)
      as (_ & _ & [a1 H1]).
    exists (a0 ++ a1). by rewrite H1, H0, app_assoc.
Qed.

Lemma driver_extends (om nm : gmap Z node) (fuel : nat) (st st' : state) :
  do_while fuel (driverStep om nm) queueNonEmpty st = Ok st' ->
  exists added, edits st' = edits st ++ added.
Proof.
  intros H.
  apply (do_while_inv (fun s => exists added, edits s = edits st ++ added))
    in H as [H _]; [done| |].
  - intros s s' [a Ha] Hstep.
    destruct (driverStep_extends _ _ _ _ Hstep) as [a' Ha'].
    exists (a ++ a'). by rewrite Ha', Ha, app_assoc.
  - exists []. by rewrite app_nil_r.
Qed.

(** X15. Let the root of the new tree be matched in the old [nodeMap] with
    another child signature, and let each [nodeMap] hold the child elements
    of its root.  Then a list that [domdiff] returns holds an
    [elementInsert] (identity, tag, attributes, parent identity) for every
    child element of the new root that the old [nodeMap] lacks, and an
    [elementDelete] for every child element of the old root that the new
    [nodeMap] lacks. *)
Theorem domdiff_root_children (oldNode newNode : dom) (oldRoot : node)
    (cs ocs : list node) (es : list edit) :
  lookupID (nodeMap oldNode) (tagID (root newNode)) = Some oldRoot ->
  childSignature (root newNode) <> childSignature oldRoot ->
  children (root newNode) = Some cs ->
  children oldRoot = Some ocs ->
  Forall (registered (nodeMap oldNode)) ocs ->
  Forall (registered (nodeMap newNode)) cs ->
  domdiff (Some oldNode) newNode = Ok es ->
  (forall c, c ∈ cs -> isElement c = true ->
     lookupID (nodeMap oldNode) (tagID c) = None ->
     exists e, e ∈ es /\ insertOf c e)
  /\ (forall o, o ∈ ocs -> isElement o = true ->
        lookupID (nodeMap newNode) (tagID o) = None ->
        exists e, e ∈ es /\ type e = elementDelete
                  /\ ed_tagID e = tagID o).
Proof.
  intros Hold Hsig Hcs Hocs Hrego Hregn Hdiff.
  unfold domdiff, mbind, result_bind in Hdiff.
  destruct (domdiff_run (Some oldNode) newNode) as [st| |] eqn:Hrun;
    try discriminate.
  injection Hdiff as <-.
  unfold domdiff_run in Hrun. simpl in Hrun.
  destruct (node_size (root newNode)) as [|fuel]; [done|].
  simpl in Hrun.
  destruct (driverStep (nodeMap oldNode) (nodeMap newNode)
              (initialState (root newNode))) as [st1| |] eqn:Hstep;
    try discriminate.
  simpl in Hrun.
  destruct (driverStep_matched (nodeMap oldNode) (nodeMap newNode)
              (initialState (root newNode)) [] (root newNode) oldRoot st1
              eq_refl Hold Hstep)
    as (s1 & s2 & cs' & Hcs' & _ & _ & _ & H2 & H3).
  rewrite Hcs in Hcs'. injection Hcs' as <-.
  rewrite (bool_decide_eq_true_2 _ Hsig) in H2.
  assert (Hst1 : edits st1 = edits s2).
  { destruct (bool_decide (subtreeSignature _ <> _)); subst st1; [|done].
    apply fold_queuePush_edits. }
  assert (Hst : exists added, edits st = edits s2 ++ added).
  { rewrite <- Hst1. destruct (queueNonEmpty st1).
    - by eapply driver_extends.
    - injection Hrun as <-. exists []. by rewrite app_nil_r. }
  destruct Hst as [added Hst].
  assert (Hin : forall e, e ∈ edits s2 -> e ∈ withRememberNodes st).
  { intros e He. unfold withRememberNodes.
    assert (e ∈ edits st) by (rewrite Hst; apply elem_of_app; by left).
    destruct (0 <? length (moves st))%nat; [by right | done]. }
  split.
  - intros c Hc Hel Hfresh.
    destruct (childLoops_inserts_new _ _ _ cs ocs _ _ c Hrego
                (generateChildEdits_loops _ _ _ (Some oldRoot) cs ocs _ _
                   Hcs Hocs H2) eq_refl Hc Hel Hfresh)
      as [(e & He & Hins) _].
    exists e. split; [by apply Hin | done].
  - intros o Ho Hel Hgone.
    destruct (childLoops_deletes_gone _ _ _ cs ocs _ _ o Hregn
                (generateChildEdits_loops _ _ _ (Some oldRoot) cs ocs _ _
                   Hcs Hocs H2) eq_refl Ho Hel Hgone) as (e & He & Hdel).
    exists e. split; [by apply Hin | done].
Qed.

Lemma domdiff_root_children_witness :
  exists es,
    domdiff (Some ReplaceExample.old) ReplaceExample.new = Ok es
    /\ (exists e, e ∈ es /\ insertOf ReplaceExample.i e)
    /\ (exists e, e ∈ es /\ type e = elementDelete /\ ed_tagID e = num 5).
Proof.
  destruct (domdiff (Some ReplaceExample.old) ReplaceExample.new)
    as [es| |] eqn:Hrun; [|vm_compute in Hrun; discriminate Hrun..].
  destruct (domdiff_root_children ReplaceExample.old ReplaceExample.new
              ReplaceExample.old_root [ReplaceExample.i] [ReplaceExample.b]
              es) as (Hins & Hdel).
  - reflexivity.
  - discriminate.
  - reflexivity.
  - reflexivity.
  - apply Forall_singleton. intros _. by eexists.
  - apply Forall_singleton. intros _. by eexists.
  - exact Hrun.
  - exists es. split; [reflexivity|]. split.
    + apply (Hins ReplaceExample.i); [left|reflexivity..].
    + apply (Hdel ReplaceExample.b); [left|reflexivity..].
Defined.

(** * The anchors of the edits of one parent *)

(** The identity of a child element of the list. *)
Definition childID (l : list node) (v : jsid) : Prop :=
  exists c, c ∈ l /\ isElement c = true /\ tagID c = v.

(** An [afterID] is missing or names a child element of the new parent; a
    [beforeID] is missing or names a child element of both parents. *)
Definition afterOK (cc : list node) (v : jsid) : Prop :=
  v = undefined \/ childID cc v.

Definition beforeOK (cc oc : list node) (v : jsid) : Prop :=
  v = undefined \/ (childID cc v /\ childID oc v).

Definition anchored (cc oc : list node) (e : edit) : Prop :=
  afterOK cc (afterID e) /\ beforeOK cc oc (beforeID e).

(** A pending edit has no [beforeID] yet. *)
Definition pendingOK (cc : list node) (e : edit) : Prop :=
  afterOK cc (afterID e) /\ beforeID e = undefined.

Lemma pendingOK_withAfterID cc a e :
  afterOK cc a -> pendingOK cc e -> pendingOK cc (withAfterID a e).
Proof. intros Ha [? ?]. unfold withAfterID. by destruct (truthy a). Qed.

Lemma pendingOK_withAfterIDOrFirstChild cc a e :
  afterOK cc a -> pendingOK cc e -> pendingOK cc (withAfterIDOrFirstChild a e).
Proof.
  intros Ha [? ?]. unfold withAfterIDOrFirstChild. by destruct (truthy a).
Qed.

Lemma pendingOK_textDeleteAnchored cc p a e :
  afterOK cc a -> pendingOK cc e -> pendingOK cc (textDeleteAnchored p a e).
Proof.
  intros Ha He. unfold textDeleteAnchored. destruct (_ =? _)%nat; [done|].
  by apply pendingOK_withAfterID.
Qed.

Lemma pendingOK_textDeleteStart cc prev q :
  pendingOK cc (set_parentID q (textDeleteStart prev)).
Proof.
  unfold textDeleteStart. destruct prev as [p|]; [|by split; [left|]].
  destruct (negb (isElement p)); by split; [left|].
Qed.

Lemma pendingOK_fixup cc (l : list edit) :
  Forall (pendingOK cc) l ->
  Forall (pendingOK cc)
    (map (fun edit => if bool_decide (type edit = elementInsert)
                      then set_beforeText true edit else edit) l).
Proof.
  intros H. apply Forall_map. eapply Forall_impl; [exact H|].
  intros e He. simpl. by destruct (bool_decide _).
Qed.

Lemma anchored_finalize cc oc (b : jsid) (l : list edit) :
  childID cc b -> childID oc b ->
  Forall (pendingOK cc) l ->
  Forall (anchored cc oc)
    (map (fun edit => if bool_decide (type edit <> elementDelete)
                      then set_beforeID b edit else edit) l).
Proof.
  intros Hc Ho H. apply Forall_map. eapply Forall_impl; [exact H|].
  intros e [Ha Hb]. simpl. destruct (bool_decide _); split; simpl; try done.
  - by right.
  - left. done.
Qed.

Lemma anchored_remaining cc oc (l : list edit) :
  Forall (pendingOK cc) l ->
  Forall (anchored cc oc)
    (map (fun edit => if bool_decide (type edit = textInsert)
                         || bool_decide (type edit = elementInsert)
                         || bool_decide (type edit = elementMove)
                      then markLastChild edit else edit) l).
Proof.
  intros H. apply Forall_map. eapply Forall_impl; [exact H|].
  intros e [Ha Hb]. simpl. destruct (_ || _); split; simpl; try done;
    by left.
Qed.

Section AnchorsOfOneParent.

Variable oldNodeMap : gmap Z node.
Variable newNodeMap : gmap Z node.
Variable cp : node.
Variable cc : list node.
Variable oc : list node.
Variable edits0 : list edit.

(** The edits written so far are anchored, the pending ones wait for their
    [beforeID], and [textAfterID] names a child element of the new parent. *)
Definition anchorsInv (st : state) : Prop :=
  (exists added, edits st = edits0 ++ added /\ Forall (anchored cc oc) added)
  /\ Forall (pendingOK cc) (newEdits st)
  /\ afterOK cc (textAfterID st).


Ltac child_id :=
  match goal with
  | |- childID ?l (tagID ?x) =>
      first
        [ by (exists x; split;
              [ eapply list_elem_of_lookup_2; eassumption
              | split; assumption || reflexivity ])
        | match goal with
          | Ht : tagID ?y = tagID x |- _ =>
              by (exists y; split;
                  [eapply list_elem_of_lookup_2; eassumption
                  | split; [assumption | exact Ht]])
          end ]
  end.

Ltac pending_ok :=
  first
    [ assumption
    | by constructor
    | by (split; [left|])
    | by apply pendingOK_fixup
    | by (apply pendingOK_withAfterID; [assumption | split; [left|]])
    | by (apply pendingOK_withAfterIDOrFirstChild;
          [assumption | split; [left|]])
    | by (apply pendingOK_textDeleteAnchored;
          [assumption | apply pendingOK_textDeleteStart]) ].

Ltac solve_anchors :=
  repeat match goal with
         | H : bool_decide (_ <> _) = false |- _ =>
             apply bool_decide_eq_false in H; apply dec_stable in H
         end;
  unfold anchorsInv, finalizeNewEdits, fixupElementInsert; simpl;
  split;
  [ first
      [ by (eexists; split; [eassumption|assumption])
      | eexists; split;
        [ by (match goal with He : edits _ = _ |- _ => rewrite He end;
              rewrite <- app_assoc)
        | apply Forall_app; split; [assumption|];
          apply anchored_finalize; [child_id|child_id|assumption] ] ]
  | split;
    [ repeat rewrite Forall_app; repeat rewrite Forall_singleton;
      repeat match goal with |- _ /\ _ => split end; pending_ok
    | first [ assumption | by left | right; child_id ] ] ].

Lemma compareStep_anchorsInv st st' :
  anchorsInv st ->
  compareStep oldNodeMap newNodeMap cp cc oc st = Ok st' ->
  anchorsInv st'.
Proof.
  intros ((added & He & Ha) & Hn & Ht) H. unfold_steps.
  crunch; decide_elements; solve_anchors.
Qed.

Lemma drainOldStep_anchorsInv st st' :
  anchorsInv st ->
  drainOldStep newNodeMap cc oc st = Ok st' ->
  anchorsInv st'.
Proof.
  intros ((added & He & Ha) & Hn & Ht) H. unfold_steps.
  crunch; decide_elements; solve_anchors.
Qed.

Lemma drainCurrentStep_anchorsInv st st' :
  anchorsInv st ->
  drainCurrentStep oldNodeMap cp cc st = Ok st' ->
  anchorsInv st'.
Proof.
  intros ((added & He & Ha) & Hn & Ht) H. unfold_steps.
  crunch; decide_elements; solve_anchors.
Qed.

End AnchorsOfOneParent.

(** X16. The anchors of the edits that a call of [generateChildEdits] appends
    name siblings: an [afterID] is the identity of a child element of the new
    parent, and a [beforeID] is the identity of an element that is a child of
    the new parent and of the old parent. *)
Theorem generateChildEdits_anchors (om nm : gmap Z node) (cp : node)
    (op : option node) (cs ocs : list node) (st st' : state) :
  children cp = Some cs ->
  match op with Some o => children o | None => Some [] end = Some ocs ->
  generateChildEdits om nm cp op st = Ok st' ->
  exists added,
    edits st' = edits st ++ added
    /\ forall e, e ∈ added ->
         (afterID e = undefined \/ childID cs (afterID e))
         /\ (beforeID e = undefined
             \/ (childID cs (beforeID e) /\ childID ocs (beforeID e))).
Proof.
  intros Hcs Hocs H. unfold generateChildEdits in H.
  unfold mbind, result_bind in H. rewrite Hcs in H. simpl in H.
  assert (Hoc : match op with
                | Some o => deref (children o)
                | None => Ok []
                end = Ok ocs).
  { destruct op as [o|]; [by rewrite Hocs | by injection Hocs as <-]. }
  rewrite Hoc in H.
  apply (childLoops_inv om nm (anchorsInv cs ocs (edits st))) in H
    as (s & ((added & He & Ha) & Hn & _) & _ & ->).
  - unfold finalizeRemaining. simpl. eexists.
    split; [by rewrite He, <- app_assoc|].
    intros e Hin. apply elem_of_app in Hin as [Hin|Hin].
    + by apply (proj1 (Forall_forall _ _) Ha).
    + by apply (proj1 (Forall_forall _ _) (anchored_remaining cs ocs _ Hn)).
  - intros s s' ? _. by eapply compareStep_anchorsInv.
  - intros s s' ? _. by eapply drainOldStep_anchorsInv.
  - intros s s' ? _. by eapply drainCurrentStep_anchorsInv.
  - split; [|split]; simpl.
    + exists []. by rewrite app_nil_r.
    + constructor.
    + by left.
Qed.

Module AnchorExample.

(** An element and a text are inserted in front of the element 5, which
    stays. *)
Definition kept_old : node := Element 5 "b" [] (Some (mkParent 1 1)) 50 51 52 [].
Definition kept_new : node := Element 5 "b" [] (Some (mkParent 1 3)) 50 51 52 [].
Definition added : node := Element 6 "i" [] (Some (mkParent 1 3)) 60 61 62 [].
Definition text : node := Text "t" 7 (Some (mkParent 1 3)).
Definition old_root : node := Element 1 "p" [] None 10 11 12 [kept_old].
Definition new_root : node :=
  Element 1 "p" [] None 10 21 22 [added; text; kept_new].
Definition old : dom :=
  mkDom old_root (list_to_map [(1, old_root); (5, kept_old)]).
Definition new : dom :=
  mkDom new_root
    (list_to_map [(1, new_root); (5, kept_new); (6, added)]).

End AnchorExample.

Lemma generateChildEdits_anchors_witness :
  exists st',
    generateChildEdits (nodeMap AnchorExample.old)
      (nodeMap AnchorExample.new) AnchorExample.new_root
      (Some AnchorExample.old_root)
      (initialState AnchorExample.new_root) = Ok st'
    /\ map beforeID (edits st') = [num 5; num 5]
    /\ map afterID (edits st') = [undefined; num 6].
Proof.
  destruct (generateChildEdits (nodeMap AnchorExample.old)
              (nodeMap AnchorExample.new) AnchorExample.new_root
              (Some AnchorExample.old_root)
              (initialState AnchorExample.new_root))
    as [st'| |] eqn:Hrun; [|vm_compute in Hrun; discriminate Hrun..].
  destruct (generateChildEdits_anchors (nodeMap AnchorExample.old)
              (nodeMap AnchorExample.new) AnchorExample.new_root
              (Some AnchorExample.old_root)
              [AnchorExample.added; AnchorExample.text;
               AnchorExample.kept_new]
              [AnchorExample.kept_old]
              (initialState AnchorExample.new_root) st'
              eq_refl eq_refl Hrun) as (added & He & _).
  exists st'. split; [reflexivity|].
  vm_compute in Hrun. injection Hrun as <-. split; reflexivity.
Defined.

(** * Moves change the parent *)

(** An [elementMove] changes the parent: the old [nodeMap] holds the element
    under another parent than the one the edit names. *)
Definition movedOK (om : gmap Z node) (e : edit) : Prop :=
  type e = elementMove ->
  exists pm, lookupID om (ed_tagID e) = Some pm
             /\ getParentID pm <> parentID e.

Lemma movedOK_map (om : gmap Z node) (f : edit -> edit) (l : list edit) :
  keepsCore f -> Forall (movedOK om) l -> Forall (movedOK om) (map f l).
Proof.
  intros Hf H. apply Forall_map. eapply Forall_impl; [exact H|].
  intros e He. destruct (Hf e) as (Ht & Hi & _ & _ & Hp).
  unfold movedOK. simpl. rewrite Ht, Hi, Hp. exact He.
Qed.

Lemma movedOK_other (om : gmap Z node) (e : edit) :
  type e <> elementMove -> movedOK om e.
Proof. intros Hne Hty. done. Qed.

Section MovesChangeParent.

Variable oldNodeMap : gmap Z node.
Variable newNodeMap : gmap Z node.
Variable cp : node.
Variable cc : list node.
Variable oc : list node.
Hypothesis cc_linked : Forall (fun c => getParentID c = tagID cp) cc.

(** The moves written and pending change the parent. *)
Definition movedInv (st : state) : Prop :=
  Forall (movedOK oldNodeMap) (edits st)
  /\ Forall (movedOK oldNodeMap) (newEdits st).

Lemma movedOK_new (c pm : node) (p : parentRef) (i : nat) :
  cc !! i = Some c ->
  lookupID oldNodeMap (tagID c) = Some pm ->
  bool_decide (tagID cp <> getParentID pm) = true ->
  parent c = Some p ->
  movedOK oldNodeMap (elementMoveEdit c (num (p_tagID p))).
Proof.
  intros Hc Hpm Hne Hp _. exists pm. split; [done|]. simpl.
  apply bool_decide_eq_true in Hne.
  pose proof (proj1 (Forall_lookup _ _) cc_linked _ _ Hc) as Hl.
  simpl in Hl. unfold getParentID in Hl at 1. rewrite Hp in Hl.
  rewrite Hl. congruence.
Qed.

Ltac moved_ok :=
  first
    [ assumption
    | by constructor
    | by (apply movedOK_map; [keeps_core | assumption])
    | by (eapply movedOK_new; eassumption)
    | by (apply movedOK_other; solve_type) ].

Ltac solve_moved :=
  unfold movedInv, finalizeNewEdits, fixupElementInsert; simpl;
  repeat rewrite Forall_app; repeat rewrite Forall_singleton;
  repeat match goal with |- _ /\ _ => split end; moved_ok.

Lemma compareStep_movedInv st st' :
  movedInv st ->
  compareStep oldNodeMap newNodeMap cp cc oc st = Ok st' ->
  movedInv st'.
Proof.
  intros [He Hn] H. unfold_steps. crunch; decide_elements; solve_moved.
Qed.

Lemma drainOldStep_movedInv st st' :
  movedInv st ->
  drainOldStep newNodeMap cc oc st = Ok st' ->
  movedInv st'.
Proof.
  intros [He Hn] H. unfold_steps. crunch; decide_elements; solve_moved.
Qed.

Lemma drainCurrentStep_movedInv st st' :
  movedInv st ->
  drainCurrentStep oldNodeMap cp cc st = Ok st' ->
  movedInv st'.
Proof.
  intros [He Hn] H. unfold_steps. crunch; decide_elements; solve_moved.
Qed.

End MovesChangeParent.

Lemma generateChildEdits_movedOK (om nm : gmap Z node) (cp : node)
    (op : option node) (cs : list node) (st st' : state) :
  children cp = Some cs ->
  Forall (fun c => getParentID c = tagID cp) cs ->
  Forall (movedOK om) (edits st) ->
  generateChildEdits om nm cp op st = Ok st' ->
  Forall (movedOK om) (edits st').
Proof.
  intros Hcs Hl He H. unfold generateChildEdits in H.
  unfold mbind, result_bind in H. rewrite Hcs in H. simpl in H.
  destruct (match op with Some o => _ | None => _ end) as [oc| |];
    try discriminate.
  apply (childLoops_inv om nm (movedInv om)) in H
    as (s & [He' Hn'] & _ & ->).
  - unfold finalizeRemaining. simpl. apply Forall_app. split; [done|].
    apply movedOK_map; [|done]. intros e. simpl. by destruct (_ || _).
  - intros s s' ? _. by eapply compareStep_movedInv.
  - intros s s' ? _. by eapply drainOldStep_movedInv.
  - intros s s' ? _. by eapply drainCurrentStep_movedInv.
  - split; [done|]. constructor.
Qed.

Section MovedDriver.

Variable oldNodeMap : gmap Z node.
Variable newNodeMap : gmap Z node.
Variable T : node.
Hypothesis T_linked : linked T = true.

(** Between two turns of the driver: the moves written so far change the
    parent, and the queue holds nodes of the new tree. *)
Definition movedDriverInv (st : state) : Prop :=
  Forall (movedOK oldNodeMap) (edits st)
  /\ Forall (fun n => n ∈ subtrees T) (queue st).

Lemma children_linked (n : node) (cs : list node) :
  n ∈ subtrees T ->
  children n = Some cs ->
  Forall (fun c => getParentID c = tagID n) cs
  /\ Forall (fun c => c ∈ subtrees T) cs.
Proof.
  intros Hn Hcs. pose proof (linked_subtrees _ _ T_linked Hn) as Hl.
  split; apply Forall_forall; intros c Hc.
  - by destruct (linked_children n cs c Hl Hcs Hc).
  - by eapply subtrees_children.
Qed.

Lemma generateChildEdits_movedDriverInv (cur : node) (op : option node)
    (st st' : state) :
  cur ∈ subtrees T ->
  movedDriverInv st ->
  generateChildEdits oldNodeMap newNodeMap cur op st = Ok st' ->
  movedDriverInv st'.
Proof.
  intros Hcur [He Hq] H.
  destruct (children cur) as [cs|] eqn:Hcs;
    [|unfold generateChildEdits in H; by rewrite Hcs in H].
  destruct (children_linked cur cs Hcur Hcs) as [Hl Hsub].
  split.
  - by eapply generateChildEdits_movedOK.
  - destruct (generateChildEdits_queue _ _ _ _ _ _ _ Hcs H)
      as (pushed & -> & Hp).
    apply Forall_app. split; [done|].
    eapply sublist_Forall; [exact Hp|].
    apply Forall_forall. intros c [_ Hc]%list_elem_of_filter.
    by apply (proj1 (Forall_forall _ _) Hsub).
Qed.

Lemma driverStep_movedDriverInv (st st' : state) :
  movedDriverInv st ->
  driverStep oldNodeMap newNodeMap st = Ok st' ->
  movedDriverInv st'.
Proof.
  intros [He Hq] H.
  pose proof (driverStep_queue_nonempty _ _ _ _ H) as Hne.
  destruct (exists_last Hne) as (rest & cur & Eq).
  rewrite Eq in Hq. apply Forall_app in Hq as [Hrest Hcur].
  rewrite Forall_singleton in Hcur.
  unfold driverStep in H. rewrite Eq, pop_snoc in H. simpl in H.
  unfold mbind, result_bind in H.
  destruct (lookupID oldNodeMap (tagID cur)) as [old|] eqn:E.
  - match type of H with
    | match ?x with _ => _ end = _ =>
        destruct x as [s1| |] eqn:E1; try discriminate
    end.
    assert (HI1 : movedDriverInv s1).
    { destruct (bool_decide _) in E1.
      - destruct (generateAttributeEdits _ _ _) as [es| |] eqn:Ea;
          try discriminate.
        injection E1 as <-.
        apply generateAttributeEdits_appends in Ea as (added & -> & Hadded).
        split; simpl; [|done]. apply Forall_app. split; [done|].
        eapply Forall_impl; [exact Hadded|].
        intros e (t & k & v & -> & Ht). apply movedOK_other. simpl.
        destruct Ht as [->|[->| ->]]; done.
      - injection E1 as <-. by split. }
    match type of H with
    | match ?x with _ => _ end = _ =>
        destruct x as [s2| |] eqn:E2; try discriminate
    end.
    assert (HI2 : movedDriverInv s2).
    { destruct (bool_decide _) in E2.
      - by eapply generateChildEdits_movedDriverInv.
      - by injection E2 as <-. }
    destruct (bool_decide _) in H.
    + destruct (deref (children cur)) as [cs| |] eqn:Hcs;
        try discriminate.
      injection H as <-. destruct HI2 as [He2 Hq2]. split.
      * by rewrite fold_queuePush_edits.
      * rewrite fold_queuePush_queue. apply Forall_app. split; [done|].
        assert (Hcs' : children cur = Some cs)
          by (destruct (children cur); [by injection Hcs as -> | done]).
        destruct (children_linked cur cs Hcur Hcs') as [_ Hsub].
        apply Forall_forall. intros c [_ Hc]%list_elem_of_filter.
        by apply (proj1 (Forall_forall _ _) Hsub).
    + by injection H as <-.
  - eapply generateChildEdits_movedDriverInv; [exact Hcur| |exact H].
    destruct (parent cur); split; simpl; try done.
    apply Forall_app. split; [done|]. apply Forall_singleton.
    by apply movedOK_other.
Qed.

End MovedDriver.

(** X17. When the children of the new tree point back to their parents, every
    [elementMove] that [domdiff] returns changes the parent of its element:
    the old [nodeMap] holds the element, under a parent other than the
    [parentID] of the edit. *)
Theorem domdiff_moves_change_parent (oldNode : option dom) (newNode : dom)
    (es : list edit) (e : edit) :
  linked (root newNode) = true ->
  domdiff oldNode newNode = Ok es ->
  e ∈ es ->
  type e = elementMove ->
  exists pm,
    lookupID (oldNodeMapOf oldNode) (ed_tagID e) = Some pm
    /\ getParentID pm <> parentID e.
Proof.
  intros Hl Hrun He Hty. unfold domdiff, mbind, result_bind in Hrun.
  destruct (domdiff_run oldNode newNode) as [st| |] eqn:Hst;
    try discriminate.
  injection Hrun as <-. unfold domdiff_run in Hst.
  apply (do_while_inv
           (movedDriverInv (oldNodeMapOf oldNode) (root newNode))) in Hst
    as [[Hedits _] _].
  - assert (Hin : e ∈ edits st).
    { unfold withRememberNodes in He.
      destruct (0 <? length (moves st))%nat; [|done].
      apply elem_of_cons in He as [->|He]; [done | exact He]. }
    by apply (proj1 (Forall_forall _ _) Hedits e Hin).
  - intros s s'. by apply driverStep_movedDriverInv.
  - split; simpl; [constructor|]. apply Forall_singleton.
    destruct (root newNode); left.
Qed.

Lemma domdiff_moves_change_parent_witness :
  exists pm,
    lookupID (nodeMap Examples.moved_old) (num 7) = Some pm
    /\ getParentID pm <> num 2.
Proof.
  destruct (domdiff (Some Examples.moved_old) Examples.moved_new)
    as [es| |] eqn:Hrun; [|vm_compute in Hrun; discriminate Hrun..].
  pose proof Hrun as Hes. vm_compute in Hes. injection Hes as Hes.
  apply (domdiff_moves_change_parent (Some Examples.moved_old)
           Examples.moved_new es
           (markLastChild (elementMoveEdit Examples.moved_new_p (num 2)))).
  - reflexivity.
  - exact Hrun.
  - rewrite <- Hes. right. left.
  - reflexivity.
Defined.

(** * A new subtree is inserted as a whole *)

(** A turn of the driver takes the last element from the queue and appends
    to what is left. *)
Lemma driverStep_queue_rest (om nm : gmap Z node) (st st' : state)
    (rest : list node) (cur : node) :
  queue st = rest ++ [cur] ->
  driverStep om nm st = Ok st' ->
  exists pushed, queue st' = rest ++ pushed.
Proof.
  intros Eq H.
  destruct (lookupID om (tagID cur)) as [old|] eqn:Hold.
  - destruct (driverStep_matched _ _ _ _ _ _ _ Eq Hold H)
      as (s1 & s2 & cs & Hcs & Hq1 & _ & _ & H2 & H3).
    assert (Hs2 : exists p2, queue s2 = rest ++ p2).
    { destruct (bool_decide (childSignature _ <> _)).
      - destruct (generateChildEdits_queue _ _ _ _ _ _ _ Hcs H2)
          as (pushed & -> & _).
        exists pushed. by rewrite Hq1.
      - subst s2. exists []. by rewrite app_nil_r. }
    destruct Hs2 as [p2 Hs2].
    destruct (bool_decide (subtreeSignature _ <> _)); subst st'.
    + rewrite fold_queuePush_queue, Hs2, <- app_assoc. by eexists.
    + by exists p2.
  - destruct (driverStep_unmatched _ _ _ _ _ _ Eq Hold H)
      as (s0 & Hq0 & _ & _ & Hrun).
    assert (Hcs : exists cs, children cur = Some cs).
    { unfold generateChildEdits in Hrun.
      destruct (children cur); [by eexists | done]. }
    destruct Hcs as [cs Hcs].
    destruct (generateChildEdits_queue _ _ _ _ _ _ _ Hcs Hrun)
      as (pushed & -> & _).
    exists pushed. by rewrite Hq0.
Qed.

Section NewSubtree.

Variable oldNodeMap : gmap Z node.
Variable newNodeMap : gmap Z node.
Variable C : node.
Hypothesis C_fresh :
  forall n, n ∈ subtrees C -> lookupID oldNodeMap (tagID n) = None.

(** The children of every element of the new subtree are inserted, or the
    element is still below an element that waits in the queue. *)
Definition subtreeInv (st : state) : Prop :=
  forall p ps n,
    p ∈ subtrees C -> children p = Some ps -> n ∈ ps ->
    trailingInsert n ∈ edits st
    \/ exists q, q ∈ queue st /\ q ∈ subtrees C /\ p ∈ subtrees q.

Lemma driverStep_subtreeInv (st st' : state) :
  subtreeInv st ->
  driverStep oldNodeMap newNodeMap st = Ok st' ->
  subtreeInv st'.
Proof.
  intros HI H.
  destruct (driverStep_extends _ _ _ _ H) as [added Hadd].
  pose proof (driverStep_queue_nonempty _ _ _ _ H) as Hne.
  destruct (exists_last Hne) as (rest & q0 & Eq).
  destruct (driverStep_queue_rest _ _ _ _ _ _ Eq H) as [pushed Hqueue].
  intros p ps n Hp Hps Hn.
  destruct (HI p ps n Hp Hps Hn) as [Hin|(q & Hq & HqC & Hpq)].
  { left. rewrite Hadd. apply elem_of_app. by left. }
  rewrite Eq in Hq.
  apply elem_of_app in Hq as [Hq|Hq%list_elem_of_singleton].
  { right. exists q. split; [|done]. rewrite Hqueue.
    apply elem_of_app. by left. }
  subst q.
  destruct (driverStep_unmatched _ _ _ _ _ _ Eq (C_fresh q0 HqC) H)
    as (s0 & Hq0 & _ & [a0 Ha0] & Hrun).
  destruct (children q0) as [cs0|] eqn:Hcs0;
    [|unfold generateChildEdits in Hrun; by rewrite Hcs0 in Hrun].
  rewrite generateChildEdits_fresh in Hrun.
  2:{ intros cs c Hcs Hc. apply C_fresh. rewrite Hcs0 in Hcs.
      injection Hcs as <-. by eapply subtrees_children. }
  destruct (decide (Forall hasParent cs0)) as [Hhas|Hnot].
  2:{ apply not_Forall_Exists in Hnot; [|apply _].
      apply Exists_exists in Hnot as (c & Hc & Hpar).
      rewrite (generateChildEdits_missing_parent newNodeMap q0 cs0 c s0
                 Hcs0 Hc) in Hrun; [done|].
      unfold compose, hasParent in Hpar. destruct (parent c); [|done].
      exfalso. apply Hpar. by eexists. }
  destruct (generateChildEdits_first_render newNodeMap q0 cs0 s0 Hcs0 Hhas)
    as (s & Hs & Hes & Hqs & _).
  rewrite Hs in Hrun. injection Hrun as <-.
  destruct q0 as [i t a pr s1 s2 s3 cs0'|]; [|done].
  simpl in Hcs0. injection Hcs0 as ->. simpl in Hpq.
  apply elem_of_cons in Hpq as [->|Hpq].
  - left. simpl in Hps. injection Hps as <-. rewrite Hes.
    apply elem_of_app. right. apply list_elem_of_fmap. by exists n.
  - right. apply elem_of_flat_map in Hpq as (c' & Hc' & Hpc').
    exists c'. split; [|split; [|done]].
    + rewrite Hqs. apply elem_of_app. right.
      apply list_elem_of_filter. split; [|done].
      destruct c'; [done|]. simpl in Hpc'.
      apply list_elem_of_singleton in Hpc'. by subst p.
    + by eapply (subtrees_children _ C c' cs0).
Qed.

End NewSubtree.

(** X18. Let the root of the new tree be matched in the old [nodeMap] with
    another child signature, the old [nodeMap] hold the child elements of the
    old root, and [C] be a child element of the new root such that the old
    [nodeMap] holds no identity of the subtree of [C].  Then the list
    [domdiff] returns holds the [elementInsert] of [C] and, for every node
    below [C], its trailing insert: the new subtree is inserted as a
    whole. *)
Theorem domdiff_inserts_new_subtree (oldNode newNode : dom)
    (oldRoot C : node) (cs ocs : list node) (es : list edit) :
  lookupID (nodeMap oldNode) (tagID (root newNode)) = Some oldRoot ->
  childSignature (root newNode) <> childSignature oldRoot ->
  children (root newNode) = Some cs ->
  children oldRoot = Some ocs ->
  Forall (registered (nodeMap oldNode)) ocs ->
  C ∈ cs ->
  isElement C = true ->
  (forall n, n ∈ subtrees C -> lookupID (nodeMap oldNode) (tagID n) = None) ->
  domdiff (Some oldNode) newNode = Ok es ->
  (exists e, e ∈ es /\ insertOf C e)
  /\ forall p ps n,
       p ∈ subtrees C -> children p = Some ps -> n ∈ ps ->
       trailingInsert n ∈ es.
Proof.
  intros Hold Hsig Hcs Hocs Hreg HC Hel Hfresh Hdiff.
  unfold domdiff, mbind, result_bind in Hdiff.
  destruct (domdiff_run (Some oldNode) newNode) as [st| |] eqn:Hrun;
    try discriminate.
  injection Hdiff as <-.
  unfold domdiff_run in Hrun. simpl in Hrun.
  destruct (node_size (root newNode)) as [|fuel]; [done|].
  simpl in Hrun.
  destruct (driverStep (nodeMap oldNode) (nodeMap newNode)
              (initialState (root newNode))) as [st1| |] eqn:Hstep;
    try discriminate.
  simpl in Hrun.
  destruct (driverStep_matched (nodeMap oldNode) (nodeMap newNode)
              (initialState (root newNode)) [] (root newNode) oldRoot st1
              eq_refl Hold Hstep)
    as (s1 & s2 & cs' & Hcs' & _ & _ & _ & H2 & H3).
  rewrite Hcs in Hcs'. injection Hcs' as <-.
  rewrite (bool_decide_eq_true_2 _ Hsig) in H2.
  assert (HC_fresh : lookupID (nodeMap oldNode) (tagID C) = None).
  { apply Hfresh. destruct C; left. }
  destruct (childLoops_inserts_new _ _ _ cs ocs _ _ C Hreg
              (generateChildEdits_loops _ _ _ (Some oldRoot) cs ocs _ _
                 Hcs Hocs H2) eq_refl HC Hel HC_fresh)
    as [(e & He & Hins) HQ].
  assert (Hst1 : edits st1 = edits s2 /\ C ∈ queue st1).
  { destruct (bool_decide (subtreeSignature _ <> _)); subst st1; [|done].
    split; [apply fold_queuePush_edits|].
    rewrite fold_queuePush_queue. apply elem_of_app. by left. }
  destruct Hst1 as [Hst1 HQ1].
  assert (Hnon : queueNonEmpty st1 = true).
  { unfold queueNonEmpty. destruct (queue st1); [|done].
    by apply elem_of_nil in HQ1. }
  rewrite Hnon in Hrun.
  assert (Hin : forall e, e ∈ edits st -> e ∈ withRememberNodes st).
  { intros e' He'. unfold withRememberNodes.
    destruct (0 <? length (moves st))%nat; [by right | done]. }
  split.
  - destruct (driver_extends _ _ _ _ _ Hrun) as [added Hadd].
    exists e. split; [|done]. apply Hin. rewrite Hadd, Hst1.
    apply elem_of_app. by left.
  - apply (do_while_inv (subtreeInv C)) in Hrun as [HI Hc].
    + intros p ps n Hp Hps Hn. apply Hin.
      destruct (HI p ps n Hp Hps Hn) as [?|(q & Hq & _)]; [done|].
      unfold queueNonEmpty in Hc. destruct (queue st); [|done].
      by apply elem_of_nil in Hq.
    + intros s s'. by apply driverStep_subtreeInv.
    + intros p ps n Hp _ _. right. exists C. split; [done|].
      split; [destruct C; left | done].
Qed.

Module SubtreeExample.

(** A list with two items is added after the paragraph 5. *)
Definition kept_old : node := Element 5 "p" [] (Some (mkParent 1 1)) 50 51 52 [].
Definition kept_new : node := Element 5 "p" [] (Some (mkParent 1 2)) 50 51 52 [].
Definition one : node := Text "one" 71 (Some (mkParent 7 1)).
Definition li1 : node := Element 7 "li" [] (Some (mkParent 6 2)) 70 71 72 [one].
Definition li2 : node := Element 8 "li" [] (Some (mkParent 6 2)) 80 81 82 [].
Definition ul : node :=
  Element 6 "ul" [] (Some (mkParent 1 2)) 60 61 62 [li1; li2].
Definition old_root : node := Element 1 "div" [] None 10 11 12 [kept_old].
Definition new_root : node := Element 1 "div" [] None 10 21 22 [kept_new; ul].
Definition old : dom :=
  mkDom old_root (list_to_map [(1, old_root); (5, kept_old)]).
Definition new : dom :=
  mkDom new_root
    (list_to_map [(1, new_root); (5, kept_new); (6, ul); (7, li1);
                  (8, li2)]).

End SubtreeExample.

Lemma domdiff_inserts_new_subtree_witness :
  exists es,
    domdiff (Some SubtreeExample.old) SubtreeExample.new = Ok es
    /\ trailingInsert SubtreeExample.li1 ∈ es
    /\ trailingInsert SubtreeExample.li2 ∈ es
    /\ trailingInsert SubtreeExample.one ∈ es.
Proof.
  destruct (domdiff (Some SubtreeExample.old) SubtreeExample.new)
    as [es| |] eqn:Hrun; [|vm_compute in Hrun; discriminate Hrun..].
  destruct (domdiff_inserts_new_subtree SubtreeExample.old
              SubtreeExample.new SubtreeExample.old_root SubtreeExample.ul
              [SubtreeExample.kept_new; SubtreeExample.ul]
              [SubtreeExample.kept_old] es) as [_ Hbelow].
  - reflexivity.
  - discriminate.
  - reflexivity.
  - reflexivity.
  - apply Forall_singleton. intros _. by eexists.
  - right. left.
  - reflexivity.
  - apply (proj1 (Forall_forall
                    (fun n => lookupID (nodeMap SubtreeExample.old) (tagID n)
                              = None) _)).
    simpl. repeat (constructor; [reflexivity|]). constructor.
  - exact Hrun.
  - exists es. split; [reflexivity|].
    split; [|split].
    + apply (Hbelow SubtreeExample.ul
               [SubtreeExample.li1; SubtreeExample.li2]);
        [left | reflexivity | left].
    + apply (Hbelow SubtreeExample.ul
               [SubtreeExample.li1; SubtreeExample.li2]);
        [left | reflexivity | right; left].
    + apply (Hbelow SubtreeExample.li1 [SubtreeExample.one]);
        [right; left | reflexivity | left].
Defined.

(** * Anomalies and the rest of the tree *)

(** A property of the edit list is due for the children of [target]: it
    holds already, or the way to [target] is still queued. *)
Definition due (om : gmap Z node) (P : list edit -> Prop) (target : node)
    (st : state) : Prop :=
  P (edits st) \/ exists n, n ∈ queue st /\ changedPath om target n.

Lemma driverStep_due (om nm : gmap Z node) (P : list edit -> Prop)
    (target : node) (st st' : state) :
  (forall es es', P es -> P (es ++ es')) ->
  (forall old s1 s2,
     lookupID om (tagID target) = Some old ->
     generateChildEdits om nm target (Some old) s1 = Ok s2 ->
     P (edits s2)) ->
  due om P target st ->
  driverStep om nm st = Ok st' ->
  due om P target st'.
Proof.
  intros Hmono Hgen HI H.
  pose proof (driverStep_queue_nonempty _ _ _ _ H) as Hne.
  destruct (exists_last Hne) as (rest & cur & Hq).
  destruct (driverStep_extends _ _ _ _ H) as [added Hedits].
  destruct (driverStep_queue_rest _ _ _ _ _ _ Hq H) as [pushed Hqueue].
  destruct HI as [Hdone|(n & Hn & Hpath)].
  { left. rewrite Hedits. by apply Hmono. }
  rewrite Hq in Hn. apply elem_of_app in Hn as [Hn|Hn].
  { right. exists n. split; [|done]. rewrite Hqueue.
    apply elem_of_app. by left. }
  apply list_elem_of_singleton in Hn as ->.
  destruct Hpath as [o Ho Hsig|n o cs' c' Ho Hsig Hcs' Hc' Hpath].
  - left.
    destruct (driverStep_matched _ _ _ _ _ _ _ Hq Ho H)
      as (s1 & s2 & cs2 & _ & _ & _ & _ & H2 & H3).
    rewrite (bool_decide_eq_true_2 _ Hsig) in H2.
    pose proof (Hgen o s1 s2 Ho H2) as HP.
    destruct (bool_decide (subtreeSignature target <> _)); subst st';
      [by rewrite fold_queuePush_edits | done].
  - right. exists c'. split; [|done].
    destruct (driverStep_matched _ _ _ _ _ _ _ Hq Ho H)
      as (s1 & s2 & cs2 & Hcs2 & _ & _ & _ & _ & H3).
    rewrite Hcs' in Hcs2. injection Hcs2 as <-.
    rewrite (bool_decide_eq_true_2 _ Hsig) in H3. subst st'.
    rewrite fold_queuePush_queue. apply elem_of_app. right.
    apply list_elem_of_filter. split; [|done].
    by eapply changedPath_matched.
Qed.

(** What the aligner establishes for the children of an element on a changed
    path holds of the final edit list. *)
Lemma domdiff_run_due (oldNode : option dom) (newNode : dom)
    (P : list edit -> Prop)
    (target : node) (st : state) :
  (forall es es', P es -> P (es ++ es')) ->
  (forall old s1 s2,
     lookupID (oldNodeMapOf oldNode) (tagID target) = Some old ->
     generateChildEdits (oldNodeMapOf oldNode) (nodeMap newNode) target
       (Some old) s1 = Ok s2 ->
     P (edits s2)) ->
  changedPath (oldNodeMapOf oldNode) target (root newNode) ->
  domdiff_run oldNode newNode = Ok st ->
  P (edits st).
Proof.
  intros Hmono Hgen Hpath Hrun.
  pose proof (domdiff_run_driverInv _ _ _ Hrun) as [_ Hqueue].
  unfold domdiff_run in Hrun.
  apply (do_while_inv (due (oldNodeMapOf oldNode) P target)) in Hrun
    as [[HP|(n & Hn & _)] _].
  - done.
  - rewrite Hqueue in Hn. by apply elem_of_nil in Hn.
  - intros s s'. by apply driverStep_due.
  - right. exists (root newNode). split; [left|done].
Qed.

(** C7 (amended). On every input pair of the shape [domdiff] is written for
    (the new root is an element, the old [nodeMap] holds elements, children
    carry their parent back-reference) in which no old node has an attribute
    named [hasOwnProperty] - whatever the identities are, duplicated or
    inconsistent - the driver loop ends with an empty queue within its
    bound, no [TypeError] is raised, and [domdiff] returns the edits of the
    final state, behind a [rememberNodes] edit when there were moves.
    The diff goes on after an anomaly: for every element that the driver
    reaches along changed signatures, the returned list holds an
    [elementInsert] for each child element the old [nodeMap] lacks and an
    [elementDelete] for each child element of its old counterpart that the
    new [nodeMap] lacks (the children of the other tree being held by its
    [nodeMap]), whatever anomalies were logged.  At an alignment anomaly
    (two different elements at the same position, neither insertable nor
    deletable, nor moved) the first loop logs the anomaly and advances both
    indices, leaving everything else as it was; a trailing old element that
    cannot be deleted is logged and skipped in the same way. *)
Theorem domdiff_never_aborts (oldNode : option dom) (newNode : dom) :
  wellShaped oldNode newNode ->
  plainSnapshot oldNode ->
  (exists st es,
      domdiff_run oldNode newNode = Ok st
      /\ queue st = []
      /\ domdiff oldNode newNode = Ok es
      /\ es = match moves st with
              | [] => edits st
              | _ :: _ => rememberNodesEdit (moves st) :: edits st
              end
      /\ (forall target old cs ocs,
            changedPath (oldNodeMapOf oldNode) target (root newNode) ->
            lookupID (oldNodeMapOf oldNode) (tagID target) = Some old ->
            children target = Some cs ->
            children old = Some ocs ->
            (Forall (registered (oldNodeMapOf oldNode)) ocs ->
             forall c, c ∈ cs -> isElement c = true ->
               lookupID (oldNodeMapOf oldNode) (tagID c) = None ->
               exists e, e ∈ es /\ insertOf c e)
            /\ (Forall (registered (nodeMap newNode)) cs ->
                forall o, o ∈ ocs -> isElement o = true ->
                  lookupID (nodeMap newNode) (tagID o) = None ->
                  exists e, e ∈ es /\ type e = elementDelete
                            /\ ed_tagID e = tagID o)))
  /\ (forall cp cc oc st c o pm,
         cc !! currentIndex st = Some c ->
         oc !! oldIndex st = Some o ->
         isElement c = true ->
         isElement o = true ->
         lookupID (oldNodeMapOf oldNode) (tagID c) = Some pm ->
         tagID cp = getParentID pm ->
         hasMoved (nodeMap newNode) o = false ->
         tagID c <> tagID o ->
         is_Some (lookupID (nodeMap newNode) (tagID o)) ->
         compareStep (oldNodeMapOf oldNode) (nodeMap newNode) cp cc oc st
         = Ok (incr_oldIndex
                 (incr_currentIndex
                    (set_console (console st ++ [msg_reordering]) st))))
  /\ (forall cc oc st o,
         oc !! oldIndex st = Some o ->
         isElement o = true ->
         hasMoved (nodeMap newNode) o = false ->
         is_Some (lookupID (nodeMap newNode) (tagID o)) ->
         drainOldStep (nodeMap newNode) cc oc st
         = Ok (incr_oldIndex
                 (set_console (console st ++ [msg_failed_delete]) st))).
Proof.
  intros Hshape Hplain. split; [|split].
  - destruct (domdiff_run_total _ _ Hshape Hplain) as [st Hrun].
    exists st, (withRememberNodes st). split; [done|]. split.
    { by apply domdiff_run_driverInv in Hrun as [_ ?]. }
    split; [unfold domdiff; by rewrite Hrun|].
    split; [unfold withRememberNodes; by destruct (moves st)|].
    assert (Hin : forall e, e ∈ edits st -> e ∈ withRememberNodes st).
    { intros e He. unfold withRememberNodes.
      destruct (0 <? length (moves st))%nat; [by right | done]. }
    intros target old cs ocs Hpath Hold Hcs Hocs. split.
    + intros Hreg c Hc Hel Hfresh.
      assert (HP : exists e, e ∈ edits st /\ insertOf c e).
      { apply (domdiff_run_due oldNode newNode
                 (fun es => exists e, e ∈ es /\ insertOf c e) target st);
          [| |done|done].
        - intros es es' (e & He & Hins). exists e. split; [|done].
          apply elem_of_app. by left.
        - intros old' s1 s2 Hold' Hgen. rewrite Hold in Hold'.
          injection Hold' as <-.
          by destruct (childLoops_inserts_new _ _ _ cs ocs _ _ c Hreg
                         (generateChildEdits_loops _ _ _ (Some old) cs ocs
                            _ _ Hcs Hocs Hgen) eq_refl Hc Hel Hfresh). }
      destruct HP as (e & He & Hins). exists e. split; [by apply Hin|done].
    + intros Hreg o Ho Hel Hgone.
      assert (HP : exists e, e ∈ edits st /\ type e = elementDelete
                             /\ ed_tagID e = tagID o).
      { apply (domdiff_run_due oldNode newNode
                 (fun es => exists e, e ∈ es /\ type e = elementDelete
                                      /\ ed_tagID e = tagID o) target st);
          [| |done|done].
        - intros es es' (e & He & Hdel). exists e. split; [|done].
          apply elem_of_app. by left.
        - intros old' s1 s2 Hold' Hgen. rewrite Hold in Hold'.
          injection Hold' as <-.
          exact (childLoops_deletes_gone _ _ _ cs ocs _ _ o Hreg
                   (generateChildEdits_loops _ _ _ (Some old) cs ocs
                      _ _ Hcs Hocs Hgen) eq_refl Ho Hel Hgone). }
      destruct HP as (e & He & Hdel). exists e. split; [by apply Hin|done].
  - intros. by eapply compareStep_anomaly.
  - intros. by eapply drainOldStep_anomaly.
Qed.

Module AnomalyExample.

(** The siblings 2 and 3 swap places, and element 9 is added after them. *)
Definition a_old : node := Element 2 "a" [] (Some (mkParent 1 2)) 20 21 22 [].
Definition b_old : node := Element 3 "b" [] (Some (mkParent 1 2)) 30 31 32 [].
Definition a_new : node := Element 2 "a" [] (Some (mkParent 1 3)) 20 21 22 [].
Definition b_new : node := Element 3 "b" [] (Some (mkParent 1 3)) 30 31 32 [].
Definition x : node := Element 9 "i" [] (Some (mkParent 1 3)) 90 91 92 [].
Definition old_root : node :=
  Element 1 "div" [] None 10 23 123 [a_old; b_old].
Definition new_root : node :=
  Element 1 "div" [] None 10 329 1329 [b_new; a_new; x].
Definition old : dom :=
  mkDom old_root (list_to_map [(1, old_root); (2, a_old); (3, b_old)]).
Definition new : dom :=
  mkDom new_root
    (list_to_map [(1, new_root); (2, a_new); (3, b_new); (9, x)]).

End AnomalyExample.

Lemma domdiff_never_aborts_witness :
  exists st es,
    domdiff_run (Some AnomalyExample.old) AnomalyExample.new = Ok st
    /\ console st = [msg_reordering; msg_reordering]
    /\ domdiff (Some AnomalyExample.old) AnomalyExample.new = Ok es
    /\ exists e, e ∈ es /\ insertOf AnomalyExample.x e.
Proof.
  destruct (domdiff_never_aborts (Some AnomalyExample.old)
              AnomalyExample.new)
    as [(st & es & Hrun & _ & Hdiff & _ & Hcont) _].
  - apply (bool_decide_unpack _). vm_compute. exact I.
  - apply (bool_decide_unpack _). vm_compute. exact I.
  - exists st, es. split; [exact Hrun|]. split.
    { vm_compute in Hrun. injection Hrun as <-. reflexivity. }
    split; [exact Hdiff|].
    destruct (Hcont AnomalyExample.new_root AnomalyExample.old_root
                [AnomalyExample.b_new; AnomalyExample.a_new;
                 AnomalyExample.x]
                [AnomalyExample.a_old; AnomalyExample.b_old])
      as [Hins _].
    + apply (changedPath_here _ _ AnomalyExample.old_root);
        [reflexivity | discriminate].
    + reflexivity.
    + reflexivity.
    + reflexivity.
    + apply (Hins ltac:(repeat constructor; intros _; by eexists)
               AnomalyExample.x).
      * right. right. left.
      * reflexivity.
      * reflexivity.
Defined.

(** The claim as first stated - no exception on any input pair - fails on
    inputs that [domdiff] takes on trust: a root that is a text node, and a
    node without its parent back-reference. *)
Lemma domdiff_throws_counterexample :
  domdiff None (mkDom (Text "x" 1 None) ∅) = TypeError
  /\ domdiff None OrphanExample.new = TypeError.
Proof. split; reflexivity. Qed.

(** * Runs of removed text *)

(** [n] turns of a loop, from [st] to [st']. *)
Inductive turns (cond : state -> bool) (body : state -> result state)
    : nat -> state -> state -> Prop :=
| turns_O st : turns cond body 0 st st
| turns_S n st s1 s2 :
    cond st = true -> body st = Ok s1 -> turns cond body n s1 s2 ->
    turns cond body (S n) st s2.


Lemma while_turns cond body n st st' fuel :
  turns cond body n st st' -> cond st' = false -> (n <= fuel)%nat ->
  while fuel cond body st = Ok st'.
Proof.
  intros H Hend. revert fuel.
  induction H as [st|n st s1 s2 Hc Hb _ IH]; intros fuel Hn.
  - by apply while_done.
  - destruct fuel as [|fuel]; [lia|]. simpl. rewrite Hc, Hb. simpl.
    apply IH; [done|lia].
Qed.

(** The state of [generateChildEdits] with the closure variables of
    [domdiff] taken from [st]. *)
Definition childState (st : state) (es : list edit) (ci oi : nat)
    (ne : list edit) (ta : jsid) : state :=
  {| queue := queue st; edits := es; moves := moves st;
     console := console st; currentIndex := ci; oldIndex := oi;
     newEdits := ne; textAfterID := ta |}.









Section Steps.

Variable om nm : gmap Z node.
Variable cp : node.
Variable cc oc : list node.
Variable s : state.

Local Abbreviation CS := (childState s).








Lemma lookup_middle {A} (X Y : list A) (c : A) :
  (X ++ c :: Y) !! length X = Some c.
Proof. by rewrite list_lookup_middle. Qed.




Lemma childLoops_turns (n1 n2 : nat) (st s1 s2 : state) :
  turns (bothRemain cc oc) (compareStep om nm cp cc oc) n1 st s1 ->
  bothRemain cc oc s1 = false ->
  turns (oldRemain oc) (drainOldStep nm cc oc) n2 s1 s2 ->
  oldRemain oc s2 = false ->
  currentRemain cc s2 = false ->
  (n1 <= length cc + length oc)%nat ->
  (n2 <= length cc + length oc)%nat ->
  childLoops om nm cp cc oc st = Ok (finalizeRemaining s2).
Proof.
  intros H1 E1 H2 E2 E3 Hn1 Hn2. unfold childLoops, mbind, result_bind.
  rewrite (while_turns _ _ n1 st s1) by (done || lia). cbv beta iota.
  rewrite (while_turns _ _ n2 s1 s2) by (done || lia). cbv beta iota.
  by rewrite while_done.
Qed.

End Steps.












Section Finish.

Variable om nm : gmap Z node.
Variable cp : node.
Variable cc oc : list node.
Variable s : state.

Local Abbreviation CS := (childState s).


End Finish.






Section Run.

Variable om nm : gmap Z node.
Variable cp : node.
Variable cc oc : list node.
Variable s : state.

Local Abbreviation CS := (childState s).


End Run.



Module RunBetweenExample.

(** Between the elements 5 and 6, which stay, three texts are replaced by
    one. *)
Definition b_old : node := Element 5 "b" [] (Some (mkParent 1 5)) 50 51 52 [].
Definition b_new : node := Element 5 "b" [] (Some (mkParent 1 3)) 50 51 52 [].
Definition e_old : node := Element 6 "i" [] (Some (mkParent 1 5)) 60 61 62 [].
Definition e_new : node := Element 6 "i" [] (Some (mkParent 1 3)) 60 61 62 [].
Definition ta : node := Text "a" 1 (Some (mkParent 1 5)).
Definition tb : node := Text "b" 2 (Some (mkParent 1 5)).
Definition tc : node := Text "c" 3 (Some (mkParent 1 5)).
Definition z : node := Text "z" 9 (Some (mkParent 1 3)).
Definition old_root : node :=
  Element 1 "p" [] None 10 11 12 [b_old; ta; tb; tc; e_old].
Definition new_root : node :=
  Element 1 "p" [] None 10 21 22 [b_new; z; e_new].
Definition old : dom :=
  mkDom old_root (list_to_map [(1, old_root); (5, b_old); (6, e_old)]).
Definition new : dom :=
  mkDom new_root (list_to_map [(1, new_root); (5, b_new); (6, e_new)]).

End RunBetweenExample.


(** * The loops end within their bounds *)

(** A loop whose body makes progress does not hit a bound above its
    measure. *)
Lemma while_in_bound (m : state -> nat) (cond : state -> bool)
    (body : state -> result state) :
  (forall s s', cond s = true -> body s = Ok s' -> (m s' < m s)%nat) ->
  (forall s, body s <> OutOfFuel) ->
  forall fuel st,
    (m st < fuel)%nat ->
    while fuel cond body st <> OutOfFuel
    /\ forall st', while fuel cond body st = Ok st' -> (m st' <= m st)%nat.
Proof.
  intros Hstep Hbody fuel.
  induction fuel as [|fuel IH]; intros st Hm; [lia|]. simpl.
  destruct (cond st) eqn:Hc; [|split; [done | by intros st' [= <-]]].
  destruct (body st) as [s1| |] eqn:Hb; simpl.
  - pose proof (Hstep st s1 Hc Hb) as Hlt.
    destruct (IH s1 ltac:(lia)) as [Hne Hle]. split; [done|].
    intros st' Hrun. specialize (Hle st' Hrun). lia.
  - done.
  - by destruct (Hbody st).
Qed.

Lemma compareStep_in_bound om nm cp cc oc st :
  compareStep om nm cp cc oc st <> OutOfFuel
  /\ forall st', bothRemain cc oc st = true ->
       compareStep om nm cp cc oc st = Ok st' ->
       (remaining cc oc st' < remaining cc oc st)%nat.
Proof.
  split.
  - intros H. unfold_steps. crunch.
  - intros st' Hc H. unfold_steps.
    crunch; unfold remaining; index_bounds; simpl; lia.
Qed.

Lemma drainOldStep_in_bound nm cc oc st :
  drainOldStep nm cc oc st <> OutOfFuel
  /\ forall st', oldRemain oc st = true ->
       drainOldStep nm cc oc st = Ok st' ->
       (remaining cc oc st' < remaining cc oc st)%nat.
Proof.
  split.
  - intros H. unfold_steps. crunch.
  - intros st' Hc H. unfold_steps.
    crunch; unfold remaining; index_bounds; simpl; lia.
Qed.

Lemma drainCurrentStep_in_bound om cp cc oc st :
  drainCurrentStep om cp cc st <> OutOfFuel
  /\ forall st', currentRemain cc st = true ->
       drainCurrentStep om cp cc st = Ok st' ->
       (remaining cc oc st' < remaining cc oc st)%nat.
Proof.
  split.
  - intros H. unfold_steps. crunch.
  - intros st' Hc H. unfold_steps.
    crunch; unfold remaining; index_bounds; simpl; lia.
Qed.

Lemma remaining_le cc oc st :
  (remaining cc oc st <= length cc + length oc)%nat.
Proof. unfold remaining. lia. Qed.

Lemma childLoops_in_bound om nm cp cc oc st :
  childLoops om nm cp cc oc st <> OutOfFuel.
Proof.
  unfold childLoops, mbind, result_bind.
  pose proof (remaining_le cc oc) as Hle.
  destruct (while_in_bound (remaining cc oc) (bothRemain cc oc)
              (compareStep om nm cp cc oc)) with
    (fuel := S (length cc + length oc)) (st := st) as [H1 _].
  { intros s s' Hc Hb. by apply (compareStep_in_bound om nm cp cc oc s). }
  { intros s. apply compareStep_in_bound. }
  { specialize (Hle st). lia. }
  destruct (while _ (bothRemain cc oc) _ st) as [s1| |]; [|done..].
  destruct (while_in_bound (remaining cc oc) (oldRemain oc)
              (drainOldStep nm cc oc)) with
    (fuel := S (length cc + length oc)) (st := s1) as [H2 _].
  { intros s s' Hc Hb. by apply (drainOldStep_in_bound nm cc oc s). }
  { intros s. apply drainOldStep_in_bound. }
  { specialize (Hle s1). lia. }
  destruct (while _ (oldRemain oc) _ s1) as [s2| |]; [|done..].
  destruct (while_in_bound (remaining cc oc) (currentRemain cc)
              (drainCurrentStep om cp cc)) with
    (fuel := S (length cc + length oc)) (st := s2) as [H3 _].
  { intros s s' Hc Hb. by apply (drainCurrentStep_in_bound om cp cc oc s). }
  { intros s. apply (drainCurrentStep_in_bound om cp cc oc). }
  { specialize (Hle s2). lia. }
  destruct (while _ (currentRemain cc) _ s2) as [s3| |]; done.
Qed.

Lemma generateChildEdits_in_bound om nm cp op st :
  generateChildEdits om nm cp op st <> OutOfFuel.
Proof.
  unfold generateChildEdits, mbind, result_bind.
  destruct (deref (children cp)) as [cc| |] eqn:Ec; [|done|].
  - destruct op as [o|]; simpl.
    + destruct (deref (children o)) as [oc| |] eqn:Eo; [|done|].
      * apply childLoops_in_bound.
      * unfold deref in Eo. by destruct (children o).
    + apply childLoops_in_bound.
  - unfold deref in Ec. by destruct (children cp).
Qed.

Lemma forEach_attrNewStep_in_bound id l acc :
  forEach (attrNewStep id) l acc <> OutOfFuel.
Proof.
  revert acc. induction l as [|k l IH]; intros [es s]; simpl; [done|].
  unfold mbind, result_bind, hasOwnProperty.
  destruct (bool_decide _); [|apply IH].
  destruct (attr_get "hasOwnProperty" _); [done|apply IH].
Qed.

Lemma generateAttributeEdits_in_bound es o n :
  generateAttributeEdits es o n <> OutOfFuel.
Proof.
  unfold generateAttributeEdits, generateAttributeEdits_store, mbind,
    result_bind.
  destruct (deref (attributes n)) as [na| |] eqn:En; [|done|].
  - pose proof (forEach_attrNewStep_in_bound (tagID o) (keys na)
                  (es, mkAttrStore (default [] (attributes o)) na
                         (default [] (attributes o)))) as H.
    simpl. destruct (forEach _ _ _) as [[es1 s1]| |]; done.
  - unfold deref in En. by destruct (attributes n).
Qed.

Lemma driverStep_in_bound om nm st :
  driverStep om nm st <> OutOfFuel
  /\ forall st', driverStep om nm st = Ok st' ->
       (queueSize (queue st') < queueSize (queue st))%nat.
Proof.
  split.
  - unfold driverStep, mbind, result_bind.
    destruct (deref (pop (queue st))) as [[cur rest]| |] eqn:Ep; [|done|].
    + destruct (lookupID om (tagID cur)) as [old|].
      * destruct (bool_decide (attributeSignature cur <> _)).
        -- pose proof (generateAttributeEdits_in_bound
                         (edits (set_queue rest st)) old cur) as Ha.
           destruct (generateAttributeEdits _ _ _) as [es| |]; [|done..].
           destruct (bool_decide (childSignature cur <> _)).
           ++ pose proof (generateChildEdits_in_bound om nm cur (Some old)
                            (set_edits es (set_queue rest st))) as Hg.
              destruct (generateChildEdits _ _ _ _ _) as [s2| |]; [|done..].
              destruct (bool_decide _); [|done].
              by destruct (deref (children cur)) as [cs| |] eqn:Ec;
                [| |unfold deref in Ec; destruct (children cur)].
           ++ destruct (bool_decide _); [|done].
              by destruct (deref (children cur)) as [cs| |] eqn:Ec;
                [| |unfold deref in Ec; destruct (children cur)].
        -- destruct (bool_decide (childSignature cur <> _)).
           ++ pose proof (generateChildEdits_in_bound om nm cur (Some old)
                            (set_queue rest st)) as Hg.
              destruct (generateChildEdits _ _ _ _ _) as [s2| |]; [|done..].
              destruct (bool_decide _); [|done].
              by destruct (deref (children cur)) as [cs| |] eqn:Ec;
                [| |unfold deref in Ec; destruct (children cur)].
           ++ destruct (bool_decide _); [|done].
              by destruct (deref (children cur)) as [cs| |] eqn:Ec;
                [| |unfold deref in Ec; destruct (children cur)].
      * apply generateChildEdits_in_bound.
    + unfold deref in Ep. by destruct (pop (queue st)).
  - intros st' H.
    pose proof (driverStep_queue_nonempty _ _ _ _ H) as Hne.
    destruct (exists_last Hne) as (rest & cur & Hq).
    rewrite Hq, queueSize_app. unfold queueSize at 3. simpl.
    rewrite Nat.add_0_r.
    assert (Hcur : forall cs, children cur = Some cs ->
              node_size cur = S (queueSize cs)).
    { intros cs Hcs. destruct cur; [|done]. by injection Hcs as <-. }
    destruct (lookupID om (tagID cur)) as [old|] eqn:Hold.
    + destruct (driverStep_matched _ _ _ _ _ _ _ Hq Hold H)
        as (s1 & s2 & cs & Hcs & Hq1 & _ & _ & H2 & H3).
      rewrite (Hcur cs Hcs).
      pose proof (fresh_matched_weight om node_size cs) as Hw.
      assert (Hs2 : exists pushed,
                 queue s2 = rest ++ pushed
                 /\ sublist pushed (filter (freshElement om) cs)).
      { destruct (bool_decide (childSignature cur <> _)).
        - destruct (generateChildEdits_queue om nm cur _ cs _ _ Hcs H2)
            as (pushed & Hq2 & Hs).
          exists pushed. by rewrite Hq2, Hq1.
        - subst s2. exists []. rewrite app_nil_r.
          split; [done | apply sublist_nil_l]. }
      destruct Hs2 as (pushed & Hq2 & Hs).
      pose proof (sublist_weight node_size _ _ Hs) as Hp.
      unfold weight in *. fold (queueSize pushed) in Hp.
      destruct (bool_decide (subtreeSignature cur <> _)); subst st'.
      * rewrite fold_queuePush_queue, Hq2, !queueSize_app.
        unfold queueSize in *. lia.
      * rewrite Hq2, queueSize_app. unfold queueSize in *. lia.
    + destruct (driverStep_unmatched _ _ _ _ _ _ Hq Hold H)
        as (s0 & Hq0 & _ & _ & Hgen).
      destruct (children cur) as [cs|] eqn:Hcs;
        [|unfold generateChildEdits in Hgen; by rewrite Hcs in Hgen].
      rewrite (Hcur cs eq_refl).
      destruct (generateChildEdits_queue om nm cur _ cs _ _ Hcs Hgen)
        as (pushed & Hq2 & Hs).
      pose proof (sublist_weight node_size _ _ Hs) as Hp.
      pose proof (fresh_matched_weight om node_size cs) as Hw.
      unfold weight in *.
      rewrite Hq2, Hq0, queueSize_app. unfold queueSize in *. lia.
Qed.

Lemma driver_in_bound om nm fuel st :
  queue st <> [] ->
  (queueSize (queue st) <= fuel)%nat ->
  do_while fuel (driverStep om nm) queueNonEmpty st <> OutOfFuel.
Proof.
  revert st. induction fuel as [|fuel IH]; intros st Hne Hsize.
  - destruct (queue st) as [|n q]; [done|].
    pose proof (node_size_pos n). unfold queueSize in Hsize. simpl in *. lia.
  - simpl. destruct (driverStep_in_bound om nm st) as [Hb Hlt].
    destruct (driverStep om nm st) as [s1| |]; [|done..]. simpl.
    specialize (Hlt s1 eq_refl).
    destruct (queueNonEmpty s1) eqn:Hc; [|done].
    apply IH; [|lia]. unfold queueNonEmpty in Hc. intros E.
    by rewrite E in Hc.
Qed.

(** X20. [domdiff] ends on every input: its loops stay within the bounds the
    embedding gives them - each turn of a child loop advances an index, each
    turn of the driver takes an element from the queue and enqueues only
    children of it - so the outcome is an edit list or a [TypeError]. *)
Theorem domdiff_ends (oldNode : option dom) (newNode : dom) :
  (exists es, domdiff oldNode newNode = Ok es)
  \/ domdiff oldNode newNode = TypeError.
Proof.
  unfold domdiff, domdiff_run, mbind, result_bind.
  pose proof (driver_in_bound (oldNodeMapOf oldNode) (nodeMap newNode)
                (node_size (root newNode)) (initialState (root newNode)))
    as H.
  destruct (do_while _ _ _ _) as [st| |]; [left; by eexists | by right |].
  exfalso. apply H; [done | | done]. simpl. unfold queueSize. simpl. lia.
Qed.


(** * Siblings that change places *)

(** A new child element and an old child element that both stay under this
    parent: each [nodeMap] holds the other tree's element, under the same
    parent. *)
Definition keptPair (om nm : gmap Z node) (cp c o : node) : Prop :=
  isElement c = true /\ isElement o = true
  /\ is_Some (lookupID om (tagID c)) /\ movedHere om cp c = false
  /\ is_Some (lookupID nm (tagID o)) /\ hasMoved nm o = false.

(** The positions at which the two lists hold different identities. *)
Fixpoint mismatches (cs ocs : list node) : nat :=
  match cs, ocs with
  | c :: cs', o :: ocs' =>
      ((if bool_decide (tagID c <> tagID o) then 1 else 0)
       + mismatches cs' ocs')%nat
  | _, _ => 0%nat
  end.

Lemma compareStep_keptPair om nm cp cc oc q es mv co ci oi ta c o :
  cc !! ci = Some c ->
  oc !! oi = Some o ->
  keptPair om nm cp c o ->
  compareStep om nm cp cc oc (mkState q es mv co ci oi [] ta)
  = Ok (if bool_decide (tagID c <> tagID o)
        then mkState q es mv (co ++ [msg_reordering]) (S ci) (S oi) [] ta
        else mkState q es mv co (S ci) (S oi) [] (tagID o)).
Proof.
  intros Ec Eo (Hc & Ho & [pm Hpm] & Hmv & Hnm & Hhm).
  unfold compareStep, mbind, result_bind, deref. simpl. rewrite Ec. simpl.
  rewrite Hc. unfold addElementMove, movedHere in *.
  rewrite Hc, Hpm in Hmv. simpl in Hmv. rewrite Hpm, Hmv. simpl.
  rewrite Eo. simpl. rewrite Hhm, Ho. simpl.
  destruct (bool_decide (tagID c <> tagID o)) eqn:Hid.
  - unfold addElementInsert, addElementDelete. simpl. rewrite Hpm.
    rewrite (bool_decide_eq_true_2 (is_Some (Some pm))) by by eexists.
    simpl. by rewrite (bool_decide_eq_true_2 _ Hnm).
  - unfold finalizeNewEdits. simpl. by rewrite app_nil_r.
Qed.

Lemma turns_keptPair om nm cp cc oc (l' l : list node) :
  Forall2 (keptPair om nm cp) l' l ->
  forall X' X Y' Y q es mv co ta,
    cc = X' ++ l' ++ Y' ->
    oc = X ++ l ++ Y ->
    exists ta',
      turns (bothRemain cc oc) (compareStep om nm cp cc oc) (length l')
        (mkState q es mv co (length X') (length X) [] ta)
        (mkState q es mv (co ++ replicate (mismatches l' l) msg_reordering)
           (length X' + length l') (length X + length l) [] ta').
Proof.
  induction 1 as [|c o l' l Hpair _ IH];
    intros X' X Y' Y q es mv co ta Hcc Hoc.
  - exists ta. simpl. rewrite !Nat.add_0_r, app_nil_r. constructor.
  - assert (Ec : cc !! length X' = Some c) by (subst cc; apply lookup_middle).
    assert (Eo : oc !! length X = Some o) by (subst oc; apply lookup_middle).
    set (co1 := if bool_decide (tagID c <> tagID o)
                then co ++ [msg_reordering] else co).
    set (ta1 := if bool_decide (tagID c <> tagID o) then ta else tagID o).
    destruct (IH (X' ++ [c]) (X ++ [o]) Y' Y q es mv co1 ta1) as [ta' Hrest].
    { by rewrite <- app_assoc. }
    { by rewrite <- app_assoc. }
    exists ta'. simpl length. eapply turns_S.
    + unfold bothRemain. simpl.
      apply lookup_lt_Some in Ec, Eo.
      apply andb_true_iff. split; by apply Nat.ltb_lt.
    + by apply compareStep_keptPair.
    + rewrite !length_app in Hrest. simpl in Hrest.
      replace (length X' + S (length l'))%nat
        with (length X' + 1 + length l')%nat by lia.
      replace (length X + S (length l))%nat
        with (length X + 1 + length l)%nat by lia.
      replace (S (length X')) with (length X' + 1)%nat by lia.
      replace (S (length X)) with (length X + 1)%nat by lia.
      simpl mismatches. subst co1 ta1.
      destruct (bool_decide (tagID c <> tagID o)); simpl.
      * rewrite <- app_assoc in Hrest. exact Hrest.
      * exact Hrest.
Qed.

(** X21. When the child elements of the new parent and of the old parent are
    the same elements in another order - position by position an element
    that stays under this parent in both trees - [generateChildEdits] emits
    no edit at all: it logs the reordering once for every position at which
    the identities differ, and returns with the edit list, the queue and
    the moves as they were. *)
Theorem generateChildEdits_reordered (om nm : gmap Z node) (cp op : node)
    (cs ocs : list node) (st : state) :
  children cp = Some cs ->
  children op = Some ocs ->
  Forall2 (keptPair om nm cp) cs ocs ->
  exists st',
    generateChildEdits om nm cp (Some op) st = Ok st'
    /\ edits st' = edits st /\ queue st' = queue st
    /\ moves st' = moves st
    /\ console st'
       = console st ++ replicate (mismatches cs ocs) msg_reordering.
Proof.
  intros Hcs Hocs Hkept.
  unfold generateChildEdits, mbind, result_bind. rewrite Hcs, Hocs. simpl.
  destruct (turns_keptPair om nm cp cs ocs cs ocs Hkept [] [] [] []
              (queue st) (edits st) (moves st) (console st) undefined)
    as [ta' Hturns]; [by rewrite app_nil_r..|].
  simpl in Hturns.
  pose proof (Forall2_length _ _ _ Hkept) as Hlen.
  eexists. split.
  - eapply (childLoops_turns om nm cp cs ocs (length cs) 0);
      [exact Hturns| |constructor| | |lia|lia].
    + unfold bothRemain. simpl. by rewrite Nat.ltb_irrefl.
    + unfold oldRemain. simpl. by rewrite Nat.ltb_irrefl.
    + unfold currentRemain. simpl. by rewrite Nat.ltb_irrefl.
  - unfold finalizeRemaining. simpl. by rewrite app_nil_r.
Qed.

Lemma generateChildEdits_reordered_witness :
  exists st',
    generateChildEdits (nodeMap ReorderExample.old)
      (nodeMap ReorderExample.new) ReorderExample.new_root
      (Some ReorderExample.old_root)
      (initialState ReorderExample.new_root) = Ok st'
    /\ edits st' = []
    /\ console st' = [msg_reordering; msg_reordering].
Proof.
  destruct (generateChildEdits_reordered (nodeMap ReorderExample.old)
              (nodeMap ReorderExample.new) ReorderExample.new_root
              ReorderExample.old_root
              [ReorderExample.b; ReorderExample.a]
              [ReorderExample.a; ReorderExample.b]
              (initialState ReorderExample.new_root))
    as (st' & Hrun & He & _ & _ & Hc).
  - reflexivity.
  - reflexivity.
  - repeat constructor; by eexists.
  - exists st'. split; [exact Hrun|]. split; [exact He | exact Hc].
Defined.
